(** * The pod metadata cache of the k8sattributes processor

    A shallow embedding of
    [processor/k8sattributesprocessor/internal/kube/client.go]: the
    [WatchClient] with its pod table, the identifiers a pod is stored under,
    the delete queue with its grace period, and the informer handlers that
    drive them; then the stores of the other kinds of object, the transforms
    of the informers, the attributes and containers extracted from a pod,
    and the selectors built from the filters.

    Conventions of the embedding.
    - A Go map is a [gmap]; a map of pointers to records that are never
      mutated after construction is a map of records.
    - A Go result pair (pointer to T, bool) is an [option T].
    - A run-time panic (an array index out of range) is [None] in the
      [option] monad; nothing is written before such a panic can happen.
    - [time.Time] and [time.Duration] are integers (nanoseconds); a
      [*metav1.Time] is an [option Z], [None] for the nil pointer.
    - Each handler invocation and each round of the delete loop is one
      atomic transition: the mutexes [m] and [deleteMut] are not modelled,
      nor are the logger and the API client. *)

From stdpp Require Import gmap strings list fin_maps.

Open Scope string_scope.
Open Scope list_scope.
Open Scope nat_scope.

(** ** Data model *)

(** *** Objects delivered by the informers

    The fields are those the watch client reads; they are the ones
    [removeUnnecessaryPodData] and [removeUnnecessaryReplicaSetData]
    keep. *)

Record OwnerReference := mkOwnerReference {
  Ref_Kind : string;
  Ref_Name : string;
  Ref_UID : string;
  Ref_Controller : option bool
}.

Record ObjectMeta := mkObjectMeta {
  Meta_Name : string;
  Meta_Namespace : string;
  Meta_UID : string;
  Meta_CreationTimestamp : option Z;
  Meta_Labels : gmap string string;
  Meta_Annotations : gmap string string;
  Meta_OwnerReferences : list OwnerReference
}.

Record api_Container := mkApiContainer {
  Spec_Container_Name : string;
  Spec_Container_Image : string
}.

Record api_ContainerStatus := mkApiContainerStatus {
  Status_Container_Name : string;
  Status_ContainerID : string;
  Status_RestartCount : Z;
  Status_ImageID : string
}.

Record PodSpec := mkPodSpec {
  Spec_NodeName : string;
  Spec_HostNetwork : bool;
  Spec_Hostname : string;
  Spec_Containers : list api_Container;
  Spec_InitContainers : list api_Container
}.

Record PodStatus := mkPodStatus {
  Status_PodIP : string;
  Status_StartTime : option Z;
  Status_ContainerStatuses : list api_ContainerStatus;
  Status_InitContainerStatuses : list api_ContainerStatus
}.

Record api_Pod := mkApiPod {
  Meta : ObjectMeta;
  Spec : PodSpec;
  Status : PodStatus
}.

(** The payload of a watch callback (Go's [any]).  The other kinds carry
    only object metadata as far as the client reads them. *)
Inductive Object :=
| PodObj (pod : api_Pod)
| NamespaceObj (namespace : ObjectMeta)
| NodeObj (node : ObjectMeta)
| DeploymentObj (deployment : ObjectMeta)
| StatefulSetObj (statefulset : ObjectMeta)
| ReplicaSetObj (replicaset : ObjectMeta)
| DeletedFinalStateUnknown (obj : Object)
| OtherObj.

(** *** Association rules and identifiers *)

(** The kind of an association source.  In the source it is the string
    field [From], compared against the constants [ConnectionSource] and
    [ResourceSource] that kube.go declares; every other value, the zero
    value included, selects no case of the switch in
    [getIdentifiersFromAssoc] and is [UnknownSource] here. *)
Inductive SourceKind := UnknownSource | ConnectionSource | ResourceSource.

Record AssociationSource := mkAssociationSource {
  Source_From : SourceKind;
  Source_Name : string
}.

Record Association := mkAssociation {
  Assoc_Name : string;
  Sources : list AssociationSource
}.

Record PodIdentifierAttribute := mkPodIdentifierAttribute {
  Attr_Source : AssociationSource;
  Attr_Value : string
}.

(** [PodIdentifier] is the array type
    [[PodIdentifierMaxLength]PodIdentifierAttribute]: a list whose length is
    the array size, compared structurally. *)
Abbreviation PodIdentifier := (list PodIdentifierAttribute).

#[global] Instance SourceKind_eq_dec : EqDecision SourceKind.
Proof. solve_decision. Defined.

#[global] Instance AssociationSource_eq_dec : EqDecision AssociationSource.
Proof. solve_decision. Defined.

#[global] Instance PodIdentifierAttribute_eq_dec : EqDecision PodIdentifierAttribute.
Proof. solve_decision. Defined.

Definition SourceKind_to_nat (k : SourceKind) : nat :=
  match k with UnknownSource => 0 | ConnectionSource => 1 | ResourceSource => 2 end.

Definition SourceKind_of_nat (n : nat) : SourceKind :=
  match n with 0 => UnknownSource | 1 => ConnectionSource | _ => ResourceSource end.

#[global] Program Instance SourceKind_countable : Countable SourceKind :=
  inj_countable' SourceKind_to_nat SourceKind_of_nat _.
Next Obligation. by intros []. Qed.

#[global] Program Instance AssociationSource_countable : Countable AssociationSource :=
  inj_countable' (λ s, (Source_From s, Source_Name s))
                 (λ p, mkAssociationSource p.1 p.2) _.
Next Obligation. by intros []. Qed.

#[global] Program Instance PodIdentifierAttribute_countable :
  Countable PodIdentifierAttribute :=
  inj_countable' (λ a, (Attr_Source a, Attr_Value a))
                 (λ p, mkPodIdentifierAttribute p.1 p.2) _.
Next Obligation. by intros []. Qed.

(** Modelled from the spec: the three constructors of identifier attributes
    are declared in kube.go, which is not among the available sources.  The spec describes an
    identifier as an "ordered fixed-size tuple of (source-kind, key, value)";
    a connection attribute has no key. *)
Definition PodIdentifierAttributeFromSource
    (source : AssociationSource) (value : string) : PodIdentifierAttribute :=
  mkPodIdentifierAttribute source value.

Definition PodIdentifierAttributeFromResourceAttribute
    (key value : string) : PodIdentifierAttribute :=
  PodIdentifierAttributeFromSource (mkAssociationSource ResourceSource key) value.

Definition PodIdentifierAttributeFromConnection
    (value : string) : PodIdentifierAttribute :=
  PodIdentifierAttributeFromSource (mkAssociationSource ConnectionSource "") value.

(** The zero value of [PodIdentifierAttribute]. *)
Definition zeroAttribute : PodIdentifierAttribute :=
  mkPodIdentifierAttribute (mkAssociationSource UnknownSource "") "".

(** Attribute names: the semantic-convention keys of
    go.opentelemetry.io/otel/semconv/v1.6.1, and [K8sIPLabelName] of kube.go
    ("k8s.pod.ip is set by passthrough mode"). *)
Definition K8SNamespaceNameKey : string := "k8s.namespace.name".
Definition K8SPodNameKey : string := "k8s.pod.name".
Definition K8SPodUIDKey : string := "k8s.pod.uid".
Definition HostNameKey : string := "host.name".
Definition ContainerIDKey : string := "container.id".
Definition K8sIPLabelName : string := "k8s.pod.ip".

(** *** Cached records *)

Record ContainerStatus := mkContainerStatus {
  CS_ContainerID : string;
  CS_ImageRepoDigest : string
}.

Record Container := mkContainer {
  Container_Name : string;
  Container_ImageName : string;
  Container_ImageTag : string;
  Container_ServiceInstanceID : string;
  Container_ServiceVersion : string;
  Container_Statuses : gmap Z ContainerStatus
}.

Record PodContainers := mkPodContainers {
  ByID : gmap string Container;
  ByName : gmap string Container
}.

Record Pod := mkPod {
  Pod_Name : string;
  Pod_Address : string;
  Pod_PodUID : string;
  Pod_Attributes : gmap string string;
  Pod_StartTime : option Z;
  Pod_Ignore : bool;
  Pod_Namespace : string;
  Pod_NodeName : string;
  Pod_DeploymentUID : string;
  Pod_StatefulSetUID : string;
  Pod_HostNetwork : bool;
  Pod_Containers : PodContainers
}.

Record Namespace := mkNamespace {
  Namespace_Name : string;
  Namespace_NamespaceUID : string;
  Namespace_Attributes : gmap string string;
  Namespace_StartTime : option Z
}.

Record Node := mkNode {
  Node_Name : string;
  Node_Attributes : gmap string string;
  Node_NodeUID : string
}.

Record Deployment := mkDeployment {
  Deployment_Name : string;
  Deployment_UID : string;
  Deployment_Attributes : gmap string string
}.

Record StatefulSet := mkStatefulSet {
  StatefulSet_Name : string;
  StatefulSet_UID : string;
  StatefulSet_Attributes : gmap string string
}.

Record ReplicaSet := mkReplicaSet {
  ReplicaSet_Name : string;
  ReplicaSet_Namespace : string;
  ReplicaSet_UID : string;
  ReplicaSet_Deployment : Deployment
}.

Record deleteRequest := mkDeleteRequest {
  Req_id : PodIdentifier;
  Req_podName : string;
  Req_ts : Z
}.

#[global] Instance deleteRequest_eq_dec : EqDecision deleteRequest.
Proof. solve_decision. Defined.

(** *** Configuration *)

Inductive MetadataFrom :=
| MetadataFromPod | MetadataFromNamespace | MetadataFromNode
| MetadataFromDeployment | MetadataFromStatefulSet.

#[global] Instance MetadataFrom_eq_dec : EqDecision MetadataFrom.
Proof. solve_decision. Defined.

(** A label or annotation rule.  The client reads its origin; what it
    extracts ([Rule_Selector] stands for its name, key and key pattern) is
    read by the methods of kube.go only. *)
Record FieldExtractionRule := mkFieldExtractionRule {
  Rule_From : MetadataFrom;
  Rule_Selector : string
}.

Record ExtractionRules := mkExtractionRules {
  CronJobName : bool;
  DeploymentName : bool;
  DeploymentUID : bool;
  DaemonSetUID : bool;
  DaemonSetName : bool;
  JobUID : bool;
  JobName : bool;
  Rules_Namespace : bool;
  PodName : bool;
  PodUID : bool;
  PodHostName : bool;
  PodIP : bool;
  ReplicaSetID : bool;
  ReplicaSetName : bool;
  StatefulSetUID : bool;
  StatefulSetName : bool;
  Rules_Node : bool;
  NodeUID : bool;
  StartTime : bool;
  ContainerName : bool;
  ContainerID : bool;
  ContainerImageName : bool;
  ContainerImageRepoDigests : bool;
  ContainerImageTag : bool;
  ClusterUID : bool;
  ServiceName : bool;
  ServiceVersion : bool;
  ServiceInstanceID : bool;
  Annotations : list FieldExtractionRule;
  Labels : list FieldExtractionRule
}.

(** [Excludes]: each excluded pod is a compiled name pattern, here the
    predicate its [MatchString] computes. *)
Record Excludes := mkExcludes {
  Exclude_Pods : list (string → bool)
}.

(** *** The watch client *)

(** A shared informer as the client sees it: whether the client's handlers
    are registered with it and whether it was started. *)
Record Informer := mkInformer {
  hasHandlers : bool;
  isRunning : bool
}.

Record WatchClient := mkWatchClient {
  informer : option Informer;
  namespaceInformer : option Informer;
  nodeInformer : option Informer;
  deploymentInformer : option Informer;
  statefulsetInformer : option Informer;
  replicasetInformer : option Informer;
  deleteQueue : list deleteRequest;
  Pods : gmap PodIdentifier Pod;
  Rules : ExtractionRules;
  Associations : list Association;
  Exclude : Excludes;
  Namespaces : gmap string Namespace;
  Nodes : gmap string Node;
  Deployments : gmap string Deployment;
  StatefulSets : gmap string StatefulSet;
  ReplicaSets : gmap string ReplicaSet;
  telemetryBuilder : gmap string Z
}.

Definition with_Pods (c : WatchClient) (pods : gmap PodIdentifier Pod) : WatchClient :=
  mkWatchClient (informer c) (namespaceInformer c) (nodeInformer c)
    (deploymentInformer c) (statefulsetInformer c) (replicasetInformer c)
    (deleteQueue c) pods (Rules c) (Associations c) (Exclude c)
    (Namespaces c) (Nodes c) (Deployments c) (StatefulSets c) (ReplicaSets c)
    (telemetryBuilder c).

Definition with_deleteQueue (c : WatchClient) (q : list deleteRequest) : WatchClient :=
  mkWatchClient (informer c) (namespaceInformer c) (nodeInformer c)
    (deploymentInformer c) (statefulsetInformer c) (replicasetInformer c)
    q (Pods c) (Rules c) (Associations c) (Exclude c)
    (Namespaces c) (Nodes c) (Deployments c) (StatefulSets c) (ReplicaSets c)
    (telemetryBuilder c).

Definition with_telemetry (c : WatchClient) (t : gmap string Z) : WatchClient :=
  mkWatchClient (informer c) (namespaceInformer c) (nodeInformer c)
    (deploymentInformer c) (statefulsetInformer c) (replicasetInformer c)
    (deleteQueue c) (Pods c) (Rules c) (Associations c) (Exclude c)
    (Namespaces c) (Nodes c) (Deployments c) (StatefulSets c) (ReplicaSets c)
    t.

Definition with_Namespaces (c : WatchClient) (m : gmap string Namespace) : WatchClient :=
  mkWatchClient (informer c) (namespaceInformer c) (nodeInformer c)
    (deploymentInformer c) (statefulsetInformer c) (replicasetInformer c)
    (deleteQueue c) (Pods c) (Rules c) (Associations c) (Exclude c)
    m (Nodes c) (Deployments c) (StatefulSets c) (ReplicaSets c)
    (telemetryBuilder c).

Definition with_Nodes (c : WatchClient) (m : gmap string Node) : WatchClient :=
  mkWatchClient (informer c) (namespaceInformer c) (nodeInformer c)
    (deploymentInformer c) (statefulsetInformer c) (replicasetInformer c)
    (deleteQueue c) (Pods c) (Rules c) (Associations c) (Exclude c)
    (Namespaces c) m (Deployments c) (StatefulSets c) (ReplicaSets c)
    (telemetryBuilder c).

Definition with_Deployments (c : WatchClient) (m : gmap string Deployment) : WatchClient :=
  mkWatchClient (informer c) (namespaceInformer c) (nodeInformer c)
    (deploymentInformer c) (statefulsetInformer c) (replicasetInformer c)
    (deleteQueue c) (Pods c) (Rules c) (Associations c) (Exclude c)
    (Namespaces c) (Nodes c) m (StatefulSets c) (ReplicaSets c)
    (telemetryBuilder c).

Definition with_StatefulSets (c : WatchClient) (m : gmap string StatefulSet) : WatchClient :=
  mkWatchClient (informer c) (namespaceInformer c) (nodeInformer c)
    (deploymentInformer c) (statefulsetInformer c) (replicasetInformer c)
    (deleteQueue c) (Pods c) (Rules c) (Associations c) (Exclude c)
    (Namespaces c) (Nodes c) (Deployments c) m (ReplicaSets c)
    (telemetryBuilder c).

Definition with_ReplicaSets (c : WatchClient) (m : gmap string ReplicaSet) : WatchClient :=
  mkWatchClient (informer c) (namespaceInformer c) (nodeInformer c)
    (deploymentInformer c) (statefulsetInformer c) (replicasetInformer c)
    (deleteQueue c) (Pods c) (Rules c) (Associations c) (Exclude c)
    (Namespaces c) (Nodes c) (Deployments c) (StatefulSets c) m
    (telemetryBuilder c).

(** Telemetry instruments, by the name of their field in the telemetry
    builder: a counter is incremented, a gauge records its last value. *)
Definition telemetry_Add (name : string) (n : Z) (c : WatchClient) : WatchClient :=
  with_telemetry c (<[name := (default 0 (telemetryBuilder c !! name) + n)%Z]> (telemetryBuilder c)).

Definition telemetry_Record (name : string) (v : Z) (c : WatchClient) : WatchClient :=
  with_telemetry c (<[name := v]> (telemetryBuilder c)).

(** ** What the client takes from outside

    The size of the identifier array and the annotation that marks a pod as
    ignored are constants of kube.go; the string functions are Go's; the
    metadata extraction methods belong to [FieldExtractionRule] in kube.go.
    None of these is among the available sources.  [extractPodAttributes] and
    [extractPodContainersAttributes] are in client.go but rest on image
    reference parsers and regular expressions of other packages; the
    properties below hold whatever attribute map and container table they
    return, so they are kept abstract with the state they read as
    arguments. *)
Class Externals := {
  PodIdentifierMaxLength : nat;
  ignoreAnnotation : string;
  strings_TrimSpace : string → string;
  strings_ToLower : string → string;
  extractPodAttributes :
    ExtractionRules → gmap string Namespace → gmap string ReplicaSet →
    api_Pod → gmap string string;
  extractPodContainersAttributes : ExtractionRules → api_Pod → PodContainers;
  extractFromNamespaceMetadata :
    FieldExtractionRule → gmap string string → gmap string string → string →
    gmap string string;
  extractFromNodeMetadata :
    FieldExtractionRule → gmap string string → gmap string string → string →
    gmap string string;
  extractFromDeploymentMetadata :
    FieldExtractionRule → gmap string string → gmap string string → string →
    gmap string string;
  extractFromStatefulSetMetadata :
    FieldExtractionRule → gmap string string → gmap string string → string →
    gmap string string
}.

Section WatchClient.
Context `{Externals}.

(** ** Identifiers of a pod: [getIdentifiersFromAssoc] *)

(** [a[i] = v] on an array: an index out of range panics. *)
Definition array_set (a : PodIdentifier) (i : nat) (v : PodIdentifierAttribute)
    : option PodIdentifier :=
  if decide (i < length a) then Some (<[i := v]> a) else None.

(** The composite literal [PodIdentifier{a}]: [a] first, zero values after. *)
Definition PodIdentifier_lit (a : PodIdentifierAttribute) : PodIdentifier :=
  a :: replicate (PodIdentifierMaxLength - 1) zeroAttribute.

(** The variables of one round of the loop over the associations. *)
Record assocScan := mkAssocScan {
  ret : PodIdentifier;
  skip : bool;
  retID4containerID : Z
}.

(** The body of the loop over [assoc.Sources].  A [break] leaves the
    [switch] only: the loop goes on with the next source, [skip] stays
    set. *)
Definition scanSource (pod : Pod) (i : nat) (source : AssociationSource)
    (st : assocScan) : option assocScan :=
  match Source_From source with
  | ConnectionSource =>
      if decide (Pod_Address pod = "") then
        Some (mkAssocScan (ret st) true (retID4containerID st))
      else if Pod_HostNetwork pod then
        Some (mkAssocScan (ret st) true (retID4containerID st))
      else
        r ← array_set (ret st) i
              (PodIdentifierAttributeFromSource source (Pod_Address pod));
        Some (mkAssocScan r (skip st) (retID4containerID st))
  | ResourceSource =>
      let '(attr, cid) :=
        if decide (Source_Name source = K8SNamespaceNameKey) then
          (Pod_Namespace pod, retID4containerID st)
        else if decide (Source_Name source = K8SPodNameKey) then
          (Pod_Name pod, retID4containerID st)
        else if decide (Source_Name source = K8SPodUIDKey) then
          (Pod_PodUID pod, retID4containerID st)
        else if decide (Source_Name source = HostNameKey) then
          (Pod_Address pod, retID4containerID st)
        else if decide (Source_Name source = K8sIPLabelName) then
          (Pod_Address pod, retID4containerID st)
        else if decide (Source_Name source = ContainerIDKey) then
          ("", Z.of_nat i)
        else
          (default "" (Pod_Attributes pod !! Source_Name source),
           retID4containerID st) in
      if decide (attr = "" ∧ cid = (-1)%Z) then
        Some (mkAssocScan (ret st) true cid)
      else
        r ← array_set (ret st) i (PodIdentifierAttributeFromSource source attr);
        Some (mkAssocScan r (skip st) cid)
  | UnknownSource => Some st
  end.

Fixpoint scanSources (pod : Pod) (i : nat) (sources : list AssociationSource)
    (st : assocScan) : option assocScan :=
  match sources with
  | [] => Some st
  | source :: rest =>
      st' ← scanSource pod i source st;
      scanSources pod (S i) rest st'
  end.

Definition initialScan : assocScan :=
  mkAssocScan (replicate PodIdentifierMaxLength zeroAttribute) false (-1).

(** The keys of [pod.Containers.ByID].  Go iterates a map in an unspecified
    order; the model takes the order of [map_to_list], and no property below
    depends on it. *)
Definition containerIDs (pod : Pod) : list string :=
  (map_to_list (ByID (Pod_Containers pod))).*1.

(** The identifiers one association contributes. *)
Definition identifiersOfAssoc (pod : Pod) (assoc : Association)
    : option (list PodIdentifier) :=
  st ← scanSources pod 0 (Sources assoc) initialScan;
  if skip st then Some []
  else if decide (retID4containerID st ≠ (-1)%Z) then
    mapM (λ cID,
            array_set (ret st) (Z.to_nat (retID4containerID st))
              (PodIdentifierAttributeFromSource
                 (mkAssociationSource ResourceSource ContainerIDKey) cID))
         (containerIDs pod)
  else Some [ret st].

(** "Ensure backward compatibility": the identifiers appended after the
    associations. *)
Definition fallbackIdentifiers (pod : Pod) : list PodIdentifier :=
  (if decide (Pod_PodUID pod ≠ "") then
     [PodIdentifier_lit
        (PodIdentifierAttributeFromResourceAttribute K8SPodUIDKey (Pod_PodUID pod))]
   else []) ++
  (if decide (Pod_Address pod ≠ "" ∧ Pod_HostNetwork pod = false) then
     [PodIdentifier_lit (PodIdentifierAttributeFromConnection (Pod_Address pod));
      PodIdentifier_lit
        (PodIdentifierAttributeFromResourceAttribute K8sIPLabelName (Pod_Address pod))]
   else []).

Definition getIdentifiersFromAssoc (c : WatchClient) (pod : Pod)
    : option (list PodIdentifier) :=
  ids ← mapM (identifiersOfAssoc pod) (Associations c);
  Some (concat ids ++ fallbackIdentifiers pod).

(** ** Pod records: [podFromAPI] *)

Definition getReplicaSet (c : WatchClient) (uid : string) : option ReplicaSet :=
  ReplicaSets c !! uid.

Definition getStatefulSet (c : WatchClient) (uid : string) : option StatefulSet :=
  StatefulSets c !! uid.

Fixpoint getOwnerUID (kind : string) (refs : list OwnerReference) : string :=
  match refs with
  | [] => ""
  | ref :: rest =>
      if decide (Ref_Kind ref = kind) then Ref_UID ref else getOwnerUID kind rest
  end.

Definition getPodReplicaSetUID (pod : api_Pod) : string :=
  getOwnerUID "ReplicaSet" (Meta_OwnerReferences (Meta pod)).

Definition getPodStatefulSetUID (pod : api_Pod) : string :=
  getOwnerUID "StatefulSet" (Meta_OwnerReferences (Meta pod)).

Definition shouldIgnorePod (c : WatchClient) (pod : api_Pod) : bool :=
  match Meta_Annotations (Meta pod) !! ignoreAnnotation with
  | Some v =>
      if decide (strings_ToLower (strings_TrimSpace v) = "true") then true
      else existsb (λ excludedPod, excludedPod (Meta_Name (Meta pod)))
                   (Exclude_Pods (Exclude c))
  | None =>
      existsb (λ excludedPod, excludedPod (Meta_Name (Meta pod)))
              (Exclude_Pods (Exclude c))
  end.

Definition needContainerAttributes (rules : ExtractionRules) : bool :=
  ContainerImageName rules || ContainerName rules || ContainerImageTag rules ||
  ContainerImageRepoDigests rules || ContainerID rules ||
  ServiceVersion rules || ServiceInstanceID rules.

Definition podFromAPI (c : WatchClient) (pod : api_Pod) : Pod :=
  let ignore := shouldIgnorePod c pod in
  {| Pod_Name := Meta_Name (Meta pod);
     Pod_Namespace := Meta_Namespace (Meta pod);
     Pod_NodeName := Spec_NodeName (Spec pod);
     Pod_DeploymentUID :=
       match getReplicaSet c (getPodReplicaSetUID pod) with
       | Some replicaset =>
           if decide (Deployment_UID (ReplicaSet_Deployment replicaset) ≠ "")
           then Deployment_UID (ReplicaSet_Deployment replicaset) else ""
       | None => ""
       end;
     Pod_StatefulSetUID :=
       match getStatefulSet c (getPodStatefulSetUID pod) with
       | Some statefulset => StatefulSet_UID statefulset
       | None => ""
       end;
     Pod_Address := Status_PodIP (Status pod);
     Pod_HostNetwork := Spec_HostNetwork (Spec pod);
     Pod_PodUID := Meta_UID (Meta pod);
     Pod_StartTime := Status_StartTime (Status pod);
     Pod_Ignore := ignore;
     Pod_Attributes :=
       if ignore then ∅
       else extractPodAttributes (Rules c) (Namespaces c) (ReplicaSets c) pod;
     Pod_Containers :=
       if ignore then mkPodContainers ∅ ∅
       else if needContainerAttributes (Rules c)
            then extractPodContainersAttributes (Rules c) pod
            else mkPodContainers ∅ ∅ |}.

(** ** The pod table *)

(** [t.Before(u)] of [*metav1.Time]: false as soon as one side is nil. *)
Definition Time_Before (t u : option Z) : bool :=
  match t, u with
  | Some t, Some u => bool_decide (t < u)%Z
  | _, _ => false
  end.

(** The body of the loop of [addOrUpdatePod]. *)
Definition putPod (startTime : option Z) (newPod : Pod)
    (pods : gmap PodIdentifier Pod) (id : PodIdentifier) : gmap PodIdentifier Pod :=
  match pods !! id with
  | Some p =>
      if Time_Before startTime (Pod_StartTime p) then pods
      else <[id := newPod]> pods
  | None => <[id := newPod]> pods
  end.

Definition addOrUpdatePod (c : WatchClient) (pod : api_Pod) : option WatchClient :=
  let newPod := podFromAPI c pod in
  ids ← getIdentifiersFromAssoc c newPod;
  Some (with_Pods c
          (foldl (putPod (Status_StartTime (Status pod)) newPod) (Pods c) ids)).

(** [GetPod]: the result and the client after the call (a miss is
    counted). *)
Definition GetPod (c : WatchClient) (identifier : PodIdentifier)
    : option Pod * WatchClient :=
  match Pods c !! identifier with
  | Some pod => if Pod_Ignore pod then (None, c) else (Some pod, c)
  | None => (None, telemetry_Add "OtelsvcK8sIPLookupMiss" 1 c)
  end.

(** ** The delete queue *)

(** [now] is the reading of [time.Now()] the call makes. *)
Definition appendDeleteQueue (c : WatchClient) (podID : PodIdentifier)
    (podName : string) (now : Z) : WatchClient :=
  with_deleteQueue c (deleteQueue c ++ [mkDeleteRequest podID podName now]).

(** The body of the loop of [forgetPod]; [k] counts the readings of the
    clock made so far, [time_Now k] is the next one. *)
Definition forgetIdentifier (pod : api_Pod) (time_Now : nat → Z)
    (st : WatchClient * nat) (id : PodIdentifier) : WatchClient * nat :=
  let '(p, c) := GetPod st.1 id in
  match p with
  | Some p =>
      if decide (Pod_Name p = Meta_Name (Meta pod)) then
        (appendDeleteQueue c id (Meta_Name (Meta pod)) (time_Now st.2), S st.2)
      else (c, st.2)
  | None => (c, st.2)
  end.

Definition forgetPod (c : WatchClient) (pod : api_Pod) (time_Now : nat → Z)
    : option WatchClient :=
  let podToRemove := podFromAPI c pod in
  ids ← getIdentifiersFromAssoc c podToRemove;
  Some (foldl (forgetIdentifier pod time_Now) (c, 0) ids).1.

(** The first loop of a round of [deleteLoop]: the number of leading
    requests whose grace period is over at [now]. *)
Fixpoint scanCutoff (now gracePeriod : Z) (i cutoff : nat)
    (queue : list deleteRequest) : nat :=
  match queue with
  | [] => cutoff
  | d :: rest =>
      if bool_decide (now < Req_ts d + gracePeriod)%Z then cutoff
      else scanCutoff now gracePeriod (S i) (S i) rest
  end.

(** The body of the second loop. *)
Definition applyDelete (pods : gmap PodIdentifier Pod) (d : deleteRequest)
    : gmap PodIdentifier Pod :=
  match pods !! Req_id d with
  | Some p =>
      if decide (Pod_Name p = Req_podName d) then delete (Req_id d) pods else pods
  | None => pods
  end.

(** One round of [deleteLoop], run when the timer fires at [now]. *)
Definition deleteLoop (gracePeriod : Z) (c : WatchClient) (now : Z) : WatchClient :=
  let cutoff := scanCutoff now gracePeriod 0 0 (deleteQueue c) in
  let toDelete := take cutoff (deleteQueue c) in
  let c := with_deleteQueue c (drop cutoff (deleteQueue c)) in
  let c := with_Pods c (foldl applyDelete (Pods c) toDelete) in
  telemetry_Record "OtelsvcK8sPodTableSize" (Z.of_nat (size (Pods c))) c.

(** [time.Second], in nanoseconds. *)
Definition time_Second : Z := 1000000000.

(** Modelled from the spec: [defaultPodDeleteGracePeriod] is a constant of
    kube.go, which is not among the available sources; the spec gives "a
    grace period (default 5s)". *)
Definition defaultPodDeleteGracePeriod : Z := 5 * time_Second.

(** ** The other object stores *)

Definition K8sNodeLabels : string := "k8s.node.labels.%s".
Definition K8sNodeAnnotations : string := "k8s.node.annotations.%s".
Definition K8sNamespaceLabels : string := "k8s.namespace.labels.%s".
Definition K8sNamespaceAnnotations : string := "k8s.namespace.annotations.%s".
Definition K8sDeploymentLabel : string := "k8s.deployment.label.%s".
Definition K8sDeploymentAnnotation : string := "k8s.deployment.annotation.%s".
Definition K8sStatefulSetLabel : string := "k8s.statefulset.label.%s".
Definition K8sStatefulSetAnnotation : string := "k8s.statefulset.annotation.%s".

(** The shape shared by the four [extract...Attributes] of the other
    kinds: the label rules, then the annotation rules, each writing into
    [tags]. *)
Definition extractAttributes
    (extract : FieldExtractionRule → gmap string string → gmap string string →
               string → gmap string string)
    (c : WatchClient) (obj : ObjectMeta) (labelsFmt annotationsFmt : string)
    : gmap string string :=
  let tags := foldl (λ tags r, extract r (Meta_Labels obj) tags labelsFmt)
                    ∅ (Labels (Rules c)) in
  foldl (λ tags r, extract r (Meta_Annotations obj) tags annotationsFmt)
        tags (Annotations (Rules c)).

Definition extractNamespaceAttributes (c : WatchClient) (namespace : ObjectMeta) :=
  extractAttributes extractFromNamespaceMetadata c namespace
    K8sNamespaceLabels K8sNamespaceAnnotations.

Definition extractNodeAttributes (c : WatchClient) (node : ObjectMeta) :=
  extractAttributes extractFromNodeMetadata c node K8sNodeLabels K8sNodeAnnotations.

Definition extractDeploymentAttributes (c : WatchClient) (d : ObjectMeta) :=
  extractAttributes extractFromDeploymentMetadata c d
    K8sDeploymentLabel K8sDeploymentAnnotation.

Definition extractStatefulSetAttributes (c : WatchClient) (d : ObjectMeta) :=
  extractAttributes extractFromStatefulSetMetadata c d
    K8sStatefulSetLabel K8sStatefulSetAnnotation.

Definition addOrUpdateNamespace (c : WatchClient) (namespace : ObjectMeta) : WatchClient :=
  let newNamespace :=
    {| Namespace_Name := Meta_Name namespace;
       Namespace_NamespaceUID := Meta_UID namespace;
       Namespace_StartTime := Meta_CreationTimestamp namespace;
       Namespace_Attributes := extractNamespaceAttributes c namespace |} in
  if decide (Meta_Name namespace ≠ "") then
    with_Namespaces c (<[Meta_Name namespace := newNamespace]> (Namespaces c))
  else c.

Definition addOrUpdateNode (c : WatchClient) (node : ObjectMeta) : WatchClient :=
  let newNode :=
    {| Node_Name := Meta_Name node;
       Node_NodeUID := Meta_UID node;
       Node_Attributes := extractNodeAttributes c node |} in
  if decide (Meta_Name node ≠ "") then
    with_Nodes c (<[Meta_Name node := newNode]> (Nodes c))
  else c.

Definition addOrUpdateDeployment (c : WatchClient) (deployment : ObjectMeta) : WatchClient :=
  let newDeployment :=
    {| Deployment_Name := Meta_Name deployment;
       Deployment_UID := Meta_UID deployment;
       Deployment_Attributes := extractDeploymentAttributes c deployment |} in
  if decide (Meta_UID deployment ≠ "") then
    with_Deployments c (<[Meta_UID deployment := newDeployment]> (Deployments c))
  else c.

Definition addOrUpdateStatefulSet (c : WatchClient) (statefulset : ObjectMeta) : WatchClient :=
  let newStatefulSet :=
    {| StatefulSet_Name := Meta_Name statefulset;
       StatefulSet_UID := Meta_UID statefulset;
       StatefulSet_Attributes := extractStatefulSetAttributes c statefulset |} in
  if decide (Meta_UID statefulset ≠ "") then
    with_StatefulSets c (<[Meta_UID statefulset := newStatefulSet]> (StatefulSets c))
  else c.

(** The owning deployment of a replica set: the first owner reference of
    kind Deployment that is a controller; the zero [Deployment] without
    one. *)
Fixpoint owningDeployment (refs : list OwnerReference) : Deployment :=
  match refs with
  | [] => mkDeployment "" "" ∅
  | ownerReference :: rest =>
      if decide (Ref_Kind ownerReference = "Deployment"
                 ∧ Ref_Controller ownerReference = Some true)
      then mkDeployment (Ref_Name ownerReference) (Ref_UID ownerReference) ∅
      else owningDeployment rest
  end.

Definition addOrUpdateReplicaSet (c : WatchClient) (replicaset : ObjectMeta) : WatchClient :=
  let newReplicaSet :=
    {| ReplicaSet_Name := Meta_Name replicaset;
       ReplicaSet_Namespace := Meta_Namespace replicaset;
       ReplicaSet_UID := Meta_UID replicaset;
       ReplicaSet_Deployment := owningDeployment (Meta_OwnerReferences replicaset) |} in
  if decide (Meta_UID replicaset ≠ "") then
    with_ReplicaSets c (<[Meta_UID replicaset := newReplicaSet]> (ReplicaSets c))
  else c.

(** ** Watch handlers *)

Definition ignoreDeletedFinalStateUnknown (obj : Object) : Object :=
  match obj with
  | DeletedFinalStateUnknown obj => obj
  | _ => obj
  end.

Definition recordPodTableSize (c : WatchClient) : WatchClient :=
  telemetry_Record "OtelsvcK8sPodTableSize" (Z.of_nat (size (Pods c))) c.

Definition handlePodAdd (c : WatchClient) (obj : Object) : option WatchClient :=
  let c := telemetry_Add "OtelsvcK8sPodAdded" 1 c in
  c ← match obj with
      | PodObj pod => addOrUpdatePod c pod
      | _ => Some c
      end;
  Some (recordPodTableSize c).

Definition handlePodUpdate (c : WatchClient) (_ newPod : Object) : option WatchClient :=
  let c := telemetry_Add "OtelsvcK8sPodUpdated" 1 c in
  c ← match newPod with
      | PodObj pod => addOrUpdatePod c pod
      | _ => Some c
      end;
  Some (recordPodTableSize c).

Definition handlePodDelete (c : WatchClient) (obj : Object) (time_Now : nat → Z)
    : option WatchClient :=
  let c := telemetry_Add "OtelsvcK8sPodDeleted" 1 c in
  c ← match ignoreDeletedFinalStateUnknown obj with
      | PodObj pod => forgetPod c pod time_Now
      | _ => Some c
      end;
  Some (recordPodTableSize c).

Definition handleNamespaceAdd (c : WatchClient) (obj : Object) : WatchClient :=
  let c := telemetry_Add "OtelsvcK8sNamespaceAdded" 1 c in
  match obj with
  | NamespaceObj namespace => addOrUpdateNamespace c namespace
  | _ => c
  end.

Definition handleNamespaceUpdate (c : WatchClient) (_ newNamespace : Object) : WatchClient :=
  let c := telemetry_Add "OtelsvcK8sNamespaceUpdated" 1 c in
  match newNamespace with
  | NamespaceObj namespace => addOrUpdateNamespace c namespace
  | _ => c
  end.

Definition handleNamespaceDelete (c : WatchClient) (obj : Object) : WatchClient :=
  let c := telemetry_Add "OtelsvcK8sNamespaceDeleted" 1 c in
  match ignoreDeletedFinalStateUnknown obj with
  | NamespaceObj namespace =>
      match Namespaces c !! Meta_Name namespace with
      | Some ns => with_Namespaces c (delete (Namespace_Name ns) (Namespaces c))
      | None => c
      end
  | _ => c
  end.

Definition handleNodeAdd (c : WatchClient) (obj : Object) : WatchClient :=
  let c := telemetry_Add "OtelsvcK8sNodeAdded" 1 c in
  match obj with
  | NodeObj node => addOrUpdateNode c node
  | _ => c
  end.

Definition handleNodeUpdate (c : WatchClient) (_ newNode : Object) : WatchClient :=
  let c := telemetry_Add "OtelsvcK8sNodeUpdated" 1 c in
  match newNode with
  | NodeObj node => addOrUpdateNode c node
  | _ => c
  end.

Definition handleNodeDelete (c : WatchClient) (obj : Object) : WatchClient :=
  let c := telemetry_Add "OtelsvcK8sNodeDeleted" 1 c in
  match ignoreDeletedFinalStateUnknown obj with
  | NodeObj node =>
      match Nodes c !! Meta_Name node with
      | Some n => with_Nodes c (delete (Node_Name n) (Nodes c))
      | None => c
      end
  | _ => c
  end.

Definition handleDeploymentAdd (c : WatchClient) (obj : Object) : WatchClient :=
  let c := telemetry_Add "OtelsvcK8sDeploymentAdded" 1 c in
  match obj with
  | DeploymentObj deployment => addOrUpdateDeployment c deployment
  | _ => c
  end.

Definition handleDeploymentUpdate (c : WatchClient) (_ newDeployment : Object) : WatchClient :=
  let c := telemetry_Add "OtelsvcK8sDeploymentUpdated" 1 c in
  match newDeployment with
  | DeploymentObj deployment => addOrUpdateDeployment c deployment
  | _ => c
  end.

Definition handleDeploymentDelete (c : WatchClient) (obj : Object) : WatchClient :=
  let c := telemetry_Add "OtelsvcK8sDeploymentDeleted" 1 c in
  match ignoreDeletedFinalStateUnknown obj with
  | DeploymentObj deployment =>
      match Deployments c !! Meta_UID deployment with
      | Some n => with_Deployments c (delete (Deployment_UID n) (Deployments c))
      | None => c
      end
  | _ => c
  end.

Definition handleStatefulSetAdd (c : WatchClient) (obj : Object) : WatchClient :=
  let c := telemetry_Add "OtelsvcK8sStatefulsetAdded" 1 c in
  match obj with
  | StatefulSetObj statefulset => addOrUpdateStatefulSet c statefulset
  | _ => c
  end.

Definition handleStatefulSetUpdate (c : WatchClient) (_ newStatefulSet : Object) : WatchClient :=
  let c := telemetry_Add "OtelsvcK8sStatefulsetUpdated" 1 c in
  match newStatefulSet with
  | StatefulSetObj statefulset => addOrUpdateStatefulSet c statefulset
  | _ => c
  end.

Definition handleStatefulSetDelete (c : WatchClient) (obj : Object) : WatchClient :=
  let c := telemetry_Add "OtelsvcK8sStatefulsetDeleted" 1 c in
  match ignoreDeletedFinalStateUnknown obj with
  | StatefulSetObj statefulset =>
      match StatefulSets c !! Meta_UID statefulset with
      | Some n => with_StatefulSets c (delete (StatefulSet_UID n) (StatefulSets c))
      | None => c
      end
  | _ => c
  end.

Definition handleReplicaSetAdd (c : WatchClient) (obj : Object) : WatchClient :=
  let c := telemetry_Add "OtelsvcK8sReplicasetAdded" 1 c in
  match obj with
  | ReplicaSetObj replicaset => addOrUpdateReplicaSet c replicaset
  | _ => c
  end.

Definition handleReplicaSetUpdate (c : WatchClient) (_ newRS : Object) : WatchClient :=
  let c := telemetry_Add "OtelsvcK8sReplicasetUpdated" 1 c in
  match newRS with
  | ReplicaSetObj replicaset => addOrUpdateReplicaSet c replicaset
  | _ => c
  end.

Definition handleReplicaSetDelete (c : WatchClient) (obj : Object) : WatchClient :=
  let c := telemetry_Add "OtelsvcK8sReplicasetDeleted" 1 c in
  match ignoreDeletedFinalStateUnknown obj with
  | ReplicaSetObj replicaset =>
      with_ReplicaSets c (delete (Meta_UID replicaset) (ReplicaSets c))
  | _ => c
  end.

(** ** Construction and start-up: [New] and [Start] *)

Definition extractsMetadataFrom (from : MetadataFrom) (rules : ExtractionRules) : bool :=
  existsb (λ r, bool_decide (Rule_From r = from)) (Labels rules) ||
  existsb (λ r, bool_decide (Rule_From r = from)) (Annotations rules).

Definition extractNamespaceLabelsAnnotations := extractsMetadataFrom MetadataFromNamespace.
Definition extractDeploymentLabelsAnnotations := extractsMetadataFrom MetadataFromDeployment.
Definition extractStatefulSetLabelsAnnotations := extractsMetadataFrom MetadataFromStatefulSet.
Definition extractNodeLabelsAnnotations := extractsMetadataFrom MetadataFromNode.
Definition extractNodeUID (rules : ExtractionRules) : bool := NodeUID rules.

Definition newInformer : Informer := mkInformer false false.

(** [New] on its successful path (a failure returns no client).  The pod
    and namespace informers are always created, the others only when a rule
    needs them; the delete loop runs from here on. *)
Definition New (rules : ExtractionRules) (associations : list Association)
    (exclude : Excludes) : WatchClient :=
  {| informer := Some newInformer;
     namespaceInformer := Some newInformer;
     replicasetInformer :=
       if DeploymentName rules || DeploymentUID rules
       then Some newInformer else None;
     nodeInformer :=
       if extractNodeLabelsAnnotations rules || extractNodeUID rules
       then Some newInformer else None;
     deploymentInformer :=
       if extractDeploymentLabelsAnnotations rules then Some newInformer else None;
     statefulsetInformer :=
       if extractStatefulSetLabelsAnnotations rules then Some newInformer else None;
     deleteQueue := [];
     Pods := ∅;
     Rules := rules;
     Associations := associations;
     Exclude := exclude;
     Namespaces := ∅;
     Nodes := ∅;
     Deployments := ∅;
     StatefulSets := ∅;
     ReplicaSets := ∅;
     telemetryBuilder := ∅ |}.

(** [AddEventHandler] followed by [go informer.Run]. *)
Definition startInformer (i : Informer) : Informer := mkInformer true true.

(** [Start]: a method call on a nil informer panics.  Waiting for the
    caches to sync is a matter of real time and left out. *)
Definition Start (c : WatchClient) : option WatchClient :=
  rs ← (if DeploymentName (Rules c) || DeploymentUID (Rules c)
        then i ← replicasetInformer c; Some (Some (startInformer i))
        else Some (replicasetInformer c));
  ns ← (i ← namespaceInformer c; Some (Some (startInformer i)));
  po ← (i ← informer c; Some (Some (startInformer i)));
  Some (mkWatchClient po ns
          (startInformer <$> nodeInformer c)
          (startInformer <$> deploymentInformer c)
          (startInformer <$> statefulsetInformer c)
          rs
          (deleteQueue c) (Pods c) (Rules c) (Associations c) (Exclude c)
          (Namespaces c) (Nodes c) (Deployments c) (StatefulSets c)
          (ReplicaSets c) (telemetryBuilder c)).

(** ** Runs of the client *)

Inductive Kind :=
| KPod | KNamespace | KNode | KDeployment | KStatefulSet | KReplicaSet.

Inductive Notification :=
| OnAdd (obj : Object)
| OnUpdate (oldObj newObj : Object)
| OnDelete (obj : Object).

(** What happens to a client: [Start] is called, an informer calls a
    handler ([time_Now] gives the readings of the clock the handler makes),
    or the timer of the delete loop fires. *)
Inductive Event :=
| EvStart
| EvNotify (k : Kind) (n : Notification) (time_Now : nat → Z)
| EvDeleteLoop (now : Z).

Definition informerOf (c : WatchClient) (k : Kind) : option Informer :=
  match k with
  | KPod => informer c
  | KNamespace => namespaceInformer c
  | KNode => nodeInformer c
  | KDeployment => deploymentInformer c
  | KStatefulSet => statefulsetInformer c
  | KReplicaSet => replicasetInformer c
  end.

(** An informer calls handlers only once they are registered and it
    runs. *)
Definition enabled (c : WatchClient) (ev : Event) : bool :=
  match ev with
  | EvStart => true
  | EvNotify k _ _ =>
      match informerOf c k with
      | Some i => hasHandlers i && isRunning i
      | None => false
      end
  | EvDeleteLoop _ => true
  end.

Definition handle (c : WatchClient) (ev : Event) : option WatchClient :=
  match ev with
  | EvStart => Start c
  | EvNotify KPod (OnAdd obj) _ => handlePodAdd c obj
  | EvNotify KPod (OnUpdate oldObj newObj) _ => handlePodUpdate c oldObj newObj
  | EvNotify KPod (OnDelete obj) time_Now => handlePodDelete c obj time_Now
  | EvNotify KNamespace (OnAdd obj) _ => Some (handleNamespaceAdd c obj)
  | EvNotify KNamespace (OnUpdate oldObj newObj) _ =>
      Some (handleNamespaceUpdate c oldObj newObj)
  | EvNotify KNamespace (OnDelete obj) _ => Some (handleNamespaceDelete c obj)
  | EvNotify KNode (OnAdd obj) _ => Some (handleNodeAdd c obj)
  | EvNotify KNode (OnUpdate oldObj newObj) _ => Some (handleNodeUpdate c oldObj newObj)
  | EvNotify KNode (OnDelete obj) _ => Some (handleNodeDelete c obj)
  | EvNotify KDeployment (OnAdd obj) _ => Some (handleDeploymentAdd c obj)
  | EvNotify KDeployment (OnUpdate oldObj newObj) _ =>
      Some (handleDeploymentUpdate c oldObj newObj)
  | EvNotify KDeployment (OnDelete obj) _ => Some (handleDeploymentDelete c obj)
  | EvNotify KStatefulSet (OnAdd obj) _ => Some (handleStatefulSetAdd c obj)
  | EvNotify KStatefulSet (OnUpdate oldObj newObj) _ =>
      Some (handleStatefulSetUpdate c oldObj newObj)
  | EvNotify KStatefulSet (OnDelete obj) _ => Some (handleStatefulSetDelete c obj)
  | EvNotify KReplicaSet (OnAdd obj) _ => Some (handleReplicaSetAdd c obj)
  | EvNotify KReplicaSet (OnUpdate oldObj newObj) _ =>
      Some (handleReplicaSetUpdate c oldObj newObj)
  | EvNotify KReplicaSet (OnDelete obj) _ => Some (handleReplicaSetDelete c obj)
  | EvDeleteLoop now => Some (deleteLoop defaultPodDeleteGracePeriod c now)
  end.

(** A run: the events in order; [None] when an event cannot happen in the
    state it meets or its handler panics. *)
Fixpoint run (c : WatchClient) (evs : list Event) : option WatchClient :=
  match evs with
  | [] => Some c
  | ev :: rest =>
      if enabled c ev then c' ← handle c ev; run c' rest else None
  end.

(** ** Vocabulary of the properties *)

(** What one write of [newPod] leaves under an identifier that held
    [old]. *)
Definition putResult (startTime : option Z) (newPod : Pod) (old : option Pod)
    : option Pod :=
  match old with
  | Some p => if Time_Before startTime (Pod_StartTime p) then Some p else Some newPod
  | None => Some newPod
  end.


Definition startOf (pod : api_Pod) : option Z := Status_StartTime (Status pod).

(** A resource-attribute source that names the container ID. *)
Definition isContainerIDSource (s : AssociationSource) : Prop :=
  Source_From s = ResourceSource ∧ Source_Name s = ContainerIDKey.

(** The attribute written at the container-ID position for [cID]. *)
Definition containerIDAttribute (cID : string) : PodIdentifierAttribute :=
  PodIdentifierAttributeFromSource
    (mkAssociationSource ResourceSource ContainerIDKey) cID.

#[global] Instance isContainerIDSource_dec s : Decision (isContainerIDSource s).
Proof. unfold isContainerIDSource. apply _. Defined.

(** What a resource source of the given name resolves to; the container
    ID is filled in later and resolves to nothing here. *)
Definition resourceAttribute (pod : Pod) (name : string) : string :=
  if decide (name = K8SNamespaceNameKey) then Pod_Namespace pod
  else if decide (name = K8SPodNameKey) then Pod_Name pod
  else if decide (name = K8SPodUIDKey) then Pod_PodUID pod
  else if decide (name = HostNameKey) then Pod_Address pod
  else if decide (name = K8sIPLabelName) then Pod_Address pod
  else if decide (name = ContainerIDKey) then ""
  else default "" (Pod_Attributes pod !! name).

(** A source makes its association skip the pod: a connection source when
    the pod has no address or is host-network, a resource source other than
    the container ID when it resolves to nothing and no container-ID source
    came before it in the association. *)
Definition sourceSkips (pod : Pod) (containerIDSeen : bool)
    (source : AssociationSource) : bool :=
  match Source_From source with
  | ConnectionSource => bool_decide (Pod_Address pod = "") || Pod_HostNetwork pod
  | ResourceSource =>
      bool_decide (Source_Name source ≠ ContainerIDKey) &&
      bool_decide (resourceAttribute pod (Source_Name source) = "") &&
      negb containerIDSeen
  | UnknownSource => false
  end.

Fixpoint ruleSkipped (pod : Pod) (containerIDSeen : bool)
    (sources : list AssociationSource) : bool :=
  match sources with
  | [] => false
  | source :: rest =>
      sourceSkips pod containerIDSeen source ||
      ruleSkipped pod (containerIDSeen || bool_decide (isContainerIDSource source)) rest
  end.

(** An identifier is connection-based when one of its attributes comes
    from the connection. *)
Definition connectionBased (id : PodIdentifier) : Prop :=
  ∃ a, a ∈ id ∧ Source_From (Attr_Source a) = ConnectionSource.

(** The three fallback identifiers. *)
Definition podUIDIdentifier (uid : string) : PodIdentifier :=
  PodIdentifier_lit (PodIdentifierAttributeFromResourceAttribute K8SPodUIDKey uid).

Definition connectionIdentifier (address : string) : PodIdentifier :=
  PodIdentifier_lit (PodIdentifierAttributeFromConnection address).

Definition podIPIdentifier (address : string) : PodIdentifier :=
  PodIdentifier_lit (PodIdentifierAttributeFromResourceAttribute K8sIPLabelName address).

(** The grace period of a request is over at [now]. *)
Definition expired (now gracePeriod : Z) (d : deleteRequest) : Prop :=
  (Req_ts d + gracePeriod ≤ now)%Z.

(** A request that, once applied, removes the entry [p] stored under
    [identifier]. *)
Definition removes (identifier : PodIdentifier) (p : Pod) (d : deleteRequest) : Prop :=
  Req_id d = identifier ∧ Req_podName d = Pod_Name p.

#[global] Instance removes_dec identifier p d : Decision (removes identifier p d).
Proof. unfold removes. apply _. Defined.

(** The queue is in the order of its timestamps. *)
Definition queueOrdered (queue : list deleteRequest) : Prop :=
  ∀ i j d e, queue !! i = Some d → queue !! j = Some e → i ≤ j →
             (Req_ts d ≤ Req_ts e)%Z.

(** [forgetPod] queues a request for an identifier when the table holds
    under it a record that is visible to [GetPod] and has the name of the
    deleted pod. *)
Definition queuedFor (pods : gmap PodIdentifier Pod) (name : string)
    (identifier : PodIdentifier) : bool :=
  match pods !! identifier with
  | Some p => negb (Pod_Ignore p) && bool_decide (Pod_Name p = name)
  | None => false
  end.

(** The requests [forgetPod] appends for the identifiers [ids], the first
    with the [k]-th reading of the clock. *)
Definition newRequests (pods : gmap PodIdentifier Pod) (name : string)
    (time_Now : nat → Z) (k : nat) (ids : list PodIdentifier) : list deleteRequest :=
  imap (λ j identifier, mkDeleteRequest identifier name (time_Now (k + j)))
       (filter (queuedFor pods name) ids).

(** The readings of the clock along a run never go back: every reading a
    handler makes lies between [t], a bound on all earlier readings, and a
    bound for the events that follow. *)
Fixpoint clockOrdered (t : Z) (evs : list Event) : Prop :=
  match evs with
  | [] => True
  | EvNotify _ _ time_Now :: rest =>
      (∀ j k, j ≤ k → (time_Now j ≤ time_Now k)%Z) ∧
      ∃ t', (∀ j, (t ≤ time_Now j ≤ t')%Z) ∧ clockOrdered t' rest
  | _ :: rest => clockOrdered t rest
  end.

(** What stays fixed along a run without a deployment rule. *)
Definition noReplicaSetWatch (rules : ExtractionRules) (c : WatchClient) : Prop :=
  Rules c = rules ∧ replicasetInformer c = None ∧ ReplicaSets c = ∅.

End WatchClient.

(** * Example objects

    The pod of the specification's example, the values the properties are
    instantiated at, and one choice of the outside parts to run the client
    on. *)

Definition noRules : ExtractionRules :=
  mkExtractionRules false false false false false false false false false false
    false false false false false false false false false false false false
    false false false false false false [] [].

Definition noOwnerMeta (name namespace uid : string) : ObjectMeta :=
  mkObjectMeta name namespace uid None ∅ ∅ [].

(** Pod "web-1", UID "u1", address "10.0.0.5", containers "c1" and "c2". *)
Definition web1 : api_Pod :=
  mkApiPod (noOwnerMeta "web-1" "default" "u1")
    (mkPodSpec "node-a" false "" [mkApiContainer "c1" ""; mkApiContainer "c2" ""] [])
    (mkPodStatus "10.0.0.5" (Some 0%Z)
       [mkApiContainerStatus "c1" "c1" 0 ""; mkApiContainerStatus "c2" "c2" 0 ""] []).

(** The rule [resource attribute k8s.pod.uid]. *)
Definition podUIDRule : Association :=
  mkAssociation "" [mkAssociationSource ResourceSource K8SPodUIDKey].

Definition exampleClient : WatchClient := New noRules [podUIDRule] (mkExcludes []).

Definition exampleExternals : Externals :=
  {| PodIdentifierMaxLength := 4;
     ignoreAnnotation := "opentelemetry.io/k8s-processor/ignore";
     strings_TrimSpace := λ s, s;
     strings_ToLower := λ s, s;
     extractPodAttributes := λ _ _ _ _, ∅;
     extractPodContainersAttributes := λ _ pod,
       mkPodContainers
         (list_to_map
            ((λ st, (Status_ContainerID st,
                     mkContainer (Status_Container_Name st) "" "" "" "" ∅))
               <$> Status_ContainerStatuses (Status pod)))
         ∅;
     extractFromNamespaceMetadata := λ _ _ tags _, tags;
     extractFromNodeMetadata := λ _ _ tags _, tags;
     extractFromDeploymentMetadata := λ _ _ tags _, tags;
     extractFromStatefulSetMetadata := λ _ _ tags _, tags |}.

(** A pod "web-0" that is deleted and created again under the same name
    and address, the second time possibly with the ignore annotation. *)
Definition web0 : api_Pod :=
  mkApiPod (noOwnerMeta "web-0" "default" "u1")
    (mkPodSpec "node-a" false "" [] [])
    (mkPodStatus "10.0.0.5" (Some 0%Z) [] []).

Definition web0_again : api_Pod :=
  mkApiPod (noOwnerMeta "web-0" "default" "u2")
    (mkPodSpec "node-a" false "" [] [])
    (mkPodStatus "10.0.0.5" (Some (11 * time_Second)%Z) [] []).

Definition web0_ignored : api_Pod :=
  mkApiPod
    (mkObjectMeta "web-0" "default" "u2" None ∅
       {["opentelemetry.io/k8s-processor/ignore" := "true"]} [])
    (mkPodSpec "node-a" false "" [] [])
    (mkPodStatus "10.0.0.5" (Some (11 * time_Second)%Z) [] []).

(** A clock that reads [t] throughout a handler. *)
Definition clockAt (t : Z) : nat → Z := λ _, t.

Definition plainClient : WatchClient := New noRules [] (mkExcludes []).

(** "web-0" added, deleted at 10s, created again, deleted again at 12s. *)
Definition recreatedPodRun : list Event :=
  [EvStart;
   EvNotify KPod (OnAdd (PodObj web0)) (clockAt 0);
   EvNotify KPod (OnDelete (PodObj web0)) (clockAt (10 * time_Second));
   EvNotify KPod (OnAdd (PodObj web0_again)) (clockAt (11 * time_Second));
   EvNotify KPod (OnDelete (PodObj web0_again)) (clockAt (12 * time_Second))].

(** "web-0" added, deleted at 10s, created again with the ignore
    annotation. *)
Definition ignoredPodRun : list Event :=
  [EvStart;
   EvNotify KPod (OnAdd (PodObj web0)) (clockAt 0);
   EvNotify KPod (OnDelete (PodObj web0)) (clockAt (10 * time_Second));
   EvNotify KPod (OnAdd (PodObj web0_ignored)) (clockAt (11 * time_Second))].

(** A host-network pod with two containers, and the rule
    [connection, resource attribute container.id]. *)
Definition hostNetworkPod : Pod :=
  {| Pod_Name := "node-agent"; Pod_Namespace := "kube-system";
     Pod_NodeName := "node-a"; Pod_DeploymentUID := ""; Pod_StatefulSetUID := "";
     Pod_Address := "10.0.0.9"; Pod_HostNetwork := true; Pod_PodUID := "u9";
     Pod_StartTime := Some 0%Z; Pod_Ignore := false; Pod_Attributes := ∅;
     Pod_Containers :=
       mkPodContainers
         {["c1" := mkContainer "agent" "" "" "" "" ∅;
           "c2" := mkContainer "sidecar" "" "" "" "" ∅]} ∅ |}.

Definition podNetworkPod : Pod :=
  {| Pod_Name := "web-1"; Pod_Namespace := "default";
     Pod_NodeName := "node-a"; Pod_DeploymentUID := ""; Pod_StatefulSetUID := "";
     Pod_Address := "10.0.0.5"; Pod_HostNetwork := false; Pod_PodUID := "u1";
     Pod_StartTime := Some 0%Z; Pod_Ignore := false; Pod_Attributes := ∅;
     Pod_Containers :=
       mkPodContainers
         {["c1" := mkContainer "app" "" "" "" "" ∅;
           "c2" := mkContainer "sidecar" "" "" "" "" ∅]} ∅ |}.

Definition connectionContainerRule : Association :=
  mkAssociation ""
    [mkAssociationSource ConnectionSource "";
     mkAssociationSource ResourceSource ContainerIDKey].

(** A pod of another name that gets the address of "web-0". *)
Definition api0 : api_Pod :=
  mkApiPod (noOwnerMeta "api-0" "default" "u3")
    (mkPodSpec "node-a" false "" [] [])
    (mkPodStatus "10.0.0.5" (Some (11 * time_Second)%Z) [] []).

(** A pod owned by a replica set. *)
Definition ownedPod : api_Pod :=
  mkApiPod
    (mkObjectMeta "web-7c9f-x2x" "default" "u7" None ∅ ∅
       [mkOwnerReference "ReplicaSet" "web-7c9f" "rs-1" (Some true)])
    (mkPodSpec "node-a" false "" [] [])
    (mkPodStatus "10.0.0.7" (Some 0%Z) [] []).

(** "web-0" added and deleted at 10s. *)
Definition deletedPodRun : list Event :=
  [EvStart;
   EvNotify KPod (OnAdd (PodObj web0)) (clockAt 0);
   EvNotify KPod (OnDelete (PodObj web0)) (clockAt (10 * time_Second))].

(** The same, and then the address goes to "api-0". *)
Definition reassignedRun : list Event :=
  deletedPodRun ++ [EvNotify KPod (OnAdd (PodObj api0)) (clockAt (11 * time_Second))].

(** A pod owned by a replica set is added, and the delete loop fires. *)
Definition ownedPodRun : list Event :=
  [EvStart;
   EvNotify KPod (OnAdd (PodObj ownedPod)) (clockAt 0);
   EvDeleteLoop (30 * time_Second)].

(** The state a run from the plain client ends in, with
    [exampleExternals] for the outside parts. *)
Definition stateAfter (evs : list Event) : WatchClient :=
  default plainClient (@run exampleExternals plainClient evs).

Definition addedPodState : WatchClient :=
  stateAfter [EvStart; EvNotify KPod (OnAdd (PodObj web0)) (clockAt 0)].

Definition deletedPodState : WatchClient := stateAfter deletedPodRun.

Definition reassignedState : WatchClient := stateAfter reassignedRun.

Definition recreatedPodState : WatchClient := stateAfter recreatedPodRun.

Definition ignoredPodState : WatchClient := stateAfter ignoredPodRun.

(** * More of the client

    The parts of the client the properties of the second half are about. *)

(** ** Queries of the other stores *)

Definition GetNamespace (c : WatchClient) (namespace : string) : option Namespace :=
  Namespaces c !! namespace.

Definition GetNode (c : WatchClient) (nodeName : string) : option Node :=
  Nodes c !! nodeName.

Definition GetDeployment (c : WatchClient) (deploymentUID : string) : option Deployment :=
  Deployments c !! deploymentUID.

Definition GetStatefulSet (c : WatchClient) (statefulSetUID : string)
    : option StatefulSet :=
  StatefulSets c !! statefulSetUID.

(** Every record of the five stores is filed under its own name or UID. *)
Definition storesKeyed (c : WatchClient) : Prop :=
  (∀ k ns, Namespaces c !! k = Some ns → Namespace_Name ns = k) ∧
  (∀ k n, Nodes c !! k = Some n → Node_Name n = k) ∧
  (∀ k d, Deployments c !! k = Some d → Deployment_UID d = k) ∧
  (∀ k s, StatefulSets c !! k = Some s → StatefulSet_UID s = k) ∧
  (∀ k r, ReplicaSets c !! k = Some r → ReplicaSet_UID r = k).

(** The object a handler looks at: the add and update handlers take the
    (new) object as it comes, the delete handlers unwrap a
    [DeletedFinalStateUnknown] first. *)
Definition payload (n : Notification) : Object :=
  match n with
  | OnAdd obj => obj
  | OnUpdate _ newObj => newObj
  | OnDelete obj => ignoreDeletedFinalStateUnknown obj
  end.

(** The type assertion the handlers of kind [k] make. *)
Definition hasKind (k : Kind) (obj : Object) : bool :=
  match k, obj with
  | KPod, PodObj _ | KNamespace, NamespaceObj _ | KNode, NodeObj _
  | KDeployment, DeploymentObj _ | KStatefulSet, StatefulSetObj _
  | KReplicaSet, ReplicaSetObj _ => true
  | _, _ => false
  end.

#[global] Instance Kind_eq_dec : EqDecision Kind.
Proof. solve_decision. Defined.

(** The counter a notification of kind [k] increments. *)
Definition counterOf (k : Kind) (n : Notification) : string :=
  match k, n with
  | KPod, OnAdd _ => "OtelsvcK8sPodAdded"
  | KPod, OnUpdate _ _ => "OtelsvcK8sPodUpdated"
  | KPod, OnDelete _ => "OtelsvcK8sPodDeleted"
  | KNamespace, OnAdd _ => "OtelsvcK8sNamespaceAdded"
  | KNamespace, OnUpdate _ _ => "OtelsvcK8sNamespaceUpdated"
  | KNamespace, OnDelete _ => "OtelsvcK8sNamespaceDeleted"
  | KNode, OnAdd _ => "OtelsvcK8sNodeAdded"
  | KNode, OnUpdate _ _ => "OtelsvcK8sNodeUpdated"
  | KNode, OnDelete _ => "OtelsvcK8sNodeDeleted"
  | KDeployment, OnAdd _ => "OtelsvcK8sDeploymentAdded"
  | KDeployment, OnUpdate _ _ => "OtelsvcK8sDeploymentUpdated"
  | KDeployment, OnDelete _ => "OtelsvcK8sDeploymentDeleted"
  | KStatefulSet, OnAdd _ => "OtelsvcK8sStatefulsetAdded"
  | KStatefulSet, OnUpdate _ _ => "OtelsvcK8sStatefulsetUpdated"
  | KStatefulSet, OnDelete _ => "OtelsvcK8sStatefulsetDeleted"
  | KReplicaSet, OnAdd _ => "OtelsvcK8sReplicasetAdded"
  | KReplicaSet, OnUpdate _ _ => "OtelsvcK8sReplicasetUpdated"
  | KReplicaSet, OnDelete _ => "OtelsvcK8sReplicasetDeleted"
  end.

(** Two clients that differ in their telemetry instruments at most. *)
Definition sameCache (c c' : WatchClient) : Prop :=
  c' = with_telemetry c (telemetryBuilder c').

(** The configuration and the five stores of two clients agree. *)
Definition sameStores (c c' : WatchClient) : Prop :=
  Rules c' = Rules c ∧ Associations c' = Associations c ∧ Exclude c' = Exclude c ∧
  Namespaces c' = Namespaces c ∧ Nodes c' = Nodes c ∧
  Deployments c' = Deployments c ∧ StatefulSets c' = StatefulSets c ∧
  ReplicaSets c' = ReplicaSets c.

(** An owner reference that [addOrUpdateReplicaSet] takes for the owning
    deployment. *)
Definition isControllerDeployment (ref : OwnerReference) : Prop :=
  Ref_Kind ref = "Deployment" ∧ Ref_Controller ref = Some true.

Section MoreVocabulary.
Context `{Externals}.

(** The attribute a source contributes to the identifier of its
    association: the pod's address for a connection source, the resolved
    value for a resource source (nothing yet for the container ID), and the
    zero value the array starts with for a source of neither kind. *)
Definition sourceAttribute (pod : Pod) (source : AssociationSource)
    : PodIdentifierAttribute :=
  match Source_From source with
  | ConnectionSource => PodIdentifierAttributeFromSource source (Pod_Address pod)
  | ResourceSource =>
      PodIdentifierAttributeFromSource source
        (resourceAttribute pod (Source_Name source))
  | UnknownSource => zeroAttribute
  end.

(** A source assigns to its position of the array: it is a connection or
    resource source and does not make the association skip the pod. *)
Definition sourceWrites (pod : Pod) (containerIDSeen : bool)
    (source : AssociationSource) : bool :=
  match Source_From source with
  | UnknownSource => false
  | _ => negb (sourceSkips pod containerIDSeen source)
  end.

(** A container-ID source occurs among the first [i] sources. *)
Definition containerIDSeenBefore (sources : list AssociationSource) (i : nat) : bool :=
  bool_decide (Exists isContainerIDSource (take i sources)).

End MoreVocabulary.


(** The kinds of object a client with the given rules watches. *)
Definition watches (rules : ExtractionRules) (k : Kind) : bool :=
  match k with
  | KPod | KNamespace => true
  | KNode => extractNodeLabelsAnnotations rules || extractNodeUID rules
  | KDeployment => extractDeploymentLabelsAnnotations rules
  | KStatefulSet => extractStatefulSetLabelsAnnotations rules
  | KReplicaSet => DeploymentName rules || DeploymentUID rules
  end.

(** ** What the informers deliver: the transforms set in [New] *)

(** [IncludesOwnerMetadata] is a method of [ExtractionRules] in kube.go,
    which is not among the available sources; the properties below hold
    whatever it answers. *)
Class OwnerMetadataRule := {
  IncludesOwnerMetadata : ExtractionRules → bool
}.

Definition removeUnnecessaryReplicaSetData (replicaset : ObjectMeta) : ObjectMeta :=
  {| Meta_Name := Meta_Name replicaset;
     Meta_Namespace := Meta_Namespace replicaset;
     Meta_UID := Meta_UID replicaset;
     Meta_CreationTimestamp := None;
     Meta_Labels := ∅;
     Meta_Annotations := ∅;
     Meta_OwnerReferences := Meta_OwnerReferences replicaset |}.

Section Transforms.
Context `{OwnerMetadataRule}.

(** The closures of [removeUnnecessaryPodData]. *)
Definition removeUnnecessaryContainerStatus (rules : ExtractionRules)
    (c : api_ContainerStatus) : api_ContainerStatus :=
  {| Status_Container_Name := Status_Container_Name c;
     Status_ContainerID := Status_ContainerID c;
     Status_RestartCount := Status_RestartCount c;
     Status_ImageID :=
       if ContainerImageRepoDigests rules then Status_ImageID c else "" |}.

Definition removeUnnecessaryContainerData (rules : ExtractionRules)
    (c : api_Container) : api_Container :=
  {| Spec_Container_Name := Spec_Container_Name c;
     Spec_Container_Image :=
       if ContainerImageName rules || ContainerImageTag rules || ServiceVersion rules
       then Spec_Container_Image c else "" |}.

Definition removeUnnecessaryPodData (pod : api_Pod) (rules : ExtractionRules) : api_Pod :=
  {| Meta :=
       {| Meta_Name := Meta_Name (Meta pod);
          Meta_Namespace := Meta_Namespace (Meta pod);
          Meta_UID := Meta_UID (Meta pod);
          Meta_CreationTimestamp :=
            if StartTime rules then Meta_CreationTimestamp (Meta pod) else None;
          Meta_Labels :=
            if bool_decide (0 < length (Labels rules))
               || ServiceName rules || ServiceVersion rules
            then Meta_Labels (Meta pod) else ∅;
          Meta_Annotations :=
            if bool_decide (0 < length (Annotations rules))
            then Meta_Annotations (Meta pod) else ∅;
          Meta_OwnerReferences :=
            if IncludesOwnerMetadata rules
            then Meta_OwnerReferences (Meta pod) else [] |};
     Spec :=
       {| Spec_NodeName := if Rules_Node rules then Spec_NodeName (Spec pod) else "";
          Spec_HostNetwork := Spec_HostNetwork (Spec pod);
          Spec_Hostname := if PodHostName rules then Spec_Hostname (Spec pod) else "";
          Spec_Containers :=
            if needContainerAttributes rules
            then removeUnnecessaryContainerData rules <$> Spec_Containers (Spec pod)
            else [];
          Spec_InitContainers :=
            if needContainerAttributes rules
            then removeUnnecessaryContainerData rules <$> Spec_InitContainers (Spec pod)
            else [] |};
     Status :=
       {| Status_PodIP := Status_PodIP (Status pod);
          Status_StartTime := Status_StartTime (Status pod);
          Status_ContainerStatuses :=
            if needContainerAttributes rules
            then removeUnnecessaryContainerStatus rules
                   <$> Status_ContainerStatuses (Status pod)
            else [];
          Status_InitContainerStatuses :=
            if needContainerAttributes rules
            then removeUnnecessaryContainerStatus rules
                   <$> Status_InitContainerStatuses (Status pod)
            else [] |} |}.

(** The transform of the pod informer: an object that is not a pod (a
    [DeletedFinalStateUnknown] marker) passes as it is. *)
Definition podTransform (c : WatchClient) (object : Object) : Object :=
  match object with
  | PodObj originalPod => PodObj (removeUnnecessaryPodData originalPod (Rules c))
  | _ => object
  end.

End Transforms.

(** The transform of the replica set informer. *)
Definition replicasetTransform (object : Object) : Object :=
  match object with
  | ReplicaSetObj originalReplicaset =>
      ReplicaSetObj (removeUnnecessaryReplicaSetData originalReplicaset)
  | _ => object
  end.

(** ** Pod attributes: [extractPodAttributes] *)

(** More keys of go.opentelemetry.io/otel/semconv/v1.6.1. *)
Definition ServiceNameKey : string := "service.name".
Definition ServiceVersionKey : string := "service.version".
Definition K8SReplicaSetUIDKey : string := "k8s.replicaset.uid".
Definition K8SReplicaSetNameKey : string := "k8s.replicaset.name".
Definition K8SDeploymentNameKey : string := "k8s.deployment.name".
Definition K8SDeploymentUIDKey : string := "k8s.deployment.uid".
Definition K8SDaemonSetUIDKey : string := "k8s.daemonset.uid".
Definition K8SDaemonSetNameKey : string := "k8s.daemonset.name".
Definition K8SStatefulSetUIDKey : string := "k8s.statefulset.uid".
Definition K8SStatefulSetNameKey : string := "k8s.statefulset.name".
Definition K8SJobUIDKey : string := "k8s.job.uid".
Definition K8SJobNameKey : string := "k8s.job.name".
Definition K8SCronJobNameKey : string := "k8s.cronjob.name".

Definition K8sPodLabels : string := "k8s.pod.labels.%s".
Definition K8sPodAnnotations : string := "k8s.pod.annotations.%s".

(** What [extractPodAttributes] takes from outside: four tag names and the
    method [extractFromPodMetadata] of kube.go, and the RFC 3339 text of a
    time ([MarshalText] of [metav1.Time], which can fail). *)
Class PodAttributeExternals := {
  tagHostName : string;
  tagStartTime : string;
  tagNodeName : string;
  tagClusterUID : string;
  extractFromPodMetadata :
    FieldExtractionRule → gmap string string → gmap string string → string →
    gmap string string;
  Time_MarshalText : Z → option string
}.

(** *** The regular expression of cron job names

    [cronJobRegex] has, between the anchors of the start and the end of the
    text, a greedy group of any characters, a hyphen and one or more decimal
    digits: the text ends in a hyphen followed by digits, and the group is
    what stands before that hyphen; as the dot matches no newline, the group
    holds none.  The digits hold no hyphen, so the hyphen is the last one of
    the text. *)

Definition isDigit (a : Ascii.ascii) : bool :=
  (48 <=? Ascii.nat_of_ascii a) && (Ascii.nat_of_ascii a <=? 57).

Definition isHyphen (a : Ascii.ascii) : bool := Ascii.nat_of_ascii a =? 45.

Definition isNewline (a : Ascii.ascii) : bool := Ascii.nat_of_ascii a =? 10.

Fixpoint allChars (p : Ascii.ascii → bool) (s : string) : bool :=
  match s with
  | EmptyString => true
  | String a s' => p a && allChars p s'
  end.

(** The text before and after the last hyphen. *)
Fixpoint splitLastHyphen (s : string) : option (string * string) :=
  match s with
  | EmptyString => None
  | String a s' =>
      match splitLastHyphen s' with
      | Some (before, after) => Some (String a before, after)
      | None => if isHyphen a then Some (EmptyString, s') else None
      end
  end.

(** [cronJobRegex.FindStringSubmatch]: the whole match and the group, or
    nothing. *)
Definition cronJobRegex_FindStringSubmatch (s : string) : list string :=
  match splitLastHyphen s with
  | Some (before, after) =>
      if negb (bool_decide (after = "")) && allChars isDigit after
         && allChars (λ a, negb (isNewline a)) before
      then [s; before] else []
  | None => []
  end.

Module PodAttributes.
Section PodAttributes.
Context `{PodAttributeExternals}.

Definition copyLabel (pod : api_Pod) (tags : gmap string string)
    (labelKey key : string) : gmap string string :=
  match Meta_Labels (Meta pod) !! labelKey with
  | Some val => <[key := val]> tags
  | None => tags
  end.

(** [if b { tags[key] = val }]. *)
Definition setIf (b : bool) (key val : string) (tags : gmap string string)
    : gmap string string :=
  if b then <[key := val]> tags else tags.

(** The body of the loop over the owner references. *)
Definition ownerTags (rules : ExtractionRules) (replicasets : gmap string ReplicaSet)
    (tags : gmap string string) (ref : OwnerReference) : gmap string string :=
  if decide (Ref_Kind ref = "ReplicaSet") then
    let tags := setIf (ReplicaSetID rules) K8SReplicaSetUIDKey (Ref_UID ref) tags in
    let tags := setIf (ReplicaSetName rules) K8SReplicaSetNameKey (Ref_Name ref) tags in
    let tags := setIf (ServiceName rules) ServiceNameKey (Ref_Name ref) tags in
    let tags :=
      if DeploymentName rules || ServiceName rules then
        match replicasets !! Ref_UID ref with
        | Some replicaset =>
            let name := Deployment_Name (ReplicaSet_Deployment replicaset) in
            if decide (name ≠ "") then
              setIf (ServiceName rules) ServiceNameKey name
                (setIf (DeploymentName rules) K8SDeploymentNameKey name tags)
            else tags
        | None => tags
        end
      else tags in
    if DeploymentUID rules then
      match replicasets !! Ref_UID ref with
      | Some replicaset =>
          if decide (Deployment_Name (ReplicaSet_Deployment replicaset) ≠ "")
          then <[K8SDeploymentUIDKey :=
                   Deployment_UID (ReplicaSet_Deployment replicaset)]> tags
          else tags
      | None => tags
      end
    else tags
  else if decide (Ref_Kind ref = "DaemonSet") then
    setIf (ServiceName rules) ServiceNameKey (Ref_Name ref)
      (setIf (DaemonSetName rules) K8SDaemonSetNameKey (Ref_Name ref)
         (setIf (DaemonSetUID rules) K8SDaemonSetUIDKey (Ref_UID ref) tags))
  else if decide (Ref_Kind ref = "StatefulSet") then
    setIf (ServiceName rules) ServiceNameKey (Ref_Name ref)
      (setIf (StatefulSetName rules) K8SStatefulSetNameKey (Ref_Name ref)
         (setIf (StatefulSetUID rules) K8SStatefulSetUIDKey (Ref_UID ref) tags))
  else if decide (Ref_Kind ref = "Job") then
    let tags :=
      setIf (ServiceName rules) ServiceNameKey (Ref_Name ref)
        (setIf (JobName rules) K8SJobNameKey (Ref_Name ref)
           (setIf (JobUID rules) K8SJobUIDKey (Ref_UID ref) tags)) in
    if CronJobName rules || ServiceName rules then
      match cronJobRegex_FindStringSubmatch (Ref_Name ref) with
      | [_; name] =>
          setIf (ServiceName rules) ServiceNameKey name
            (setIf (CronJobName rules) K8SCronJobNameKey name tags)
      | _ => tags
      end
    else tags
  else tags.

Definition extractPodAttributes (rules : ExtractionRules)
    (namespaces : gmap string Namespace) (replicasets : gmap string ReplicaSet)
    (pod : api_Pod) : gmap string string :=
  let tags : gmap string string := ∅ in
  let tags := setIf (PodName rules) K8SPodNameKey (Meta_Name (Meta pod)) tags in
  let tags := setIf (ServiceName rules) ServiceNameKey (Meta_Name (Meta pod)) tags in
  let tags := setIf (PodHostName rules) tagHostName (Spec_Hostname (Spec pod)) tags in
  let tags := setIf (PodIP rules) K8sIPLabelName (Status_PodIP (Status pod)) tags in
  let tags :=
    setIf (Rules_Namespace rules) K8SNamespaceNameKey (Meta_Namespace (Meta pod)) tags in
  let tags :=
    if StartTime rules then
      match Meta_CreationTimestamp (Meta pod) with
      | Some ts =>
          match Time_MarshalText ts with
          | Some rfc3339ts => <[tagStartTime := rfc3339ts]> tags
          | None => tags
          end
      | None => tags
      end
    else tags in
  let tags := setIf (PodUID rules) K8SPodUIDKey (Meta_UID (Meta pod)) tags in
  let tags :=
    if ReplicaSetID rules || ReplicaSetName rules ||
       DaemonSetUID rules || DaemonSetName rules ||
       JobUID rules || JobName rules ||
       StatefulSetUID rules || StatefulSetName rules ||
       DeploymentName rules || DeploymentUID rules ||
       CronJobName rules || ServiceName rules
    then foldl (ownerTags rules replicasets) tags (Meta_OwnerReferences (Meta pod))
    else tags in
  let tags := setIf (Rules_Node rules) tagNodeName (Spec_NodeName (Spec pod)) tags in
  let tags :=
    if ClusterUID rules then
      match namespaces !! "kube-system" with
      | Some val => <[tagClusterUID := Namespace_NamespaceUID val]> tags
      | None => tags
      end
    else tags in
  let tags :=
    foldl (λ tags r, extractFromPodMetadata r (Meta_Labels (Meta pod)) tags K8sPodLabels)
          tags (Labels rules) in
  let tags :=
    if ServiceName rules then
      copyLabel pod (copyLabel pod tags "app.kubernetes.io/name" ServiceNameKey)
        "app.kubernetes.io/instance" ServiceNameKey
    else tags in
  let tags :=
    if ServiceVersion rules
    then copyLabel pod tags "app.kubernetes.io/version" ServiceVersionKey
    else tags in
  foldl (λ tags r,
           extractFromPodMetadata r (Meta_Annotations (Meta pod)) tags K8sPodAnnotations)
        tags (Annotations rules).

End PodAttributes.
End PodAttributes.

Section ServiceNameVocabulary.
Context `{PodAttributeExternals}.

(** None of the label rules and annotation rules of [rules] writes the tag
    [key] when applied to the labels and annotations of [pod]: the calls
    [extractPodAttributes] makes for these rules leave the tag as it is. *)
Definition rulesKeep (rules : ExtractionRules) (pod : api_Pod) (key : string) : Prop :=
  (∀ r tags, r ∈ Labels rules →
     extractFromPodMetadata r (Meta_Labels (Meta pod)) tags K8sPodLabels !! key
       = tags !! key) ∧
  (∀ r tags, r ∈ Annotations rules →
     extractFromPodMetadata r (Meta_Annotations (Meta pod)) tags K8sPodAnnotations !! key
       = tags !! key).

(** The service name an owner reference stands for: the deployment of a
    known replica set before the replica set, the cron job of a job before
    the job; [cur] for an owner of another kind. *)
Definition ownerServiceName (replicasets : gmap string ReplicaSet) (cur : string)
    (ref : OwnerReference) : string :=
  if decide (Ref_Kind ref = "ReplicaSet") then
    match replicasets !! Ref_UID ref with
    | Some replicaset =>
        if decide (Deployment_Name (ReplicaSet_Deployment replicaset) ≠ "")
        then Deployment_Name (ReplicaSet_Deployment replicaset) else Ref_Name ref
    | None => Ref_Name ref
    end
  else if decide (Ref_Kind ref = "DaemonSet") then Ref_Name ref
  else if decide (Ref_Kind ref = "StatefulSet") then Ref_Name ref
  else if decide (Ref_Kind ref = "Job") then
    match cronJobRegex_FindStringSubmatch (Ref_Name ref) with
    | [_; name] => name
    | _ => Ref_Name ref
    end
  else cur.

End ServiceNameVocabulary.

(** The rules that make [extractPodAttributes] read the owner references. *)
Definition readsOwnerReferences (rules : ExtractionRules) : bool :=
  ReplicaSetID rules || ReplicaSetName rules ||
  DaemonSetUID rules || DaemonSetName rules ||
  JobUID rules || JobName rules ||
  StatefulSetUID rules || StatefulSetName rules ||
  DeploymentName rules || DeploymentUID rules ||
  CronJobName rules || ServiceName rules.

(** ** Vocabulary of the properties of [extractPodAttributes] *)

Section TagVocabulary.
Context `{PodAttributeExternals}.

(** The tags written before and after the loop over the owner references,
    and by the label and annotation rules of [rules] on [pod], are other
    tags than [key]. *)
Definition ownerKey (rules : ExtractionRules) (pod : api_Pod) (key : string) : Prop :=
  rulesKeep rules pod key ∧ tagHostName ≠ key ∧ tagStartTime ≠ key ∧
  tagNodeName ≠ key ∧ tagClusterUID ≠ key.

(** The tags [extractPodAttributes] writes outside the label and annotation
    rules, the cluster UID apart. *)
Definition otherTags : list string :=
  [K8SPodNameKey; ServiceNameKey; tagHostName; K8sIPLabelName; K8SNamespaceNameKey;
   tagStartTime; K8SPodUIDKey; K8SReplicaSetUIDKey; K8SReplicaSetNameKey;
   K8SDeploymentNameKey; K8SDeploymentUIDKey; K8SDaemonSetUIDKey;
   K8SDaemonSetNameKey; K8SStatefulSetUIDKey; K8SStatefulSetNameKey; K8SJobUIDKey;
   K8SJobNameKey; K8SCronJobNameKey; tagNodeName; ServiceVersionKey].

End TagVocabulary.

(** ** Containers: [extractPodContainersAttributes] *)

(** What [dcommon.ParseImageName] returns, as far as the client reads it. *)
Record ImageRef := mkImageRef {
  ImageRef_Repository : string;
  ImageRef_Tag : string
}.

(** A parsed image reference of github.com/distribution/reference: whether
    it is [Named], and its tag and digest when it is [Tagged] and
    [Digested]. *)
Record Reference := mkReference {
  Reference_Named : bool;
  Reference_Tag : option string;
  Reference_Digest : option string
}.

(** The image parsers of other packages; [None] stands for an error. *)
Class ImageExternals := {
  dcommon_ParseImageName : string → option ImageRef;
  dcommon_CanonicalImageRef : string → option string;
  reference_Parse : string → option Reference
}.

(** The result of [parseServiceVersionFromImage]: a version, the error of
    the parser, or [errCannotRetrieveImage]. *)
Inductive ServiceVersionResult :=
| Version (serviceVersion : string)
| ParseError
| errCannotRetrieveImage.

(** *** [strings.Split] for a separator that is not empty

    The pieces of [s] between the occurrences of [sep], which are found from
    the left and do not overlap ([strings_HasPrefix] is [strings.HasPrefix]).
    [skip] counts the characters of the
    occurrence just found that are still to pass over, [cur] is the piece
    read so far. *)
Fixpoint strings_HasPrefix (s prefix : string) {struct prefix} : bool :=
  match prefix with
  | EmptyString => true
  | String a prefix' =>
      match s with
      | EmptyString => false
      | String b s' => Ascii.eqb a b && strings_HasPrefix s' prefix'
      end
  end.

Fixpoint splitFrom (sep : string) (skip : nat) (cur s : string) : list string :=
  match s with
  | EmptyString => [cur]
  | String a s' =>
      match skip with
      | S k => splitFrom sep k cur s'
      | O =>
          if strings_HasPrefix s sep
          then cur :: splitFrom sep (String.length sep - 1) EmptyString s'
          else splitFrom sep 0 (cur +:+ String a EmptyString) s'
      end
  end.

Definition strings_Split (s sep : string) : list string := splitFrom sep 0 "" s.

(** [strings.Contains s sep]. *)
Fixpoint strings_Contains (s sep : string) : bool :=
  strings_HasPrefix s sep ||
  match s with
  | EmptyString => false
  | String _ s' => strings_Contains s' sep
  end.

Definition isColon (a : Ascii.ascii) : bool := Ascii.nat_of_ascii a =? 58.

(** "Remove container runtime prefix". *)
Definition withoutRuntimePrefix (containerID : string) : string :=
  match strings_Split containerID "://" with
  | [_; id] => id
  | _ => containerID
  end.

Definition automaticServiceInstanceID (pod : api_Pod) (containerName : string)
    : string :=
  Meta_Namespace (Meta pod) +:+ "." +:+ Meta_Name (Meta pod) +:+ "." +:+ containerName.

(** The containers under construction.  The two maps of [PodContainers]
    hold pointers, and a container reached through one map is updated in
    place: the records live in [cells], a pointer is an index into it. *)
Record containerTable := mkContainerTable {
  cells : list Container;
  tableByID : gmap string nat;
  tableByName : gmap string nat
}.

(** [&Container{}]. *)
Definition newContainer : Container := mkContainer "" "" "" "" "" ∅.

Module Containers.
Section Containers.
Context `{ImageExternals}.

Definition parseServiceVersionFromImage (image : string) : ServiceVersionResult :=
  match reference_Parse image with
  | None => ParseError
  | Some ref =>
      if Reference_Named ref then
        let tag := default "" (Reference_Tag ref) in
        let digest := default "" (Reference_Digest ref) in
        if decide (digest ≠ "") then
          if decide (tag ≠ "") then Version (tag +:+ "@" +:+ digest)
          else Version digest
        else if decide (tag ≠ "") then Version tag
        else errCannotRetrieveImage
      else errCannotRetrieveImage
  end.

(** The container the first loop builds for a container of the pod
    specification. *)
Definition containerOfSpec (rules : ExtractionRules) (spec : api_Container)
    : Container :=
  match dcommon_ParseImageName (Spec_Container_Image spec) with
  | Some imageRef =>
      {| Container_Name := "";
         Container_ImageName :=
           if ContainerImageName rules then ImageRef_Repository imageRef else "";
         Container_ImageTag :=
           if ContainerImageTag rules then ImageRef_Tag imageRef else "";
         Container_ServiceInstanceID := "";
         Container_ServiceVersion :=
           if ServiceVersion rules then
             match parseServiceVersionFromImage (Spec_Container_Image spec) with
             | Version serviceVersion => serviceVersion
             | _ => ""
             end
           else "";
         Container_Statuses := ∅ |}
  | None => newContainer
  end.

(** The body of the first loop: a new container under the name. *)
Definition addSpec (rules : ExtractionRules) (t : containerTable)
    (spec : api_Container) : containerTable :=
  {| cells := cells t ++ [containerOfSpec rules spec];
     tableByID := tableByID t;
     tableByName := <[Spec_Container_Name spec := length (cells t)]> (tableByName t) |}.

(** The status the second loop records under the restart count. *)
Definition containerStatusOf (rules : ExtractionRules)
    (apiStatus : api_ContainerStatus) : ContainerStatus :=
  {| CS_ContainerID :=
       if ContainerID rules
       then withoutRuntimePrefix (Status_ContainerID apiStatus) else "";
     CS_ImageRepoDigest :=
       if ContainerImageRepoDigests rules then
         default "" (dcommon_CanonicalImageRef (Status_ImageID apiStatus))
       else "" |}.

(** What the second loop writes into the container of a status. *)
Definition updateContainer (rules : ExtractionRules) (pod : api_Pod)
    (apiStatus : api_ContainerStatus) (container : Container) : Container :=
  let containerName := Status_Container_Name apiStatus in
  {| Container_Name :=
       if ContainerName rules then containerName else Container_Name container;
     Container_ImageName := Container_ImageName container;
     Container_ImageTag := Container_ImageTag container;
     Container_ServiceInstanceID :=
       if ServiceInstanceID rules then automaticServiceInstanceID pod containerName
       else Container_ServiceInstanceID container;
     Container_ServiceVersion := Container_ServiceVersion container;
     Container_Statuses :=
       if ContainerID rules || ContainerImageRepoDigests rules then
         <[Status_RestartCount apiStatus := containerStatusOf rules apiStatus]>
           (Container_Statuses container)
       else Container_Statuses container |}.

(** The body of the second loop. *)
Definition addStatus (rules : ExtractionRules) (pod : api_Pod) (t : containerTable)
    (apiStatus : api_ContainerStatus) : containerTable :=
  let containerName := Status_Container_Name apiStatus in
  let '(container, t) :=
    match tableByName t !! containerName with
    | Some container => (container, t)
    | None =>
        (length (cells t),
         {| cells := cells t ++ [newContainer];
            tableByID := tableByID t;
            tableByName := <[containerName := length (cells t)]> (tableByName t) |})
    end in
  {| cells := alter (updateContainer rules pod apiStatus) container (cells t);
     tableByID :=
       <[withoutRuntimePrefix (Status_ContainerID apiStatus) := container]>
         (tableByID t);
     tableByName := tableByName t |}.

(** The container a pointer of the table points to. *)
Definition deref (t : containerTable) (container : nat) : Container :=
  default newContainer (cells t !! container).

Definition containerTableOf (rules : ExtractionRules) (pod : api_Pod)
    : containerTable :=
  let t := mkContainerTable [] ∅ ∅ in
  let t :=
    if ContainerImageName rules || ContainerImageTag rules ||
       ServiceVersion rules || ServiceInstanceID rules
    then foldl (addSpec rules) t
           (Spec_Containers (Spec pod) ++ Spec_InitContainers (Spec pod))
    else t in
  foldl (addStatus rules pod) t
    (Status_ContainerStatuses (Status pod)
     ++ Status_InitContainerStatuses (Status pod)).

Definition extractPodContainersAttributes (rules : ExtractionRules) (pod : api_Pod)
    : PodContainers :=
  if negb (needContainerAttributes rules) then mkPodContainers ∅ ∅
  else
    let t := containerTableOf rules pod in
    mkPodContainers (deref t <$> tableByID t) (deref t <$> tableByName t).



End Containers.
End Containers.

(** ** Vocabulary of the properties of [extractPodContainersAttributes] *)

Section ContainerVocabulary.
Context `{ImageExternals}.
Import Containers.





End ContainerVocabulary.

(** ** The client on its own extraction functions

    The [Externals] whose [extractPodAttributes] and
    [extractPodContainersAttributes] are the functions embedded above; the
    other outside parts stay what they are. *)
Class OtherExternals := {
  kube_PodIdentifierMaxLength : nat;
  kube_ignoreAnnotation : string;
  go_strings_TrimSpace : string → string;
  go_strings_ToLower : string → string;
  kube_extractFromNamespaceMetadata :
    FieldExtractionRule → gmap string string → gmap string string → string →
    gmap string string;
  kube_extractFromNodeMetadata :
    FieldExtractionRule → gmap string string → gmap string string → string →
    gmap string string;
  kube_extractFromDeploymentMetadata :
    FieldExtractionRule → gmap string string → gmap string string → string →
    gmap string string;
  kube_extractFromStatefulSetMetadata :
    FieldExtractionRule → gmap string string → gmap string string → string →
    gmap string string
}.

Definition withExtraction `{OtherExternals} `{PodAttributeExternals} `{ImageExternals}
    : Externals :=
  {| PodIdentifierMaxLength := kube_PodIdentifierMaxLength;
     ignoreAnnotation := kube_ignoreAnnotation;
     strings_TrimSpace := go_strings_TrimSpace;
     strings_ToLower := go_strings_ToLower;
     extractPodAttributes := PodAttributes.extractPodAttributes;
     extractPodContainersAttributes := Containers.extractPodContainersAttributes;
     extractFromNamespaceMetadata := kube_extractFromNamespaceMetadata;
     extractFromNodeMetadata := kube_extractFromNodeMetadata;
     extractFromDeploymentMetadata := kube_extractFromDeploymentMetadata;
     extractFromStatefulSetMetadata := kube_extractFromStatefulSetMetadata |}.

(** ** Selectors: [selectorsFromFilters] *)

(** [selection.Operator] of k8s.io/apimachinery is a string type; these are
    its constants. *)
Definition selection_DoesNotExist : string := "!".
Definition selection_Equals : string := "=".
Definition selection_DoubleEquals : string := "==".
Definition selection_In : string := "in".
Definition selection_NotEquals : string := "!=".
Definition selection_NotIn : string := "notin".
Definition selection_Exists : string := "exists".
Definition selection_GreaterThan : string := "gt".
Definition selection_LessThan : string := "lt".

(** The filters of kube.go, with the fields the client reads. *)
Record FieldFilter := mkFieldFilter {
  FieldFilter_Key : string;
  FieldFilter_Value : string;
  FieldFilter_Op : string
}.

Record LabelFilter := mkLabelFilter {
  LabelFilter_Key : string;
  LabelFilter_Value : string;
  LabelFilter_Op : string
}.

Record Filters := mkFilters {
  Filters_Node : string;
  Filters_Namespace : string;
  Filters_Fields : list FieldFilter;
  Filters_Labels : list LabelFilter
}.

(** A field selector of k8s.io/apimachinery/pkg/fields as the client builds
    it: [OneTermEqualSelector], [OneTermNotEqualSelector], and the
    conjunction [AndSelectors] of a list of them. *)
Inductive FieldTerm :=
| OneTermEqualSelector (k v : string)
| OneTermNotEqualSelector (k v : string).

(** What [selectorsFromFilters] takes from outside: the requirements and
    selectors of k8s.io/apimachinery/pkg/labels, with
    [labels.NewRequirement] and the error it can return,
    [labels.Everything] and the method [Add] of a selector, which decides
    where in the selector the requirement goes; and the constant
    [podNodeField] of kube.go. *)
Class SelectorExternals := {
  Requirement : Type;
  RequirementError : Type;
  Selector : Type;
  labels_NewRequirement : string → string → list string → Requirement + RequirementError;
  labels_Everything : Selector;
  labels_Add : Selector → Requirement → Selector;
  podNodeField : string
}.

Section Selectors.
Context `{SelectorExternals}.

Inductive SelectorError :=
| LabelOperatorNotSupported (op : string)
| InvalidRequirement (err : RequirementError)
| FieldOperatorNotSupported (op : string).

Definition singleValueOperators : list string :=
  [selection_Equals; selection_DoubleEquals; selection_NotEquals;
   selection_GreaterThan; selection_LessThan].

(** The body of the loop over the label filters. *)
Definition addLabelFilter (labelSelector : Selector) (f : LabelFilter)
    : Selector + SelectorError :=
  if decide (LabelFilter_Op f = selection_In ∨ LabelFilter_Op f = selection_NotIn)
  then inr (LabelOperatorNotSupported (LabelFilter_Op f))
  else
    let vals :=
      if decide (LabelFilter_Op f ∈ singleValueOperators)
      then [LabelFilter_Value f] else [] in
    match labels_NewRequirement (LabelFilter_Key f) (LabelFilter_Op f) vals with
    | inl r => inl (labels_Add labelSelector r)
    | inr err => inr (InvalidRequirement err)
    end.

(** The body of the loop over the field filters. *)
Definition addFieldFilter (selectors : list FieldTerm) (f : FieldFilter)
    : list FieldTerm + SelectorError :=
  if decide (FieldFilter_Op f = selection_Equals) then
    inl (selectors ++ [OneTermEqualSelector (FieldFilter_Key f) (FieldFilter_Value f)])
  else if decide (FieldFilter_Op f = selection_NotEquals) then
    inl (selectors ++ [OneTermNotEqualSelector (FieldFilter_Key f) (FieldFilter_Value f)])
  else inr (FieldOperatorNotSupported (FieldFilter_Op f)).

(** A loop that returns at the first error. *)
Fixpoint foldlE {A B E} (f : A → B → A + E) (a : A) (l : list B) : A + E :=
  match l with
  | [] => inl a
  | b :: l' =>
      match f a b with
      | inl a' => foldlE f a' l'
      | inr err => inr err
      end
  end.

Definition selectorsFromFilters (filters : Filters)
    : (Selector * list FieldTerm) + SelectorError :=
  match foldlE addLabelFilter labels_Everything (Filters_Labels filters) with
  | inr err => inr err
  | inl labelSelector =>
      match foldlE addFieldFilter [] (Filters_Fields filters) with
      | inr err => inr err
      | inl selectors =>
          let selectors :=
            if decide (Filters_Node filters ≠ "")
            then selectors ++ [OneTermEqualSelector podNodeField (Filters_Node filters)]
            else selectors in
          inl (labelSelector, selectors)
      end
  end.

(** What one field filter contributes: its selector term, or the error
    that ends the function. *)
Definition fieldTerm (f : FieldFilter) : FieldTerm + SelectorError :=
  if decide (FieldFilter_Op f = selection_Equals) then
    inl (OneTermEqualSelector (FieldFilter_Key f) (FieldFilter_Value f))
  else if decide (FieldFilter_Op f = selection_NotEquals) then
    inl (OneTermNotEqualSelector (FieldFilter_Key f) (FieldFilter_Value f))
  else inr (FieldOperatorNotSupported (FieldFilter_Op f)).

(** What one label filter contributes: its requirement, or the error that
    ends the function. *)
Definition labelRequirement (f : LabelFilter) : Requirement + SelectorError :=
  if decide (LabelFilter_Op f = selection_In ∨ LabelFilter_Op f = selection_NotIn)
  then inr (LabelOperatorNotSupported (LabelFilter_Op f))
  else
    match labels_NewRequirement (LabelFilter_Key f) (LabelFilter_Op f)
            (if decide (LabelFilter_Op f ∈ singleValueOperators)
             then [LabelFilter_Value f] else []) with
    | inl r => inl r
    | inr err => inr (InvalidRequirement err)
    end.

(** The filters the function accepts, with what they contribute; the first
    rejected filter of a list, with its error. *)
Definition accepted {A B E} (g : A → B + E) (l : list A) (rs : list B) : Prop :=
  g <$> l = inl <$> rs.

Definition firstRejected {A B E} (g : A → B + E) (l : list A) (err : E) : Prop :=
  ∃ before a after rs,
    l = before ++ a :: after ∧ accepted g before rs ∧ g a = inr err.

End Selectors.

(** ** More example objects

    One choice of the outside parts of the attribute extraction, and the
    values its properties are instantiated at. *)

(** Rules that ask for the cron job name, the deployment name and UID, the
    container name and ID, the cluster UID, and the service name and
    version. *)
Definition metadataRules : ExtractionRules :=
  {| CronJobName := true; DeploymentName := true; DeploymentUID := true;
     DaemonSetUID := false; DaemonSetName := false; JobUID := false;
     JobName := false; Rules_Namespace := false; PodName := false;
     PodUID := false; PodHostName := false; PodIP := false;
     ReplicaSetID := false; ReplicaSetName := false; StatefulSetUID := false;
     StatefulSetName := false; Rules_Node := false; NodeUID := false;
     StartTime := false; ContainerName := true; ContainerID := true;
     ContainerImageName := false; ContainerImageRepoDigests := false;
     ContainerImageTag := false; ClusterUID := true; ServiceName := true;
     ServiceVersion := true; ServiceInstanceID := false;
     Annotations := []; Labels := [] |}.

Definition metadataClient : WatchClient := New metadataRules [] (mkExcludes []).

Definition exampleOwnerMetadataRule : OwnerMetadataRule :=
  {| IncludesOwnerMetadata := readsOwnerReferences |}.

Definition examplePodAttributeExternals : PodAttributeExternals :=
  {| tagHostName := "k8s.pod.hostname";
     tagStartTime := "k8s.pod.start_time";
     tagNodeName := "k8s.node.name";
     tagClusterUID := "k8s.cluster.uid";
     extractFromPodMetadata := λ _ _ tags _, tags;
     Time_MarshalText := λ _, None |}.

(** Image parsers that take every image for "nginx:1.27". *)
Definition exampleImageExternals : ImageExternals :=
  {| dcommon_ParseImageName := λ _, Some (mkImageRef "nginx" "1.27");
     dcommon_CanonicalImageRef := λ imageID, Some imageID;
     reference_Parse := λ _, Some (mkReference true (Some "1.27") None) |}.

Definition exampleOtherExternals : OtherExternals :=
  {| kube_PodIdentifierMaxLength := 4;
     kube_ignoreAnnotation := "opentelemetry.io/k8s-processor/ignore";
     go_strings_TrimSpace := λ s, s;
     go_strings_ToLower := λ s, s;
     kube_extractFromNamespaceMetadata := λ _ _ tags _, tags;
     kube_extractFromNodeMetadata := λ _ _ tags _, tags;
     kube_extractFromDeploymentMetadata := λ _ _ tags _, tags;
     kube_extractFromStatefulSetMetadata := λ _ _ tags _, tags |}.

(** Requirements that record the arguments they are made of, and selectors
    that keep their requirements ordered by key. *)
Fixpoint addByKey (selector : list (string * string * list string))
    (r : string * string * list string) : list (string * string * list string) :=
  match selector with
  | [] => [r]
  | r' :: rest =>
      if String.ltb r.1.1 r'.1.1 then r :: selector else r' :: addByKey rest r
  end.

Definition exampleSelectorExternals : SelectorExternals :=
  {| Requirement := string * string * list string;
     RequirementError := unit;
     Selector := list (string * string * list string);
     labels_NewRequirement := λ key op vals, inl (key, op, vals);
     labels_Everything := [];
     labels_Add := addByKey;
     podNodeField := "spec.nodeName" |}.

(** The namespace kube-system, and a node. *)
Definition kubeSystem : ObjectMeta := noOwnerMeta "kube-system" "" "ns-1".

Definition nodeA : ObjectMeta := noOwnerMeta "node-a" "" "node-1".

(** The replica set "web-7c9f" of the deployment "web", which owns
    [ownedPod]. *)
Definition webReplicaSet : ObjectMeta :=
  mkObjectMeta "web-7c9f" "default" "rs-1" None ∅ ∅
    [mkOwnerReference "Deployment" "web" "dep-1" (Some true)].

Definition webReplicaSets : gmap string ReplicaSet :=
  {["rs-1" := mkReplicaSet "web-7c9f" "default" "rs-1" (mkDeployment "web" "dep-1" ∅)]}.

(** A pod of the job "backup-28012345". *)
Definition jobReference : OwnerReference :=
  mkOwnerReference "Job" "backup-28012345" "job-1" (Some true).

Definition jobPod : api_Pod :=
  mkApiPod
    (mkObjectMeta "backup-28012345-k4x" "default" "u8" None ∅ ∅ [jobReference])
    (mkPodSpec "node-a" false "" [] [])
    (mkPodStatus "10.0.0.8" (Some 0%Z) [] []).

(** "web-0" as a delete notification reports it after its address has
    changed. *)
Definition web0_moved : api_Pod :=
  mkApiPod (noOwnerMeta "web-0" "default" "u1")
    (mkPodSpec "node-a" false "" [] [])
    (mkPodStatus "10.0.0.6" (Some 0%Z) [] []).

(** An association with one source more than an identifier has
    attributes. *)
Definition longRule : Association :=
  mkAssociation ""
    (replicate 5 (mkAssociationSource ResourceSource K8SPodUIDKey)).

(** A pod with a container whose status carries a runtime prefix. *)
Definition containerPod : api_Pod :=
  mkApiPod (noOwnerMeta "web-2" "default" "u2")
    (mkPodSpec "node-a" false "" [mkApiContainer "app" "nginx:1.27"] [])
    (mkPodStatus "10.0.0.2" (Some 0%Z)
       [mkApiContainerStatus "app" "containerd://abc123" 0 ""] []).

(** The association [resource attribute container.id]. *)
Definition containerIDRule : Association :=
  mkAssociation "" [mkAssociationSource ResourceSource ContainerIDKey].

(** An [extractFromPodMetadata] that copies the entry the rule's selector
    names to the tag the formatter makes of the selector. *)
Definition formatted (formatter key : string) : string :=
  String.substring 0 (String.length formatter - 2) formatter +:+ key.

Definition copyEntry (r : FieldExtractionRule) (metadata tags : gmap string string)
    (formatter : string) : gmap string string :=
  match metadata !! Rule_Selector r with
  | Some value => <[formatted formatter (Rule_Selector r) := value]> tags
  | None => tags
  end.

Definition copyingPodAttributeExternals : PodAttributeExternals :=
  {| tagHostName := "k8s.pod.hostname";
     tagStartTime := "k8s.pod.start_time";
     tagNodeName := "k8s.node.name";
     tagClusterUID := "k8s.cluster.uid";
     extractFromPodMetadata := copyEntry;
     Time_MarshalText := λ _, None |}.

(** The rules [metadataRules] with a rule for the label "app" and a rule
    for the annotation "team". *)
Definition labelledRules : ExtractionRules :=
  {| CronJobName := true; DeploymentName := true; DeploymentUID := true;
     DaemonSetUID := false; DaemonSetName := false; JobUID := false;
     JobName := false; Rules_Namespace := false; PodName := false;
     PodUID := false; PodHostName := false; PodIP := false;
     ReplicaSetID := false; ReplicaSetName := false; StatefulSetUID := false;
     StatefulSetName := false; Rules_Node := false; NodeUID := false;
     StartTime := false; ContainerName := true; ContainerID := true;
     ContainerImageName := false; ContainerImageRepoDigests := false;
     ContainerImageTag := false; ClusterUID := true; ServiceName := true;
     ServiceVersion := true; ServiceInstanceID := false;
     Annotations := [mkFieldExtractionRule MetadataFromPod "team"];
     Labels := [mkFieldExtractionRule MetadataFromPod "app"] |}.

Definition labelledClient : WatchClient := New labelledRules [] (mkExcludes []).

(** [ownedPod] and [jobPod] with the label "app" and the annotation
    "team". *)
Definition labelledOwnedPod : api_Pod :=
  mkApiPod
    (mkObjectMeta "web-7c9f-x2x" "default" "u7" None
       {["app" := "shop"]} {["team" := "core"]}
       [mkOwnerReference "ReplicaSet" "web-7c9f" "rs-1" (Some true)])
    (mkPodSpec "node-a" false "" [] [])
    (mkPodStatus "10.0.0.7" (Some 0%Z) [] []).

Definition labelledJobPod : api_Pod :=
  mkApiPod
    (mkObjectMeta "backup-28012345-k4x" "default" "u8" None
       {["app" := "shop"]} {["team" := "core"]} [jobReference])
    (mkPodSpec "node-a" false "" [] [])
    (mkPodStatus "10.0.0.8" (Some 0%Z) [] []).


(** "web-0" as the informer of a client without rules delivers it, with
    nothing but its name, namespace, UID, address and start time. *)
Definition startedPod (startTime : option Z) : api_Pod :=
  mkApiPod (noOwnerMeta "web-0" "default" "u1")
    (mkPodSpec "" false "" [] [])
    (mkPodStatus "10.0.0.5" startTime [] []).


(** A client with one rule for pod annotations, whose informer delivers
    pods with their annotations. *)
Definition annotationRules : ExtractionRules :=
  {| CronJobName := false; DeploymentName := false; DeploymentUID := false;
     DaemonSetUID := false; DaemonSetName := false; JobUID := false;
     JobName := false; Rules_Namespace := false; PodName := false;
     PodUID := false; PodHostName := false; PodIP := false;
     ReplicaSetID := false; ReplicaSetName := false; StatefulSetUID := false;
     StatefulSetName := false; Rules_Node := false; NodeUID := false;
     StartTime := false; ContainerName := false; ContainerID := false;
     ContainerImageName := false; ContainerImageRepoDigests := false;
     ContainerImageTag := false; ClusterUID := false; ServiceName := false;
     ServiceVersion := false; ServiceInstanceID := false;
     Annotations := [mkFieldExtractionRule MetadataFromPod "team"];
     Labels := [] |}.

Definition annotationClient : WatchClient := New annotationRules [] (mkExcludes []).

(** "web-0" created again under the same name and address, with the ignore
    annotation. *)
Definition ignoredPod : api_Pod :=
  mkApiPod
    (mkObjectMeta "web-0" "default" "u2" None ∅
       {["opentelemetry.io/k8s-processor/ignore" := "true"]} [])
    (mkPodSpec "" false "" [] [])
    (mkPodStatus "10.0.0.5" (Some (11 * time_Second)%Z) [] []).

(** "web-0" added, deleted at 10s, created again with the ignore
    annotation, on the client with the annotation rule. *)
Definition annotatedPodRun : list Event :=
  [EvStart;
   EvNotify KPod (OnAdd (PodObj (startedPod (Some 0%Z)))) (clockAt 0);
   EvNotify KPod (OnDelete (PodObj (startedPod (Some 0%Z)))) (clockAt (10 * time_Second));
   EvNotify KPod (OnAdd (PodObj ignoredPod)) (clockAt (11 * time_Second))].

(** The pod with the ignore annotation is added to a new client. *)
Definition ignoredPodAddedRun : list Event :=
  [EvStart; EvNotify KPod (OnAdd (PodObj ignoredPod)) (clockAt 0)].

(** The state a run from the client with the annotation rule ends in, with
    [exampleExternals] for the outside parts. *)
Definition annotatedStateAfter (evs : list Event) : WatchClient :=
  default annotationClient (@run exampleExternals annotationClient evs).

Definition exampleFilters : Filters :=
  {| Filters_Node := "node-a";
     Filters_Namespace := "";
     Filters_Fields := [mkFieldFilter "status.phase" "Pending" "!="];
     Filters_Labels := [mkLabelFilter "zone" "z1" "="; mkLabelFilter "app" "web" "!="] |}.

(** * Properties *)

Section Properties.
Context `{Externals}.

(** ** Frame facts: what an operation leaves alone *)

Lemma addOrUpdatePod_frame c pod c' :
  addOrUpdatePod c pod = Some c' → c' = with_Pods c (Pods c').
Proof.
  unfold addOrUpdatePod. intros Hc.
  destruct (getIdentifiersFromAssoc c (podFromAPI c pod)) as [ids|]; simplify_eq/=.
  reflexivity.
Qed.

(** ** The start-time rule of the pod table *)

Lemma putPod_lookup startTime newPod pods id id' :
  putPod startTime newPod pods id !! id' =
  if decide (id = id') then putResult startTime newPod (pods !! id) else pods !! id'.
Proof.
  unfold putPod, putResult.
  destruct (decide (id = id')) as [<-|Hne].
  - destruct (pods !! id) as [p|] eqn:Hp.
    + destruct (Time_Before startTime (Pod_StartTime p)); [done|].
      by rewrite lookup_insert_eq.
    + by rewrite lookup_insert_eq.
  - destruct (pods !! id) as [p|] eqn:Hp.
    + destruct (Time_Before startTime (Pod_StartTime p)); [done|].
      by rewrite lookup_insert_ne.
    + by rewrite lookup_insert_ne.
Qed.

Lemma Time_Before_irrefl t : Time_Before t t = false.
Proof.
  destruct t as [t|]; [|done]. simpl. apply bool_decide_eq_false. lia.
Qed.

Lemma putResult_idem newPod old :
  putResult (Pod_StartTime newPod) newPod
            (putResult (Pod_StartTime newPod) newPod old) =
  putResult (Pod_StartTime newPod) newPod old.
Proof.
  unfold putResult. destruct old as [p|].
  - destruct (Time_Before _ (Pod_StartTime p)) eqn:Hb.
    + by rewrite Hb.
    + by rewrite Time_Before_irrefl.
  - by rewrite Time_Before_irrefl.
Qed.

Lemma foldl_putPod_lookup newPod ids pods (id : PodIdentifier) :
  foldl (putPod (Pod_StartTime newPod) newPod) pods ids !! id =
  if decide (id ∈ ids) then putResult (Pod_StartTime newPod) newPod (pods !! id)
  else pods !! id.
Proof.
  revert pods. induction ids as [|a ids IH]; intros pods.
  - destruct (decide (id ∈ [])) as [Hin|_]; [|done]. by apply elem_of_nil in Hin.
  - change (foldl ?f pods (a :: ids)) with (foldl f (f pods a) ids).
    rewrite IH, !putPod_lookup.
    destruct (decide (a = id)) as [->|Hne].
    + rewrite putResult_idem.
      destruct (decide (id ∈ id :: ids)) as [_|Hnin]; [|by destruct Hnin; left].
      by destruct (decide (id ∈ ids)).
    + destruct (decide (id ∈ ids)) as [Hin|Hnin].
      * destruct (decide (id ∈ a :: ids)) as [_|Hn]; [done|]. by destruct Hn; right.
      * destruct (decide (id ∈ a :: ids)) as [[->|?]%elem_of_cons|_]; done.
Qed.

Lemma addOrUpdatePod_lookup c pod c' ids (id : PodIdentifier) :
  addOrUpdatePod c pod = Some c' →
  getIdentifiersFromAssoc c (podFromAPI c pod) = Some ids →
  Pods c' !! id =
  if decide (id ∈ ids)
  then putResult (Pod_StartTime (podFromAPI c pod)) (podFromAPI c pod) (Pods c !! id)
  else Pods c !! id.
Proof.
  unfold addOrUpdatePod. intros Hc Hids. rewrite Hids in Hc. simplify_eq/=.
  apply (foldl_putPod_lookup (podFromAPI c pod)).
Qed.



Lemma addOrUpdatePod_identifiers c pod c' :
  addOrUpdatePod c pod = Some c' →
  ∃ ids, getIdentifiersFromAssoc c (podFromAPI c pod) = Some ids.
Proof.
  unfold addOrUpdatePod. intros Hc.
  destruct (getIdentifiersFromAssoc c (podFromAPI c pod)) as [ids|]; [eauto|done].
Qed.



(** ** Identifiers *)

Lemma array_set_Some a i v a' :
  array_set a i v = Some a' → a' = <[i := v]> a ∧ i < length a.
Proof. unfold array_set. case_decide; naive_solver. Qed.

Lemma array_set_in_range a i v :
  i < length a → array_set a i v = Some (<[i := v]> a).
Proof. unfold array_set. intros. by rewrite decide_True. Qed.

(** The attribute a resource source resolves to and the container-ID
    position after it, as the inner [switch] computes them. *)
Lemma resolve_resource_source pod i source st attr cid :
  (if decide (Source_Name source = K8SNamespaceNameKey) then
     (Pod_Namespace pod, retID4containerID st)
   else if decide (Source_Name source = K8SPodNameKey) then
     (Pod_Name pod, retID4containerID st)
   else if decide (Source_Name source = K8SPodUIDKey) then
     (Pod_PodUID pod, retID4containerID st)
   else if decide (Source_Name source = HostNameKey) then
     (Pod_Address pod, retID4containerID st)
   else if decide (Source_Name source = K8sIPLabelName) then
     (Pod_Address pod, retID4containerID st)
   else if decide (Source_Name source = ContainerIDKey) then
     ("", Z.of_nat i)
   else
     (default "" (Pod_Attributes pod !! Source_Name source),
      retID4containerID st)) = (attr, cid) →
  attr = resourceAttribute pod (Source_Name source) ∧
  ((cid = retID4containerID st ∧ Source_Name source ≠ ContainerIDKey)
   ∨ (cid = Z.of_nat i ∧ Source_Name source = ContainerIDKey)).
Proof.
  intros Hr. unfold resourceAttribute.
  repeat (case_decide;
          [ simplify_eq; split; [done|];
            first [ by right
                  | left; split; [done|];
                    match goal with
                    | Hn : Source_Name _ = _ |- _ => rewrite Hn
                    end;
                    intros Heq; vm_compute in Heq; discriminate ] | ]).
  simplify_eq. split; [done|]. by left.
Qed.

(** What one source does to the scan. *)
Lemma scanSource_spec pod i source st st' :
  scanSource pod i source st = Some st' →
  length (ret st') = length (ret st) ∧
  (skip st = true → skip st' = true) ∧
  ((retID4containerID st' = retID4containerID st ∧ ¬ isContainerIDSource source)
   ∨ (retID4containerID st' = Z.of_nat i ∧ isContainerIDSource source
      ∧ i < length (ret st))) ∧
  (ret st' = ret st ∨
   ∃ v, ret st' = <[i := PodIdentifierAttributeFromSource source v]> (ret st)) ∧
  (Source_From source = ConnectionSource →
   Pod_Address pod = "" ∨ Pod_HostNetwork pod = true → skip st' = true) ∧
  (Pod_HostNetwork pod = true → Source_From source = ConnectionSource →
   ret st' = ret st).
Proof.
  intros Hs. unfold scanSource, isContainerIDSource in *.
  destruct (Source_From source) eqn:Hfrom.
  - simplify_eq. split_and!; eauto; naive_solver.
  - case_decide as Ha; [simplify_eq/=; split_and!; eauto; naive_solver|].
    destruct (Pod_HostNetwork pod) eqn:Hhn;
      [simplify_eq/=; split_and!; eauto; naive_solver|].
    destruct (array_set _ _ _) as [r|] eqn:Hr; [|done].
    apply array_set_Some in Hr as [-> Hi]. simplify_eq/=.
    rewrite length_insert. split_and!; eauto; naive_solver.
  - destruct (if decide (Source_Name source = K8SNamespaceNameKey) then _ else _)
      as [attr cid] eqn:Hres.
    apply resolve_resource_source in Hres as [_ Hres].
    case_decide as Ha.
    + simplify_eq/=. destruct Ha as [_ Hcid].
      destruct Hres as [[-> Hn]|[Hi _]]; [|lia].
      split_and!; eauto; naive_solver.
    + destruct (array_set _ _ _) as [r|] eqn:Hr; [|done].
      apply array_set_Some in Hr as [-> Hi]. simplify_eq/=.
      rewrite length_insert. split_and!; eauto; try naive_solver.
Qed.

Lemma scanSources_spec pod sources : ∀ i st st',
  scanSources pod i sources st = Some st' →
  length (ret st') = length (ret st) ∧
  (skip st = true → skip st' = true) ∧
  ((retID4containerID st' = retID4containerID st
    ∧ ¬ Exists isContainerIDSource sources)
   ∨ (∃ j s, sources !! j = Some s ∧ isContainerIDSource s
        ∧ retID4containerID st' = Z.of_nat (i + j)
        ∧ i + j < length (ret st))) ∧
  (Pod_HostNetwork pod = true →
   Exists (λ s, Source_From s = ConnectionSource) sources → skip st' = true) ∧
  (Pod_HostNetwork pod = true →
   Forall (λ a, Source_From (Attr_Source a) ≠ ConnectionSource) (ret st) →
   Forall (λ a, Source_From (Attr_Source a) ≠ ConnectionSource) (ret st')).
Proof.
  induction sources as [|s sources IH]; intros i st st' Hs; simpl in Hs.
  - simplify_eq. split_and!; try done.
    + left. split; [done|]. by intros ?%Exists_nil.
    + by intros _ ?%Exists_nil.
  - destruct (scanSource pod i s st) as [st1|] eqn:H1; [|done]. simpl in Hs.
    apply scanSource_spec in H1 as (Hlen1 & Hskip1 & Hcid1 & Hret1 & Hconn1 & Hhn1).
    apply IH in Hs as (Hlen & Hskip & Hcid & Hconn & Hattrs).
    split_and!.
    + congruence.
    + auto.
    + destruct Hcid as [[Heq Hno]|(j & s' & Hj & Hs' & Heq & Hlt)].
      * destruct Hcid1 as [[Heq1 Hno1]|(Heq1 & Hyes & Hlt)].
        -- left. split; [congruence|]. by intros [?|?]%Exists_cons.
        -- right. exists 0, s. rewrite Nat.add_0_r. split_and!; [done|done|congruence|done].
      * right. exists (S j), s'. split_and!; [done|done| |lia].
        rewrite Heq. f_equal. lia.
    + intros Hhn [Hc|Hc]%Exists_cons; auto.
    + intros Hhn Hall. apply Hattrs; [done|].
      destruct (decide (Source_From s = ConnectionSource)) as [Hc|Hc].
      * by rewrite (Hhn1 Hhn Hc).
      * destruct Hret1 as [->|[v ->]]; [done|].
        destruct (decide (i < length (ret st))).
        -- apply Forall_insert; done.
        -- rewrite list_insert_ge by lia. done.
Qed.

(** Whether the scan ends with [skip] set is decided by the sources and the
    pod alone. *)
Lemma scanSource_skip pod i source st st' :
  scanSource pod i source st = Some st' →
  skip st' =
    skip st || sourceSkips pod (bool_decide (retID4containerID st ≠ (-1)%Z)) source ∧
  bool_decide (retID4containerID st' ≠ (-1)%Z) =
    bool_decide (retID4containerID st ≠ (-1)%Z)
    || bool_decide (isContainerIDSource source).
Proof.
  intros Hs.
  destruct (scanSource_spec _ _ _ _ _ Hs) as (_ & _ & Hcid & _).
  split.
  - unfold scanSource, sourceSkips in *.
    destruct (Source_From source) eqn:Hfrom.
    + simplify_eq. by rewrite orb_false_r.
    + case_decide as Ha.
      { simplify_eq/=. rewrite bool_decide_eq_true_2 by done. by rewrite orb_true_r. }
      rewrite bool_decide_eq_false_2 by done.
      destruct (Pod_HostNetwork pod); [simplify_eq/=; by rewrite orb_true_r|].
      destruct (array_set _ _ _) as [r|]; [|done]. simplify_eq/=.
      by rewrite orb_false_r.
    + destruct (if decide (Source_Name source = K8SNamespaceNameKey) then _ else _)
        as [attr cid] eqn:Hres.
      apply resolve_resource_source in Hres as [-> Hres].
      case_decide as Ha.
      * simplify_eq/=. destruct Ha as [Hattr Hc].
        destruct Hres as [[-> Hn]|[-> _]]; [|lia].
        rewrite (bool_decide_eq_true_2 (_ ≠ ContainerIDKey)) by done.
        rewrite (bool_decide_eq_true_2 (_ = "")) by done.
        rewrite (bool_decide_eq_false_2 (_ ≠ (-1)%Z)) by naive_solver.
        by rewrite orb_true_r.
      * destruct (array_set _ _ _) as [r|]; [|done]. simplify_eq/=.
        destruct Hres as [[-> Hn]|[-> Hn]].
        -- destruct (decide (resourceAttribute pod (Source_Name source) = "")) as [He|He].
           ++ rewrite (bool_decide_eq_true_2 (_ ≠ (-1)%Z)) by naive_solver.
              by rewrite andb_false_r, orb_false_r.
           ++ rewrite (bool_decide_eq_false_2 (_ = "")) by done.
              by rewrite andb_false_r, orb_false_r.
        -- rewrite (bool_decide_eq_false_2 (_ ≠ ContainerIDKey)) by naive_solver.
           by rewrite orb_false_r.
  - destruct Hcid as [[-> Hno]|(-> & Hyes & _)].
    + rewrite (bool_decide_eq_false_2 (isContainerIDSource source)) by done.
      by rewrite orb_false_r.
    + rewrite (bool_decide_eq_true_2 (isContainerIDSource source)) by done.
      rewrite orb_true_r. apply bool_decide_eq_true_2. lia.
Qed.

Lemma scanSources_skip pod sources : ∀ i st st',
  scanSources pod i sources st = Some st' →
  skip st' =
    skip st || ruleSkipped pod (bool_decide (retID4containerID st ≠ (-1)%Z)) sources.
Proof.
  induction sources as [|s sources IH]; intros i st st' Hs; simpl in Hs.
  - simplify_eq. simpl. by rewrite orb_false_r.
  - destruct (scanSource pod i s st) as [st1|] eqn:H1; [|done]. simpl in Hs.
    apply scanSource_skip in H1 as [Hskip Hcid].
    rewrite (IH _ _ _ Hs), Hskip, Hcid. simpl. by rewrite orb_assoc.
Qed.

Lemma identifiersOfAssoc_skip pod assoc st :
  scanSources pod 0 (Sources assoc) initialScan = Some st →
  skip st = ruleSkipped pod false (Sources assoc).
Proof. intros Hs. by rewrite (scanSources_skip _ _ _ _ _ Hs). Qed.

Lemma scanSource_total pod i source st :
  i < length (ret st) → is_Some (scanSource pod i source st).
Proof.
  intros Hi. unfold scanSource, array_set.
  repeat (first [ done | eexists; done | case_match | case_decide ]);
    try (simpl; eauto; fail); try lia.
Qed.

Lemma scanSources_total pod sources : ∀ i st,
  i + length sources ≤ length (ret st) → is_Some (scanSources pod i sources st).
Proof.
  induction sources as [|s sources IH]; intros i st Hlen; simpl in *; [eauto|].
  destruct (scanSource_total pod i s st) as [st1 H1]; [lia|].
  rewrite H1. simpl. apply IH.
  apply scanSource_spec in H1 as (-> & _). lia.
Qed.

Lemma mapM_array_set (a : PodIdentifier) k (f : string → PodIdentifierAttribute) l :
  k < length a →
  mapM (λ cID, array_set a k (f cID)) l = Some ((λ cID, <[k := f cID]> a) <$> l).
Proof.
  intros Hk. induction l as [|x l IH]; [done|].
  simpl. rewrite array_set_in_range by done. simpl. by rewrite IH.
Qed.

Lemma length_initialScan : length (ret initialScan) = PodIdentifierMaxLength.
Proof. apply length_replicate. Qed.

(** The three outcomes of an association that does not panic. *)
Lemma identifiersOfAssoc_spec pod assoc ids :
  identifiersOfAssoc pod assoc = Some ids →
  ∃ st, scanSources pod 0 (Sources assoc) initialScan = Some st ∧
    ((skip st = true ∧ ids = []) ∨
     (skip st = false ∧ ¬ Exists isContainerIDSource (Sources assoc)
      ∧ ids = [ret st]) ∨
     (skip st = false ∧
      ∃ k s, Sources assoc !! k = Some s ∧ isContainerIDSource s
        ∧ retID4containerID st = Z.of_nat k ∧ k < length (ret st)
        ∧ ids = (λ cID, <[k := containerIDAttribute cID]> (ret st))
                  <$> containerIDs pod)).
Proof.
  unfold identifiersOfAssoc. intros Hi.
  destruct (scanSources pod 0 (Sources assoc) initialScan) as [st|] eqn:Hs; [|done].
  simpl in Hi. exists st. split; [done|].
  destruct (scanSources_spec _ _ _ _ _ Hs) as (Hlen & _ & Hcid & _).
  destruct (skip st); [left; by simplify_eq|right].
  case_decide as Hd.
  - right. destruct Hcid as [[Heq _]|(k & s & Hk & Hs' & Heq & Hlt)];
      [simpl in Heq; congruence|].
    split; [done|]. exists k, s. simpl in Heq.
    rewrite Heq, Nat2Z.id, mapM_array_set in Hi by lia.
    split_and!; [done|done|done|lia|by simplify_eq].
  - left. destruct Hcid as [[Heq Hno]|(k & s & Hk & Hs' & Heq & Hlt)]; [|lia].
    split_and!; [done|done|by simplify_eq].
Qed.

Lemma identifiersOfAssoc_total pod assoc :
  length (Sources assoc) ≤ PodIdentifierMaxLength →
  is_Some (identifiersOfAssoc pod assoc).
Proof.
  intros Hlen. unfold identifiersOfAssoc.
  destruct (scanSources_total pod (Sources assoc) 0 initialScan) as [st Hs].
  { rewrite length_initialScan. lia. }
  rewrite Hs. simpl.
  destruct (scanSources_spec _ _ _ _ _ Hs) as (Hl & _ & Hcid & _).
  destruct (skip st); [eauto|]. case_decide; [|eauto].
  destruct Hcid as [[Heq Hno]|(k & s & Hk & Hs' & Heq & Hlt)].
  - simpl in Heq. congruence.
  - rewrite Heq, Nat2Z.id, mapM_array_set by lia. eauto.
Qed.

(** [getIdentifiersFromAssoc] returns whenever no association has more
    sources than an identifier has positions. *)
Lemma getIdentifiersFromAssoc_total c pod :
  Forall (λ assoc, length (Sources assoc) ≤ PodIdentifierMaxLength) (Associations c) →
  is_Some (getIdentifiersFromAssoc c pod).
Proof.
  intros Hall. unfold getIdentifiersFromAssoc.
  destruct (mapM (identifiersOfAssoc pod) (Associations c)) as [ids|] eqn:Hm;
    [simpl; eauto|].
  exfalso. assert (is_Some (mapM (identifiersOfAssoc pod) (Associations c))) as [? ?];
    [|congruence].
  apply mapM_is_Some. eapply Forall_impl; [done|].
  intros assoc Hlen. by apply identifiersOfAssoc_total.
Qed.

(** ** No panic on a validated configuration *)


Lemma forgetPod_total c pod time_Now :
  Forall (λ assoc, length (Sources assoc) ≤ PodIdentifierMaxLength) (Associations c) →
  is_Some (forgetPod c pod time_Now).
Proof.
  intros Hall. unfold forgetPod.
  destruct (getIdentifiersFromAssoc_total c (podFromAPI c pod) Hall) as [ids ->].
  simpl. eauto.
Qed.


(** ** The start-time rule, for every event and every sequence *)


(** ** The identifiers a pod is stored under *)

Lemma elem_of_concat {A} (x : A) (ls : list (list A)) :
  x ∈ concat ls ↔ ∃ l, l ∈ ls ∧ x ∈ l.
Proof.
  induction ls as [|l ls IH]; simpl.
  - split; [by intros ?%elem_of_nil|by intros (?&?%elem_of_nil&?)].
  - rewrite elem_of_app, IH. split.
    + intros [?|(l'&?&?)]; [exists l; split; [left|done]|exists l'; split; [by right|done]].
    + intros (l'&[->|?]%elem_of_cons&?); [by left|right; eauto].
Qed.

Lemma getIdentifiersFromAssoc_elem c pod ids (id : PodIdentifier) :
  getIdentifiersFromAssoc c pod = Some ids →
  id ∈ ids ↔
  (∃ assoc l, assoc ∈ Associations c ∧ identifiersOfAssoc pod assoc = Some l ∧ id ∈ l)
  ∨ id ∈ fallbackIdentifiers pod.
Proof.
  unfold getIdentifiersFromAssoc. intros Hg.
  destruct (mapM (identifiersOfAssoc pod) (Associations c)) as [ls|] eqn:Hm; [|done].
  simpl in Hg. simplify_eq. apply mapM_Some in Hm.
  rewrite elem_of_app, elem_of_concat. split.
  - intros [(l & Hl & Hin)|?]; [left|by right].
    apply list_elem_of_lookup in Hl as [i Hi].
    destruct (Forall2_lookup_r _ _ _ _ _ Hm Hi) as (assoc & Ha & Hf).
    exists assoc, l. split_and!; [|done|done]. by eapply list_elem_of_lookup_2.
  - intros [(assoc & l & Ha & Hf & Hin)|?]; [left|by right].
    apply list_elem_of_lookup in Ha as [i Hi].
    destruct (Forall2_lookup_l _ _ _ _ _ Hm Hi) as (l' & Hl' & Hf').
    exists l. split; [|done]. simplify_eq. by eapply list_elem_of_lookup_2.
Qed.

Lemma getIdentifiersFromAssoc_assoc c pod ids assoc :
  getIdentifiersFromAssoc c pod = Some ids → assoc ∈ Associations c →
  is_Some (identifiersOfAssoc pod assoc).
Proof.
  unfold getIdentifiersFromAssoc. intros Hg Ha.
  destruct (mapM (identifiersOfAssoc pod) (Associations c)) as [ls|] eqn:Hm; [|done].
  assert (is_Some (mapM (identifiersOfAssoc pod) (Associations c))) as Hs by eauto.
  apply mapM_is_Some_1 in Hs. by apply (proj1 (Forall_forall _ _) Hs).
Qed.

Lemma not_connectionBased (id : PodIdentifier) :
  Forall (λ a, Source_From (Attr_Source a) ≠ ConnectionSource) id →
  ¬ connectionBased id.
Proof.
  intros Hall (a & Ha & Hc). by apply (proj1 (Forall_forall _ _) Hall a Ha).
Qed.

(** C5.  For a pod with the host-network flag set, no identifier that
    [getIdentifiersFromAssoc] returns has an attribute taken from the
    connection: every association with a connection source contributes
    nothing, and of the fallback identifiers only the one by pod UID can be
    appended.  The function returns whenever no association has more
    sources than an identifier has positions. *)
Theorem hostNetwork_no_connection_identifier c pod :
  Pod_HostNetwork pod = true →
  (Forall (λ assoc, length (Sources assoc) ≤ PodIdentifierMaxLength)
          (Associations c) →
   is_Some (getIdentifiersFromAssoc c pod)) ∧
  (∀ ids,
     getIdentifiersFromAssoc c pod = Some ids →
     (∀ id, id ∈ ids → ¬ connectionBased id) ∧
     (∀ assoc, assoc ∈ Associations c →
        Exists (λ s, Source_From s = ConnectionSource) (Sources assoc) →
        identifiersOfAssoc pod assoc = Some [])) ∧
  fallbackIdentifiers pod =
    if decide (Pod_PodUID pod ≠ "")
    then [PodIdentifier_lit
            (PodIdentifierAttributeFromResourceAttribute K8SPodUIDKey (Pod_PodUID pod))]
    else [].
Proof.
  intros Hhn.
  assert (Hfb : fallbackIdentifiers pod =
    if decide (Pod_PodUID pod ≠ "")
    then [PodIdentifier_lit
            (PodIdentifierAttributeFromResourceAttribute K8SPodUIDKey (Pod_PodUID pod))]
    else []).
  { unfold fallbackIdentifiers.
    rewrite (decide_False (P := _ ∧ _)) by (rewrite Hhn; naive_solver).
    by rewrite app_nil_r. }
  split_and!; [apply getIdentifiersFromAssoc_total| |done].
  intros ids Hg. split; [|clear Hfb].
  - intros id Hin. apply not_connectionBased.
    apply (getIdentifiersFromAssoc_elem _ _ _ id Hg) in Hin
      as [(assoc & l & Ha & Hf & Hin)|Hin].
    + apply identifiersOfAssoc_spec in Hf as (st & Hs & Hcases).
      destruct (scanSources_spec _ _ _ _ _ Hs) as (_ & _ & _ & _ & Hattrs).
      assert (Forall (λ a, Source_From (Attr_Source a) ≠ ConnectionSource) (ret st)) as Hret.
      { apply Hattrs; [done|]. by apply Forall_replicate. }
      destruct Hcases as [[_ ->]|[(_ & _ & ->)|(_ & k & s & _ & _ & _ & _ & ->)]].
      * by apply elem_of_nil in Hin.
      * apply list_elem_of_singleton in Hin as ->. done.
      * apply list_elem_of_fmap in Hin as (cID & -> & _). by apply Forall_insert.
    + rewrite Hfb in Hin. case_decide; [|by apply elem_of_nil in Hin].
      apply list_elem_of_singleton in Hin as ->.
      apply Forall_cons. split; [done|]. by apply Forall_replicate.
  - intros assoc Ha Hex.
    destruct (getIdentifiersFromAssoc_assoc _ _ _ _ Hg Ha) as [l Hl].
    rewrite Hl. f_equal.
    apply identifiersOfAssoc_spec in Hl as (st & Hs & Hcases).
    destruct (scanSources_spec _ _ _ _ _ Hs) as (_ & _ & _ & Hskip & _).
    specialize (Hskip Hhn Hex).
    destruct Hcases as [[_ ->]|[(? & _)|(? & _)]]; [done|congruence|congruence].
Qed.

Lemma containerIDs_elem pod cID :
  cID ∈ containerIDs pod ↔ is_Some (ByID (Pod_Containers pod) !! cID).
Proof.
  unfold containerIDs. rewrite list_elem_of_fmap. split.
  - intros ([k v] & Heq & Hin). subst. simpl. exists v.
    by apply elem_of_map_to_list in Hin.
  - intros [v Hv]. exists (cID, v). split; [done|]. by apply elem_of_map_to_list.
Qed.

Lemma containerIDs_length pod :
  length (containerIDs pod) = size (ByID (Pod_Containers pod)).
Proof. unfold containerIDs. by rewrite length_fmap, length_map_to_list. Qed.

Lemma containerIDAttribute_inj cID cID' :
  containerIDAttribute cID = containerIDAttribute cID' → cID = cID'.
Proof. by intros [=]. Qed.

(** C6 (amended).  An association with a container-ID source that does not
    skip the pod yields exactly one identifier per container ID of the pod:
    the scanned identifier with the container ID written at the position of
    a container-ID source, so that all agree everywhere else.  An
    association that skips the pod (it has a connection source and the pod no
    usable address, or a resource source that resolves to nothing before any
    container-ID source) yields none.  An association with no more sources
    than an identifier has positions always returns. *)
Theorem containerID_rule_identifiers pod assoc :
  Exists isContainerIDSource (Sources assoc) →
  (length (Sources assoc) ≤ PodIdentifierMaxLength →
   is_Some (identifiersOfAssoc pod assoc)) ∧
  ∀ ids,
  identifiersOfAssoc pod assoc = Some ids →
  ∃ st k s,
    scanSources pod 0 (Sources assoc) initialScan = Some st ∧
    Sources assoc !! k = Some s ∧ isContainerIDSource s ∧
    k < length (ret st) ∧
    if ruleSkipped pod false (Sources assoc) then ids = []
    else
      ids = (λ cID, <[k := containerIDAttribute cID]> (ret st)) <$> containerIDs pod ∧
      length ids = size (ByID (Pod_Containers pod)) ∧
      NoDup ids ∧
      (∀ cID, is_Some (ByID (Pod_Containers pod) !! cID) ↔
              <[k := containerIDAttribute cID]> (ret st) ∈ ids) ∧
      (∀ id, id ∈ ids →
         ∃ cID, is_Some (ByID (Pod_Containers pod) !! cID) ∧
                id !! k = Some (containerIDAttribute cID) ∧
                ∀ j, j ≠ k → id !! j = ret st !! j).
Proof.
  intros Hex. split; [apply identifiersOfAssoc_total|]. intros ids Hi.
  apply identifiersOfAssoc_spec in Hi as (st & Hs & Hcases).
  destruct (scanSources_spec _ _ _ _ _ Hs) as (Hlen & _ & Hcid & _).
  destruct Hcid as [[_ Hno]|(k & s & Hk & Hs' & Heq & Hlt)]; [done|].
  change (0 + k) with k in Heq, Hlt. rewrite <- Hlen in Hlt.
  exists st, k, s. split_and!; [done|done|done|done|].
  rewrite <- (identifiersOfAssoc_skip _ _ _ Hs).
  destruct Hcases as [[-> ->]|[(_ & Hno & _)|(-> & k' & s' & _ & _ & Heq' & Hlt' & ->)]];
    [done|done|].
  assert (k' = k) as -> by lia.
  assert (Inj (=) (=) (λ cID, <[k := containerIDAttribute cID]> (ret st))) as Hinj.
  { intros cID cID' Heqs. apply containerIDAttribute_inj.
    apply (f_equal (λ l, l !! k)) in Heqs.
    rewrite !list_lookup_insert_eq in Heqs by done. by simplify_eq. }
  split_and!.
  - done.
  - by rewrite length_fmap, containerIDs_length.
  - apply NoDup_fmap_2; [done|]. apply NoDup_fst_map_to_list.
  - intros cID. rewrite <- containerIDs_elem.
    by rewrite (list_elem_of_fmap_inj (λ cID, <[k := containerIDAttribute cID]> (ret st))).
  - intros id (cID & -> & Hin)%list_elem_of_fmap. exists cID.
    split_and!.
    + by apply containerIDs_elem.
    + by rewrite list_lookup_insert_eq.
    + intros j Hj. by rewrite list_lookup_insert_ne.
Qed.

Lemma fallbackIdentifiers_elem pod (id : PodIdentifier) :
  id ∈ fallbackIdentifiers pod ↔
  (Pod_PodUID pod ≠ "" ∧ id = podUIDIdentifier (Pod_PodUID pod)) ∨
  (Pod_Address pod ≠ "" ∧ Pod_HostNetwork pod = false ∧
   (id = connectionIdentifier (Pod_Address pod) ∨ id = podIPIdentifier (Pod_Address pod))).
Proof.
  unfold fallbackIdentifiers, podUIDIdentifier, connectionIdentifier, podIPIdentifier.
  rewrite elem_of_app. repeat case_decide;
    rewrite ?list_elem_of_singleton, ?elem_of_cons, ?elem_of_nil; naive_solver.
Qed.

Lemma GetPod_after_add c pod c' ids (id : PodIdentifier) :
  addOrUpdatePod c pod = Some c' →
  getIdentifiersFromAssoc c (podFromAPI c pod) = Some ids →
  id ∈ ids → Pods c !! id = None →
  Pod_Ignore (podFromAPI c pod) = false →
  (GetPod c' id).1 = Some (podFromAPI c pod).
Proof.
  intros Hc Hids Hin Hnone Hign.
  pose proof (addOrUpdatePod_lookup _ _ _ _ id Hc Hids) as Hl.
  rewrite decide_True, Hnone in Hl by done. simpl in Hl.
  unfold GetPod. rewrite Hl, Hign. done.
Qed.

Lemma web1_identifiers :
  0 < PodIdentifierMaxLength →
  getIdentifiersFromAssoc exampleClient (podFromAPI exampleClient web1) =
  Some [podUIDIdentifier "u1"; podUIDIdentifier "u1";
        connectionIdentifier "10.0.0.5"; podIPIdentifier "10.0.0.5"].
Proof.
  intros Hpos.
  unfold getIdentifiersFromAssoc, identifiersOfAssoc, initialScan,
    podUIDIdentifier, connectionIdentifier, podIPIdentifier, PodIdentifier_lit.
  destruct PodIdentifierMaxLength as [|n] eqn:Hn; [lia|].
  simpl. unfold fallbackIdentifiers, PodIdentifier_lit. rewrite Hn. simpl.
  by rewrite Nat.sub_0_r.
Qed.

Lemma web1_not_ignored : Pod_Ignore (podFromAPI exampleClient web1) = false.
Proof.
  unfold podFromAPI, shouldIgnorePod. simpl. by rewrite lookup_empty.
Qed.

Lemma fallback_identifiers_distinct uid address :
  NoDup [podUIDIdentifier uid; connectionIdentifier address; podIPIdentifier address].
Proof.
  unfold podUIDIdentifier, connectionIdentifier, podIPIdentifier, PodIdentifier_lit.
  repeat (apply NoDup_cons; split);
    rewrite ?elem_of_cons, ?elem_of_nil; [| |by intros []|apply NoDup_nil_2].
  - intros [[=]|[[=]|[]]].
  - intros [[=]|[]].
Qed.

(** C4 (amended).  After the associations, [getIdentifiersFromAssoc] appends
    up to three fallback identifiers: one by pod UID when the UID is not
    empty, and two by address when the address is present and the pod is not
    host-network, the connection identifier and the resource-attribute
    identifier [k8s.pod.ip].  For pod "web-1" (UID "u1", address
    "10.0.0.5") under the rule [resource attribute k8s.pod.uid] the result
    has four entries: the rule's identifier, the pod-UID fallback equal to
    it, the connection fallback and the [k8s.pod.ip] fallback, three of
    them distinct; once the pod is added to the fresh client, [GetPod] on
    each returns the same record.  The function returns whenever no
    association has more sources than an identifier has positions. *)
Theorem fallback_identifiers_appended :
  (∀ c pod ids,
     getIdentifiersFromAssoc c pod = Some ids →
     ∃ ruleIds,
       mapM (identifiersOfAssoc pod) (Associations c) = Some ruleIds ∧
       ids = concat ruleIds ++
             (if decide (Pod_PodUID pod ≠ "")
              then [podUIDIdentifier (Pod_PodUID pod)] else []) ++
             (if decide (Pod_Address pod ≠ "" ∧ Pod_HostNetwork pod = false)
              then [connectionIdentifier (Pod_Address pod);
                    podIPIdentifier (Pod_Address pod)]
              else []))
  ∧
  (∀ c pod c' ids (id : PodIdentifier),
     addOrUpdatePod c pod = Some c' →
     getIdentifiersFromAssoc c (podFromAPI c pod) = Some ids →
     id ∈ ids → Pods c !! id = None →
     Pod_Ignore (podFromAPI c pod) = false →
     (GetPod c' id).1 = Some (podFromAPI c pod))
  ∧
  (0 < PodIdentifierMaxLength →
   let ids := [podUIDIdentifier "u1"; podUIDIdentifier "u1";
               connectionIdentifier "10.0.0.5"; podIPIdentifier "10.0.0.5"] in
   mapM (identifiersOfAssoc (podFromAPI exampleClient web1))
        (Associations exampleClient) = Some [[podUIDIdentifier "u1"]] ∧
   getIdentifiersFromAssoc exampleClient (podFromAPI exampleClient web1) = Some ids ∧
   NoDup [podUIDIdentifier "u1"; connectionIdentifier "10.0.0.5";
          podIPIdentifier "10.0.0.5"] ∧
   ∃ c', addOrUpdatePod exampleClient web1 = Some c' ∧
         ∀ id, id ∈ ids →
           (GetPod c' id).1 = Some (podFromAPI exampleClient web1))
  ∧
  (∀ c pod,
     Forall (λ assoc, length (Sources assoc) ≤ PodIdentifierMaxLength)
            (Associations c) →
     is_Some (getIdentifiersFromAssoc c pod)).
Proof.
  split_and!; [| | |apply getIdentifiersFromAssoc_total].
  - intros c pod ids Hg. unfold getIdentifiersFromAssoc in Hg.
    destruct (mapM (identifiersOfAssoc pod) (Associations c)) as [ruleIds|]; [|done].
    exists ruleIds. split; [done|]. simpl in Hg. by simplify_eq.
  - apply GetPod_after_add.
  - intros Hpos ids. pose proof (web1_identifiers Hpos) as Hids.
    split_and!.
    + unfold identifiersOfAssoc, initialScan, podUIDIdentifier, PodIdentifier_lit.
      destruct PodIdentifierMaxLength as [|n] eqn:Hn; [lia|].
      simpl. by rewrite Nat.sub_0_r.
    + done.
    + apply fallback_identifiers_distinct.
    + destruct (addOrUpdatePod exampleClient web1) as [c'|] eqn:Hc.
      * exists c'. split; [done|]. intros id Hin.
        by apply (GetPod_after_add _ _ _ _ _ Hc Hids Hin); [|apply web1_not_ignored].
      * unfold addOrUpdatePod in Hc. by rewrite Hids in Hc.
Qed.

(** ** Lookup *)

Lemma GetPod_Some c (identifier : PodIdentifier) pod :
  (GetPod c identifier).1 = Some pod ↔
  Pods c !! identifier = Some pod ∧ Pod_Ignore pod = false.
Proof.
  unfold GetPod. destruct (Pods c !! identifier) as [p|] eqn:Hp.
  - destruct (Pod_Ignore p) eqn:Hi; simpl.
    + split; [done|]. intros [[= ->] ?]. congruence.
    + split; [by intros [= ->]|]. by intros [[= ->] _].
  - simpl. split; [done|]. by intros [? _].
Qed.

Lemma GetPod_Pods c (identifier : PodIdentifier) :
  Pods (GetPod c identifier).2 = Pods c.
Proof.
  unfold GetPod. destruct (Pods c !! identifier) as [p|]; [|done].
  by destruct (Pod_Ignore p).
Qed.

(** C7.  [GetPod] returns a record exactly when the pod table maps the
    identifier to a record whose ignore flag is unset; for a record flagged
    ignore it returns nothing, and in every case the pod table after the
    call is the table before it. *)
Theorem GetPod_hides_ignored c (identifier : PodIdentifier) :
  (∀ pod, (GetPod c identifier).1 = Some pod ↔
          Pods c !! identifier = Some pod ∧ Pod_Ignore pod = false) ∧
  (∀ pod, Pods c !! identifier = Some pod → Pod_Ignore pod = true →
          (GetPod c identifier).1 = None ∧
          Pods (GetPod c identifier).2 !! identifier = Some pod) ∧
  Pods (GetPod c identifier).2 = Pods c.
Proof.
  split_and!.
  - apply GetPod_Some.
  - intros pod Hp Hi. rewrite GetPod_Pods. split; [|done].
    unfold GetPod. by rewrite Hp, Hi.
  - apply GetPod_Pods.
Qed.

(** ** The delete loop *)

Lemma scanCutoff_spec now g queue : ∀ i,
  ∃ k, scanCutoff now g i i queue = i + k ∧ k ≤ length queue ∧
       Forall (expired now g) (take k queue) ∧
       (∀ d, queue !! k = Some d → (now < Req_ts d + g)%Z).
Proof.
  induction queue as [|d queue IH]; intros i; simpl.
  - exists 0. split_and!; [lia|done|done|done].
  - case_bool_decide as Hd.
    + exists 0. split_and!; [lia|lia|done|]. by intros ? [= ->].
    + destruct (IH (S i)) as (k & Hk & Hle & Hall & Hnext).
      exists (S k). split_and!; [lia|lia| |done].
      simpl. apply Forall_cons. split; [unfold expired; lia|done].
Qed.

Lemma applyDelete_lookup pods d (identifier : PodIdentifier) :
  applyDelete pods d !! identifier =
  match pods !! identifier with
  | Some p => if decide (removes identifier p d) then None else Some p
  | None => None
  end.
Proof.
  unfold applyDelete, removes.
  destruct (decide (Req_id d = identifier)) as [<-|Hne].
  - destruct (pods !! Req_id d) as [p|] eqn:Hp; [|by rewrite Hp].
    destruct (decide (Pod_Name p = Req_podName d)) as [Hn|Hn].
    + rewrite lookup_delete_eq. by rewrite decide_True.
    + rewrite Hp. rewrite decide_False; [done|]. naive_solver.
  - assert (applyDelete pods d !! identifier = pods !! identifier) as Hsame.
    { unfold applyDelete. destruct (pods !! Req_id d) as [p|]; [|done].
      case_decide; [|done]. by rewrite lookup_delete_ne. }
    unfold applyDelete in Hsame. rewrite Hsame.
    destruct (pods !! identifier) as [p|]; [|done].
    rewrite decide_False; [done|]. naive_solver.
Qed.

Lemma foldl_applyDelete_lookup reqs : ∀ pods (identifier : PodIdentifier),
  foldl applyDelete pods reqs !! identifier =
  match pods !! identifier with
  | Some p => if decide (Exists (removes identifier p) reqs) then None else Some p
  | None => None
  end.
Proof.
  induction reqs as [|d reqs IH]; intros pods identifier.
  - change (foldl applyDelete pods []) with pods.
    destruct (pods !! identifier) as [p|]; [|done].
    case_decide as He; [by apply Exists_nil in He|done].
  - change (foldl applyDelete pods (d :: reqs))
      with (foldl applyDelete (applyDelete pods d) reqs).
    rewrite IH, applyDelete_lookup.
    destruct (pods !! identifier) as [p|]; [|done].
    destruct (decide (removes identifier p d)) as [Hr|Hr].
    + case_decide as He; [done|]. destruct He. by left.
    + destruct (decide (Exists (removes identifier p) reqs)) as [He|He].
      * case_decide as He'; [done|]. destruct He'. by right.
      * case_decide as He'; [|done]. by apply Exists_cons in He' as [?|?].
Qed.

(** A round of the delete loop splits the queue into the requests it
    applies, all expired, and the rest, which starts with a request that is
    not. *)
Lemma deleteLoop_split g c now :
  ∃ toDelete,
    deleteQueue c = toDelete ++ deleteQueue (deleteLoop g c now) ∧
    Forall (expired now g) toDelete ∧
    (∀ d, head (deleteQueue (deleteLoop g c now)) = Some d →
          (now < Req_ts d + g)%Z) ∧
    Pods (deleteLoop g c now) = foldl applyDelete (Pods c) toDelete.
Proof.
  destruct (scanCutoff_spec now g (deleteQueue c) 0) as (k & Hk & Hle & Hall & Hnext).
  exists (take k (deleteQueue c)). unfold deleteLoop. simpl. rewrite Hk. simpl.
  split_and!; [by rewrite take_drop|done| |done].
  intros d Hd. apply Hnext.
  rewrite head_lookup, lookup_drop, Nat.add_0_r in Hd. done.
Qed.

Lemma deleteLoop_lookup g c now (identifier : PodIdentifier) :
  ∃ toDelete,
    deleteQueue c = toDelete ++ deleteQueue (deleteLoop g c now) ∧
    Forall (expired now g) toDelete ∧
    Pods (deleteLoop g c now) !! identifier =
    match Pods c !! identifier with
    | Some p => if decide (Exists (removes identifier p) toDelete) then None else Some p
    | None => None
    end.
Proof.
  destruct (deleteLoop_split g c now) as (toDelete & Hq & Hall & _ & Hp).
  exists toDelete. split_and!; [done|done|].
  rewrite Hp. apply foldl_applyDelete_lookup.
Qed.

Lemma GetPod_None c (identifier : PodIdentifier) :
  Pods c !! identifier = None → (GetPod c identifier).1 = None.
Proof. unfold GetPod. by intros ->. Qed.

Lemma GetPod_same_entry c c' (identifier : PodIdentifier) :
  Pods c' !! identifier = Pods c !! identifier →
  (GetPod c' identifier).1 = (GetPod c identifier).1.
Proof.
  unfold GetPod. intros ->.
  destruct (Pods c !! identifier) as [p|]; [|done]. by destruct (Pod_Ignore p).
Qed.

(** C2.  A request applied by the delete loop removes the entry under its
    identifier only when the stored record's name equals the pod name of the
    request, and touches no other entry.  So a round of the loop removes an
    entry only through an expired request for that identifier that names the
    stored record; an entry whose identifier now maps to a pod of another
    name than every queued request for it stays. *)
Theorem deleteLoop_name_guard :
  (∀ pods d (identifier : PodIdentifier) p,
     pods !! identifier = Some p →
     applyDelete pods d !! identifier =
       if decide (Req_id d = identifier ∧ Req_podName d = Pod_Name p)
       then None else Some p)
  ∧
  (∀ g c now (identifier : PodIdentifier) p,
     Pods c !! identifier = Some p →
     (Pods (deleteLoop g c now) !! identifier = Some p ∨
      Pods (deleteLoop g c now) !! identifier = None) ∧
     (Pods (deleteLoop g c now) !! identifier = None →
      ∃ d, d ∈ deleteQueue c ∧ Req_id d = identifier ∧
           Req_podName d = Pod_Name p ∧ expired now g d) ∧
     ((∀ d, d ∈ deleteQueue c → Req_id d = identifier →
            Req_podName d ≠ Pod_Name p) →
      Pods (deleteLoop g c now) !! identifier = Some p)).
Proof.
  split.
  - intros pods d identifier p Hp. rewrite applyDelete_lookup, Hp. done.
  - intros g c now identifier p Hp.
    destruct (deleteLoop_lookup g c now identifier) as (toDelete & Hq & Hall & Hl).
    rewrite Hp in Hl. rewrite Hl.
    destruct (decide (Exists (removes identifier p) toDelete)) as [He|He].
    + split_and!; [by right| |].
      * intros _. apply Exists_exists in He as (d & Hin & Hid & Hname).
        exists d. split_and!; [|done|done|].
        -- rewrite Hq. apply elem_of_app. by left.
        -- by apply (proj1 (Forall_forall _ _) Hall).
      * intros Hno. exfalso.
        apply Exists_exists in He as (d & Hin & Hid & Hname).
        apply (Hno d); [|done|done]. rewrite Hq. apply elem_of_app. by left.
    + split_and!; [by left|done|done].
Qed.

(** C3 (amended).  A round of the delete loop at [now] applies the requests
    at the head of the queue whose grace period is over and stops at the
    first one for which it is not: a request enqueued at T is never applied
    before T plus the grace period.  The entry under an identifier stays,
    and stays queryable, as long as every queued request that would remove
    it (same identifier, pod name of the stored record) is younger than the
    grace period; an older request of that kind, queued for an earlier pod of
    the same name, removes it before.  With the queue in the order of its
    timestamps, a round at or after T plus the grace period removes the
    entry of a request enqueued at T if the stored name still matches, and
    leaves only requests younger than the grace period. *)
Theorem deleteLoop_grace_period g c now :
  (∃ toDelete,
     deleteQueue c = toDelete ++ deleteQueue (deleteLoop g c now) ∧
     Forall (expired now g) toDelete ∧
     (∀ d, head (deleteQueue (deleteLoop g c now)) = Some d →
           (now < Req_ts d + g)%Z) ∧
     Pods (deleteLoop g c now) = foldl applyDelete (Pods c) toDelete)
  ∧
  (∀ (identifier : PodIdentifier) p,
     Pods c !! identifier = Some p →
     (∀ d, d ∈ deleteQueue c → removes identifier p d → (now < Req_ts d + g)%Z) →
     Pods (deleteLoop g c now) !! identifier = Some p ∧
     (GetPod (deleteLoop g c now) identifier).1 = (GetPod c identifier).1)
  ∧
  (queueOrdered (deleteQueue c) →
   Forall (λ d, (now < Req_ts d + g)%Z) (deleteQueue (deleteLoop g c now)) ∧
   ∀ d p, d ∈ deleteQueue c → expired now g d →
          Pods c !! Req_id d = Some p → Pod_Name p = Req_podName d →
          Pods (deleteLoop g c now) !! Req_id d = None ∧
          (GetPod (deleteLoop g c now) (Req_id d)).1 = None).
Proof.
  split_and!.
  - apply deleteLoop_split.
  - intros identifier p Hp Hyoung.
    destruct (deleteLoop_lookup g c now identifier) as (toDelete & Hq & Hall & Hl).
    rewrite Hp in Hl.
    assert (Pods (deleteLoop g c now) !! identifier = Some p) as Hsame.
    { rewrite Hl. case_decide as He; [|done]. exfalso.
      apply Exists_exists in He as (d & Hin & Hrem).
      assert (now < Req_ts d + g)%Z.
      { apply Hyoung; [|done]. rewrite Hq. apply elem_of_app. by left. }
      pose proof (proj1 (Forall_forall _ _) Hall d Hin) as Hexp.
      unfold expired in Hexp. lia. }
    split; [done|]. apply GetPod_same_entry. by rewrite Hsame, Hp.
  - intros Hord.
    destruct (deleteLoop_split g c now) as (toDelete & Hq & Hall & Hhead & Hpods).
    assert (Forall (λ d, (now < Req_ts d + g)%Z) (deleteQueue (deleteLoop g c now)))
      as Hrest.
    { destruct (deleteQueue (deleteLoop g c now)) as [|h rest] eqn:Hr; [done|].
      specialize (Hhead h eq_refl).
      apply Forall_forall. intros e [j Hj]%list_elem_of_lookup.
      assert (Req_ts h ≤ Req_ts e)%Z; [|lia].
      apply (Hord (length toDelete + 0) (length toDelete + j)); [| |lia].
      - rewrite Hq. by rewrite lookup_app_r, Nat.add_0_r, Nat.sub_diag by lia.
      - rewrite Hq. rewrite lookup_app_r by lia.
        by replace (length toDelete + j - length toDelete) with j by lia. }
    split; [done|]. intros d p Hin Hexp Hp Hname.
    assert (Pods (deleteLoop g c now) !! Req_id d = None) as Hgone.
    { rewrite Hpods, foldl_applyDelete_lookup, Hp.
      rewrite decide_True; [done|]. apply Exists_exists. exists d. split; [|done].
      rewrite Hq in Hin. apply elem_of_app in Hin as [?|Hin]; [done|].
      pose proof (proj1 (Forall_forall _ _) Hrest d Hin) as Hy.
      unfold expired in Hexp. simpl in Hy. lia. }
    split; [done|]. by apply GetPod_None.
Qed.

(** ** Forgetting a pod *)

Lemma queuedFor_true pods name (identifier : PodIdentifier) :
  queuedFor pods name identifier = true ↔
  ∃ p, pods !! identifier = Some p ∧ Pod_Ignore p = false ∧ Pod_Name p = name.
Proof.
  unfold queuedFor. destruct (pods !! identifier) as [p|]; [|naive_solver].
  rewrite andb_true_iff, negb_true_iff, bool_decide_eq_true. naive_solver.
Qed.

Lemma forgetIdentifier_step pod time_Now c k (identifier : PodIdentifier) :
  let st := forgetIdentifier pod time_Now (c, k) identifier in
  Pods st.1 = Pods c ∧
  st.1 = with_telemetry (with_deleteQueue c (deleteQueue st.1)) (telemetryBuilder st.1) ∧
  if queuedFor (Pods c) (Meta_Name (Meta pod)) identifier
  then deleteQueue st.1 =
         deleteQueue c ++ [mkDeleteRequest identifier (Meta_Name (Meta pod)) (time_Now k)]
       ∧ st.2 = S k
  else deleteQueue st.1 = deleteQueue c ∧ st.2 = k.
Proof.
  unfold forgetIdentifier, GetPod, queuedFor. simpl.
  destruct (Pods c !! identifier) as [p|] eqn:Hp.
  - destruct (Pod_Ignore p); simpl; [by destruct c|].
    case_decide as Hn.
    + rewrite bool_decide_eq_true_2 by done. by destruct c.
    + rewrite bool_decide_eq_false_2 by done. by destruct c.
  - by destruct c.
Qed.

Lemma forgetIdentifier_fold pod time_Now ids : ∀ c k,
  let st := foldl (forgetIdentifier pod time_Now) (c, k) ids in
  Pods st.1 = Pods c ∧
  st.1 = with_telemetry (with_deleteQueue c (deleteQueue st.1)) (telemetryBuilder st.1) ∧
  deleteQueue st.1 =
    deleteQueue c ++ newRequests (Pods c) (Meta_Name (Meta pod)) time_Now k ids.
Proof.
  induction ids as [|identifier ids IH]; intros c k.
  - simpl. unfold newRequests. simpl. rewrite app_nil_r. by destruct c.
  - change (foldl ?f (c, k) (identifier :: ids))
      with (foldl f (f (c, k) identifier) ids).
    pose proof (forgetIdentifier_step pod time_Now c k identifier) as Hstep.
    destruct (forgetIdentifier pod time_Now (c, k) identifier) as [c1 k1].
    simpl in Hstep. destruct Hstep as (Hp1 & Hf1 & Hq1).
    destruct (IH c1 k1) as (Hp & Hf & Hq). simpl.
    split_and!.
    + by rewrite Hp.
    + rewrite Hf at 1. rewrite Hf1 at 1. reflexivity.
    + rewrite Hq, Hp1. unfold newRequests. rewrite filter_cons.
      destruct (queuedFor (Pods c) (Meta_Name (Meta pod)) identifier) eqn:Hqf.
      * destruct Hq1 as [-> ->]. rewrite decide_True by done.
        rewrite <- app_assoc. simpl. rewrite Nat.add_0_r. do 2 f_equal.
        apply imap_ext. intros j x _. simpl. do 2 f_equal. lia.
      * destruct Hq1 as [-> ->]. rewrite decide_False; [done|].
        by intros ?.
Qed.

Lemma forgetPod_spec c pod time_Now c' :
  forgetPod c pod time_Now = Some c' →
  ∃ ids,
    getIdentifiersFromAssoc c (podFromAPI c pod) = Some ids ∧
    Pods c' = Pods c ∧
    c' = with_telemetry (with_deleteQueue c (deleteQueue c')) (telemetryBuilder c') ∧
    deleteQueue c' =
      deleteQueue c ++ newRequests (Pods c) (Meta_Name (Meta pod)) time_Now 0 ids.
Proof.
  unfold forgetPod. intros Hf.
  destruct (getIdentifiersFromAssoc c (podFromAPI c pod)) as [ids|]; [|done].
  simpl in Hf. simplify_eq. exists ids. split; [done|].
  apply forgetIdentifier_fold.
Qed.

Lemma newRequests_elem pods name time_Now k ids d :
  d ∈ newRequests pods name time_Now k ids →
  Req_id d ∈ ids ∧ Req_podName d = name ∧ (∃ j, Req_ts d = time_Now j) ∧
  ∃ p, pods !! Req_id d = Some p ∧ Pod_Ignore p = false ∧ Pod_Name p = name.
Proof.
  unfold newRequests. intros (j & identifier & -> & Hj)%elem_of_lookup_imap.
  apply list_elem_of_lookup_2, list_elem_of_filter in Hj as [Hq Hin].
  simpl. split_and!; [done|done|eauto|].
  apply queuedFor_true. by apply Is_true_true.
Qed.

Lemma addOrUpdatePod_keeps_entries c pod c' (identifier : PodIdentifier) :
  addOrUpdatePod c pod = Some c' →
  is_Some (Pods c !! identifier) → is_Some (Pods c' !! identifier).
Proof.
  intros Hc [p Hp].
  destruct (addOrUpdatePod_identifiers _ _ _ Hc) as [ids Hids].
  rewrite (addOrUpdatePod_lookup _ _ _ _ identifier Hc Hids), Hp.
  case_decide; [|eauto]. simpl. case_match; eauto.
Qed.

Lemma handlePodDelete_Pods c obj time_Now c' :
  handlePodDelete c obj time_Now = Some c' → Pods c' = Pods c.
Proof.
  unfold handlePodDelete. intros Hh.
  destruct (ignoreDeletedFinalStateUnknown obj) as [pod| | | | | | |];
    simpl in Hh; simplify_eq; try done.
  destruct (forgetPod _ pod time_Now) as [c1|] eqn:Hf; simpl in Hh; simplify_eq.
  apply forgetPod_spec in Hf as (ids & _ & Hp & _). simpl. by rewrite Hp.
Qed.

Lemma Start_spec c c' :
  Start c = Some c' →
  Pods c' = Pods c ∧ deleteQueue c' = deleteQueue c ∧ Rules c' = Rules c ∧
  ReplicaSets c' = ReplicaSets c ∧
  (DeploymentName (Rules c) || DeploymentUID (Rules c) = false →
   replicasetInformer c' = replicasetInformer c).
Proof.
  unfold Start. intros Hs.
  destruct (DeploymentName (Rules c) || DeploymentUID (Rules c));
    destruct (replicasetInformer c), (namespaceInformer c), (informer c);
    simpl in Hs; simplify_eq; done.
Qed.

(** Every transition but a round of the delete loop keeps the entries of
    the pod table. *)
Lemma handle_keeps_entries c ev c' (identifier : PodIdentifier) :
  (∀ now, ev ≠ EvDeleteLoop now) →
  handle c ev = Some c' →
  is_Some (Pods c !! identifier) → is_Some (Pods c' !! identifier).
Proof.
  intros Hev Hh Hsome.
  destruct ev as [|k n time_Now|now]; [| |by destruct (Hev now)].
  - simpl in Hh. apply Start_spec in Hh as (-> & _). done.
  - destruct k, n as [obj|oldObj newObj|obj]; simpl in Hh;
      try (simplify_eq;
           unfold handleNamespaceAdd, handleNamespaceUpdate, handleNamespaceDelete,
             handleNodeAdd, handleNodeUpdate, handleNodeDelete,
             handleDeploymentAdd, handleDeploymentUpdate, handleDeploymentDelete,
             handleStatefulSetAdd, handleStatefulSetUpdate, handleStatefulSetDelete,
             handleReplicaSetAdd, handleReplicaSetUpdate, handleReplicaSetDelete,
             addOrUpdateNamespace, addOrUpdateNode, addOrUpdateDeployment,
             addOrUpdateStatefulSet, addOrUpdateReplicaSet;
           repeat case_match; done).
    + unfold handlePodAdd in Hh.
      destruct obj as [pod| | | | | | |]; simpl in Hh; simplify_eq; try done.
      destruct (addOrUpdatePod _ pod) as [c1|] eqn:Ha; simpl in Hh; simplify_eq.
      simpl. by eapply addOrUpdatePod_keeps_entries.
    + unfold handlePodUpdate in Hh.
      destruct newObj as [pod| | | | | | |]; simpl in Hh; simplify_eq; try done.
      destruct (addOrUpdatePod _ pod) as [c1|] eqn:Ha; simpl in Hh; simplify_eq.
      simpl. by eapply addOrUpdatePod_keeps_entries.
    + apply handlePodDelete_Pods in Hh. by rewrite Hh.
Qed.

(** C8.  [forgetPod] leaves the pod table as it is and appends to the
    delete queue one request (identifier, pod name, reading of the clock) for
    each identifier of the pod under which the table holds a record that
    [GetPod] returns and that has the deleted pod's name; so does
    [handlePodDelete].  No transition other than a round of the delete loop
    removes an entry of the pod table.  [forgetPod] returns whenever no
    association has more sources than an identifier has positions. *)
Theorem forgetPod_only_enqueues :
  (∀ c pod time_Now c',
     forgetPod c pod time_Now = Some c' →
     Pods c' = Pods c ∧
     ∃ ids reqs,
       getIdentifiersFromAssoc c (podFromAPI c pod) = Some ids ∧
       deleteQueue c' = deleteQueue c ++ reqs ∧
       reqs = newRequests (Pods c) (Meta_Name (Meta pod)) time_Now 0 ids ∧
       (∀ d, d ∈ reqs →
          Req_id d ∈ ids ∧ Req_podName d = Meta_Name (Meta pod) ∧
          (∃ j, Req_ts d = time_Now j) ∧
          ∃ p, (GetPod c (Req_id d)).1 = Some p ∧
               Pod_Name p = Meta_Name (Meta pod)) ∧
       (∀ identifier p, identifier ∈ ids →
          (GetPod c identifier).1 = Some p → Pod_Name p = Meta_Name (Meta pod) →
          ∃ d, d ∈ reqs ∧ Req_id d = identifier))
  ∧
  (∀ c obj time_Now c',
     handlePodDelete c obj time_Now = Some c' → Pods c' = Pods c)
  ∧
  (∀ c ev c' (identifier : PodIdentifier),
     (∀ now, ev ≠ EvDeleteLoop now) →
     handle c ev = Some c' →
     is_Some (Pods c !! identifier) → is_Some (Pods c' !! identifier))
  ∧
  (∀ c pod time_Now,
     Forall (λ assoc, length (Sources assoc) ≤ PodIdentifierMaxLength)
            (Associations c) →
     is_Some (forgetPod c pod time_Now)).
Proof.
  split_and!; [| | |apply forgetPod_total].
  - intros c pod time_Now c' Hf.
    apply forgetPod_spec in Hf as (ids & Hids & Hp & _ & Hq).
    split; [done|]. eexists ids, _. split_and!; [done|done|done| |].
    + intros d Hd. apply newRequests_elem in Hd as (Hin & Hn & Ht & p & Hp' & Hi & Hpn).
      split_and!; [done|done|done|]. exists p. split; [|done].
      apply GetPod_Some. done.
    + intros identifier p Hin Hg Hn.
      apply GetPod_Some in Hg as [Hl Hi].
      assert (identifier ∈ filter (queuedFor (Pods c) (Meta_Name (Meta pod))) ids)
        as [j Hj]%list_elem_of_lookup.
      { apply list_elem_of_filter. split; [|done].
        apply Is_true_true, queuedFor_true. eauto. }
      exists (mkDeleteRequest identifier (Meta_Name (Meta pod)) (time_Now (0 + j))).
      split; [|done].
      unfold newRequests. apply (list_elem_of_lookup_2 _ j).
      by rewrite list_lookup_imap, Hj.
  - apply handlePodDelete_Pods.
  - apply handle_keeps_entries.
Qed.

(** ** The order of the delete queue *)

Lemma queueOrdered_same_time t queue :
  Forall (λ d, Req_ts d = t) queue → queueOrdered queue.
Proof.
  intros Hall i j d e Hd He _.
  apply list_elem_of_lookup_2 in Hd, He.
  rewrite (proj1 (Forall_forall _ _) Hall d Hd).
  by rewrite (proj1 (Forall_forall _ _) Hall e He).
Qed.

Lemma queueOrdered_deleteLoop g c now :
  queueOrdered (deleteQueue c) → queueOrdered (deleteQueue (deleteLoop g c now)).
Proof.
  intros Hord i j d e Hd He Hij.
  destruct (deleteLoop_split g c now) as (toDelete & Hq & _).
  apply (Hord (length toDelete + i) (length toDelete + j)); [| |lia].
  - rewrite Hq, lookup_app_r by lia.
    by replace (length toDelete + i - length toDelete) with i by lia.
  - rewrite Hq, lookup_app_r by lia.
    by replace (length toDelete + j - length toDelete) with j by lia.
Qed.

(** With a clock that does not run backwards, [forgetPod] keeps the queue
    in the order of its timestamps. *)
Lemma queueOrdered_forgetPod c pod time_Now c' :
  queueOrdered (deleteQueue c) →
  (∀ j k, j ≤ k → (time_Now j ≤ time_Now k)%Z) →
  (∀ d, d ∈ deleteQueue c → (Req_ts d ≤ time_Now 0%nat)%Z) →
  forgetPod c pod time_Now = Some c' →
  queueOrdered (deleteQueue c').
Proof.
  intros Hord Hmono Hpast Hf.
  apply forgetPod_spec in Hf as (ids & _ & _ & _ & Hq).
  assert (∀ i d, newRequests (Pods c) (Meta_Name (Meta pod)) time_Now 0 ids !! i = Some d →
                 Req_ts d = time_Now i) as Hnew.
  { intros i d Hi. unfold newRequests in Hi. rewrite list_lookup_imap in Hi.
    destruct (filter _ ids !! i); simplify_eq/=. done. }
  intros i j d e Hd He Hij. rewrite Hq in Hd, He.
  apply lookup_app_Some in Hd as [Hd|[Hlen Hd]],
    He as [He|[Hlen' He]].
  - by apply (Hord i j).
  - apply Hnew in He. rewrite He.
    etrans; [apply Hpast; by eapply list_elem_of_lookup_2|].
    apply Hmono. lia.
  - apply lookup_lt_Some in He. lia.
  - apply Hnew in Hd, He. rewrite Hd, He. apply Hmono. lia.
Qed.

Lemma handle_deleteQueue c ev c' :
  (∀ obj time_Now, ev ≠ EvNotify KPod (OnDelete obj) time_Now) →
  (∀ now, ev ≠ EvDeleteLoop now) →
  handle c ev = Some c' → deleteQueue c' = deleteQueue c.
Proof.
  intros Hdel Hloop Hh.
  destruct ev as [|k n time_Now|now]; [| |by destruct (Hloop now)].
  - simpl in Hh. by apply Start_spec in Hh as (_ & -> & _).
  - destruct k, n as [obj|oldObj newObj|obj]; simpl in Hh;
      try (by destruct (Hdel obj time_Now));
      try (simplify_eq;
           unfold handleNamespaceAdd, handleNamespaceUpdate, handleNamespaceDelete,
             handleNodeAdd, handleNodeUpdate, handleNodeDelete,
             handleDeploymentAdd, handleDeploymentUpdate, handleDeploymentDelete,
             handleStatefulSetAdd, handleStatefulSetUpdate, handleStatefulSetDelete,
             handleReplicaSetAdd, handleReplicaSetUpdate, handleReplicaSetDelete,
             addOrUpdateNamespace, addOrUpdateNode, addOrUpdateDeployment,
             addOrUpdateStatefulSet, addOrUpdateReplicaSet;
           repeat case_match; done).
    + unfold handlePodAdd in Hh.
      destruct obj as [pod| | | | | | |]; simpl in Hh; simplify_eq; try done.
      destruct (addOrUpdatePod _ pod) as [c1|] eqn:Ha; simpl in Hh; simplify_eq.
      rewrite (addOrUpdatePod_frame _ _ _ Ha). done.
    + unfold handlePodUpdate in Hh.
      destruct newObj as [pod| | | | | | |]; simpl in Hh; simplify_eq; try done.
      destruct (addOrUpdatePod _ pod) as [c1|] eqn:Ha; simpl in Hh; simplify_eq.
      rewrite (addOrUpdatePod_frame _ _ _ Ha). done.
Qed.

(** Along a run whose clock does not go back the queue stays in the order of
    its timestamps. *)
Lemma run_queueOrdered evs : ∀ c c' t,
  queueOrdered (deleteQueue c) →
  (∀ d, d ∈ deleteQueue c → (Req_ts d ≤ t)%Z) →
  clockOrdered t evs →
  run c evs = Some c' →
  queueOrdered (deleteQueue c').
Proof.
  induction evs as [|ev evs IH]; intros c c' t Hord Hpast Hclock Hrun;
    simpl in Hrun.
  - by simplify_eq.
  - destruct (enabled c ev); [|done].
    destruct (handle c ev) as [c1|] eqn:Hh; [|done]. simpl in Hrun.
    destruct ev as [|k n time_Now|now].
    + assert (deleteQueue c1 = deleteQueue c) as Hq
        by (by apply (handle_deleteQueue c EvStart c1)).
      apply (IH c1 c' t); [| |done|done]; by rewrite Hq.
    + destruct Hclock as (Hmono & t' & Hbound & Hclock).
      assert (∀ d, d ∈ deleteQueue c → (Req_ts d ≤ t')%Z) as Hpast'.
      { intros d Hd. specialize (Hpast d Hd). specialize (Hbound 0). lia. }
      assert ((∃ obj, k = KPod ∧ n = OnDelete obj)
              ∨ ¬ (∃ obj, k = KPod ∧ n = OnDelete obj)) as [(obj & -> & ->)|Hno].
      { destruct k, n; try (right; intros (? & ? & ?); done); left; eauto. }
      * simpl in Hh. unfold handlePodDelete in Hh.
        destruct (ignoreDeletedFinalStateUnknown obj) as [pod| | | | | | |];
          simpl in Hh; simplify_eq;
          try (refine (IH _ c' t' _ _ Hclock Hrun); [exact Hord|exact Hpast']).
        destruct (forgetPod _ pod time_Now) as [c2|] eqn:Hf; simpl in Hh; simplify_eq.
        apply (IH (recordPodTableSize c2) c' t'); [| |done|done]; simpl.
        -- refine (queueOrdered_forgetPod
                     (telemetry_Add "OtelsvcK8sPodDeleted" 1 c) pod time_Now c2
                     Hord Hmono _ Hf).
           intros d Hd. specialize (Hpast d Hd). specialize (Hbound 0). lia.
        -- intros d Hd. apply forgetPod_spec in Hf as (ids & _ & _ & _ & Hq).
           rewrite Hq in Hd. simpl in Hd.
           apply elem_of_app in Hd as [Hd|Hd]; [by apply Hpast'|].
           apply newRequests_elem in Hd as (_ & _ & [j ->] & _).
           apply Hbound.
      * assert (deleteQueue c1 = deleteQueue c) as Hq.
        { apply (handle_deleteQueue c (EvNotify k n time_Now) c1); [|done|done].
          intros obj t0 [= -> -> _]. apply Hno. eauto. }
        apply (IH c1 c' t'); [| |done|done]; by rewrite Hq.
    + simpl in Hh. simplify_eq.
      apply (IH (deleteLoop defaultPodDeleteGracePeriod c now) c' t);
        [by apply queueOrdered_deleteLoop| |done|done].
      intros d Hd. apply Hpast.
      destruct (deleteLoop_split defaultPodDeleteGracePeriod c now)
        as (toDelete & Hq & _).
      rewrite Hq. apply elem_of_app. by right.
Qed.

(** C10 (amended).  A delete notification queues no request for an
    identifier whose stored record has the ignore flag set, because
    [forgetPod] asks [GetPod], which hides such records; if every identifier
    of the pod holds such a record the queue does not change.  The entry is
    then not removed by the delete loop on account of this notification: it
    stays through the following round unless the queue already held a
    request for the identifier with the record's pod name.  The loop itself
    does not look at the ignore flag.  [forgetPod] returns whenever no
    association has more sources than an identifier has positions. *)
Theorem ignored_entry_not_queued c pod time_Now :
  (Forall (λ assoc, length (Sources assoc) ≤ PodIdentifierMaxLength)
          (Associations c) →
   is_Some (forgetPod c pod time_Now)) ∧
  ∀ c',
  forgetPod c pod time_Now = Some c' →
  (∀ (identifier : PodIdentifier) p,
     Pods c !! identifier = Some p → Pod_Ignore p = true →
     (∀ d, d ∈ deleteQueue c' → Req_id d = identifier → d ∈ deleteQueue c) ∧
     (∀ g now,
        (∀ d, d ∈ deleteQueue c → ¬ removes identifier p d) →
        Pods (deleteLoop g c' now) !! identifier = Some p))
  ∧
  (∀ ids,
     getIdentifiersFromAssoc c (podFromAPI c pod) = Some ids →
     (∀ identifier p, identifier ∈ ids → Pods c !! identifier = Some p →
                      Pod_Ignore p = true) →
     deleteQueue c' = deleteQueue c).
Proof.
  split; [apply forgetPod_total|].
  intros c' Hf. apply forgetPod_spec in Hf as (ids & Hids & Hp & _ & Hq).
  split.
  - intros identifier p Hl Hi.
    assert (∀ d, d ∈ deleteQueue c' → Req_id d = identifier → d ∈ deleteQueue c)
      as Hold.
    { intros d Hd Hid. rewrite Hq in Hd. apply elem_of_app in Hd as [?|Hd]; [done|].
      apply newRequests_elem in Hd as (_ & _ & _ & p' & Hp' & Hi' & _).
      rewrite Hid, Hl in Hp'. simplify_eq. congruence. }
    split; [done|]. intros g now Hno.
    destruct (deleteLoop_lookup g c' now identifier) as (toDelete & Hq' & _ & Hlk).
    rewrite Hlk, Hp, Hl. case_decide as He; [|done]. exfalso.
    apply Exists_exists in He as (d & Hin & Hrem).
    apply (Hno d); [|done]. apply Hold; [|by destruct Hrem].
    rewrite Hq'. apply elem_of_app. by left.
  - intros ids' Hids' Hall. rewrite Hids in Hids'. simplify_eq.
    rewrite Hq.
    destruct (newRequests (Pods c) (Meta_Name (Meta pod)) time_Now 0 ids')
      as [|d reqs] eqn:Hnew; [by rewrite app_nil_r|].
    exfalso.
    assert (d ∈ newRequests (Pods c) (Meta_Name (Meta pod)) time_Now 0 ids') as Hd
      by (rewrite Hnew; left).
    apply newRequests_elem in Hd as (Hin & _ & _ & p & Hp' & Hi & _).
    specialize (Hall _ _ Hin Hp'). congruence.
Qed.

(** ** The replica set watch *)

Lemma addOrUpdatePod_wiring c pod c' :
  addOrUpdatePod c pod = Some c' →
  Rules c' = Rules c ∧ replicasetInformer c' = replicasetInformer c ∧
  ReplicaSets c' = ReplicaSets c.
Proof. intros Hc. rewrite (addOrUpdatePod_frame _ _ _ Hc). done. Qed.

Lemma forgetPod_wiring c pod time_Now c' :
  forgetPod c pod time_Now = Some c' →
  Rules c' = Rules c ∧ replicasetInformer c' = replicasetInformer c ∧
  ReplicaSets c' = ReplicaSets c.
Proof.
  intros Hf. apply forgetPod_spec in Hf as (ids & _ & _ & Hfr & _).
  rewrite Hfr. done.
Qed.

Lemma handle_noReplicaSetWatch rules c ev c' :
  DeploymentName rules = false → DeploymentUID rules = false →
  noReplicaSetWatch rules c →
  enabled c ev = true → handle c ev = Some c' →
  noReplicaSetWatch rules c'.
Proof.
  intros Hdn Hdu (Hr & Hi & Hrs) Hen Hh. unfold noReplicaSetWatch.
  destruct ev as [|k n time_Now|now].
  - simpl in Hh. apply Start_spec in Hh as (_ & _ & -> & -> & Hinf).
    rewrite Hinf by (by rewrite Hr, Hdn, Hdu). done.
  - destruct k, n as [obj|oldObj newObj|obj]; simpl in Hh, Hen;
      try (rewrite Hi in Hen; done);
      try (simplify_eq;
           unfold handleNamespaceAdd, handleNamespaceUpdate, handleNamespaceDelete,
             handleNodeAdd, handleNodeUpdate, handleNodeDelete,
             handleDeploymentAdd, handleDeploymentUpdate, handleDeploymentDelete,
             handleStatefulSetAdd, handleStatefulSetUpdate, handleStatefulSetDelete,
             addOrUpdateNamespace, addOrUpdateNode, addOrUpdateDeployment,
             addOrUpdateStatefulSet;
           repeat case_match; done).
    + unfold handlePodAdd in Hh.
      destruct obj as [pod| | | | | | |]; simpl in Hh; simplify_eq; try done.
      destruct (addOrUpdatePod _ pod) as [c1|] eqn:Ha; simpl in Hh; simplify_eq.
      apply addOrUpdatePod_wiring in Ha as (? & ? & ?). simpl in *. split_and!; congruence.
    + unfold handlePodUpdate in Hh.
      destruct newObj as [pod| | | | | | |]; simpl in Hh; simplify_eq; try done.
      destruct (addOrUpdatePod _ pod) as [c1|] eqn:Ha; simpl in Hh; simplify_eq.
      apply addOrUpdatePod_wiring in Ha as (? & ? & ?). simpl in *. split_and!; congruence.
    + unfold handlePodDelete in Hh.
      destruct (ignoreDeletedFinalStateUnknown obj) as [pod| | | | | | |];
        simpl in Hh; simplify_eq; try done.
      destruct (forgetPod _ pod time_Now) as [c1|] eqn:Hf; simpl in Hh; simplify_eq.
      apply forgetPod_wiring in Hf as (? & ? & ?). simpl in *. split_and!; congruence.
  - simpl in Hh. simplify_eq. done.
Qed.

Lemma run_noReplicaSetWatch rules evs : ∀ c c',
  DeploymentName rules = false → DeploymentUID rules = false →
  noReplicaSetWatch rules c → run c evs = Some c' → noReplicaSetWatch rules c'.
Proof.
  induction evs as [|ev evs IH]; intros c c' Hdn Hdu Hinv Hrun; simpl in Hrun.
  - by simplify_eq.
  - destruct (enabled c ev) eqn:Hen; [|done].
    destruct (handle c ev) as [c1|] eqn:Hh; [|done]. simpl in Hrun.
    eapply IH; [done|done| |done]. by eapply handle_noReplicaSetWatch.
Qed.

(** C9.  When neither the deployment-name nor the deployment-UID rule is
    configured, [New] creates no replica set informer, and in every state a
    run of the client reaches no replica set informer exists, none of its
    notifications can be delivered, the replica set store is empty, and
    [podFromAPI] gives every pod an empty deployment UID, whatever owner
    references the pod carries. *)
Theorem no_deployment_rule_no_replicaset_watch rules associations exclude :
  DeploymentName rules = false →
  DeploymentUID rules = false →
  replicasetInformer (New rules associations exclude) = None ∧
  ∀ evs c,
    run (New rules associations exclude) evs = Some c →
    replicasetInformer c = None ∧
    (∀ n time_Now, enabled c (EvNotify KReplicaSet n time_Now) = false) ∧
    ReplicaSets c = ∅ ∧
    ∀ pod, Pod_DeploymentUID (podFromAPI c pod) = "".
Proof.
  intros Hdn Hdu.
  assert (replicasetInformer (New rules associations exclude) = None) as Hnew.
  { simpl. by rewrite Hdn, Hdu. }
  split; [done|]. intros evs c Hrun.
  assert (noReplicaSetWatch rules (New rules associations exclude)) as Hinv.
  { by split_and!. }
  destruct (run_noReplicaSetWatch rules evs _ _ Hdn Hdu Hinv Hrun) as (Hr & Hi & Hrs).
  split_and!; [done| |done|].
  - intros n t. simpl. by rewrite Hi.
  - intros pod. unfold podFromAPI, getReplicaSet. simpl.
    by rewrite Hrs, lookup_empty.
Qed.


End Properties.

(** * More properties *)

Ltac unfold_handlers :=
  unfold handleNamespaceAdd, handleNamespaceUpdate, handleNamespaceDelete,
    handleNodeAdd, handleNodeUpdate, handleNodeDelete,
    handleDeploymentAdd, handleDeploymentUpdate, handleDeploymentDelete,
    handleStatefulSetAdd, handleStatefulSetUpdate, handleStatefulSetDelete,
    handleReplicaSetAdd, handleReplicaSetUpdate, handleReplicaSetDelete,
    addOrUpdateNamespace, addOrUpdateNode, addOrUpdateDeployment,
    addOrUpdateStatefulSet, addOrUpdateReplicaSet.

Ltac store_step :=
  repeat match goal with
  | |- context [decide ?P] => destruct (decide P)
  | |- context [match ?m !! ?k with _ => _ end] => destruct (m !! k) eqn:?
  end; simpl;
  split_and!; try assumption; intros ? ?;
  rewrite ?lookup_insert_Some, ?lookup_delete_Some; naive_solver.

Section CacheProperties.
Context `{Externals}.

Lemma storesKeyed_New rules associations exclude :
  storesKeyed (New rules associations exclude).
Proof. unfold storesKeyed. simpl. split_and!; intros ? ?; by rewrite lookup_empty. Qed.

Lemma sameCache_refl c : sameCache c c.
Proof. unfold sameCache. by destruct c. Qed.

Lemma sameCache_telemetry_Add name n c : sameCache c (telemetry_Add name n c).
Proof. unfold sameCache. by destruct c. Qed.

Lemma sameCache_telemetry_Record name n c : sameCache c (telemetry_Record name n c).
Proof. unfold sameCache. by destruct c. Qed.

Lemma sameCache_trans c1 c2 c3 : sameCache c1 c2 → sameCache c2 c3 → sameCache c1 c3.
Proof. unfold sameCache. intros -> ->. by destruct c1. Qed.

(** ** What an event leaves alone *)

Lemma sameCache_sameStores c c' : sameCache c c' → sameStores c c'.
Proof. unfold sameCache. intros ->. by destruct c. Qed.

Lemma addOrUpdatePod_sameStores c pod c' :
  addOrUpdatePod c pod = Some c' → sameStores c c'.
Proof. intros Hc. rewrite (addOrUpdatePod_frame _ _ _ Hc). by destruct c. Qed.

Lemma forgetPod_sameStores c pod time_Now c' :
  forgetPod c pod time_Now = Some c' → sameStores c c'.
Proof.
  intros Hf. apply forgetPod_spec in Hf as (ids & _ & _ & -> & _). by destruct c.
Qed.

Lemma sameStores_trans c1 c2 c3 : sameStores c1 c2 → sameStores c2 c3 → sameStores c1 c3.
Proof. unfold sameStores. naive_solver congruence. Qed.

Lemma handlePod_sameStores c n time_Now c' :
  handle c (EvNotify KPod n time_Now) = Some c' → sameStores c c'.
Proof.
  destruct n as [obj|oldObj obj|obj]; simpl;
    unfold handlePodAdd, handlePodUpdate, handlePodDelete; intros Hh.
  - destruct obj as [pod| | | | | | |]; simpl in Hh; simplify_eq;
      try (apply sameCache_sameStores; by destruct c).
    destruct (addOrUpdatePod _ pod) as [c1|] eqn:Ha; simplify_eq/=.
    apply addOrUpdatePod_sameStores in Ha. destruct c, c1; apply Ha.
  - destruct obj as [pod| | | | | | |]; simpl in Hh; simplify_eq;
      try (apply sameCache_sameStores; by destruct c).
    destruct (addOrUpdatePod _ pod) as [c1|] eqn:Ha; simplify_eq/=.
    apply addOrUpdatePod_sameStores in Ha. destruct c, c1; apply Ha.
  - destruct (ignoreDeletedFinalStateUnknown obj) as [pod| | | | | | |];
      simpl in Hh; simplify_eq; try (apply sameCache_sameStores; by destruct c).
    destruct (forgetPod _ pod time_Now) as [c1|] eqn:Ha; simplify_eq/=.
    apply forgetPod_sameStores in Ha. destruct c, c1; apply Ha.
Qed.

Lemma Start_sameStores c c' : Start c = Some c' → sameStores c c'.
Proof.
  unfold Start. intros Hs.
  repeat (match type of Hs with
          | context [if ?b then _ else _] => destruct b
          | context [replicasetInformer c] => destruct (replicasetInformer c)
          | context [namespaceInformer c] => destruct (namespaceInformer c)
          | context [informer c] => destruct (informer c)
          end; simpl in Hs); simplify_eq; done.
Qed.


Lemma deleteLoop_sameStores g c now : sameStores c (deleteLoop g c now).
Proof. unfold deleteLoop. by destruct c. Qed.

(** ** The five stores *)

Lemma storesKeyed_sameStores c c' : sameStores c c' → storesKeyed c → storesKeyed c'.
Proof.
  unfold sameStores, storesKeyed. intros (_&_&_&->&->&->&->&->). done.
Qed.


Lemma handle_storesKeyed c ev c' :
  storesKeyed c → handle c ev = Some c' → storesKeyed c'.
Proof.
  intros Hk Hh. destruct ev as [|k n time_Now|now].
  - eapply storesKeyed_sameStores; [by apply Start_sameStores|done].
  - destruct k; [by eapply storesKeyed_sameStores; [eapply handlePod_sameStores|]|..];
      destruct n as [obj|oldObj obj|obj]; simpl in Hh; simplify_eq;
      destruct Hk as (Hns & Hno & Hde & Hss & Hrs);
      unfold handleNamespaceAdd, handleNamespaceUpdate, handleNamespaceDelete,
        handleNodeAdd, handleNodeUpdate, handleNodeDelete,
        handleDeploymentAdd, handleDeploymentUpdate, handleDeploymentDelete,
        handleStatefulSetAdd, handleStatefulSetUpdate, handleStatefulSetDelete,
        handleReplicaSetAdd, handleReplicaSetUpdate, handleReplicaSetDelete;
      try destruct (ignoreDeletedFinalStateUnknown obj) as [?|?|?|?|?|?|?|];
      try destruct obj as [?|?|?|?|?|?|?|];
      unfold addOrUpdateNamespace, addOrUpdateNode, addOrUpdateDeployment,
        addOrUpdateStatefulSet, addOrUpdateReplicaSet, storesKeyed; simpl;
      store_step.
  - simpl in Hh. simplify_eq.
    eapply storesKeyed_sameStores; [apply deleteLoop_sameStores|done].
Qed.

Lemma run_storesKeyed evs : ∀ c c',
  storesKeyed c → run c evs = Some c' → storesKeyed c'.
Proof.
  induction evs as [|ev evs IH]; intros c c' Hk Hrun; simpl in Hrun; [by simplify_eq|].
  destruct (enabled c ev); [|done].
  destruct (handle c ev) as [c1|] eqn:Hh; [|done]. simpl in Hrun.
  eapply IH; [|done]. by eapply handle_storesKeyed.
Qed.


(** An add or update notification for a namespace, node, deployment or
    stateful set files the record built from the object under the object's
    name (namespace, node) or UID (deployment, stateful set), where the next
    query finds it, and leaves every other key alone; an object whose key is
    empty is not stored at all. *)
Theorem store_add_then_get c (meta : ObjectMeta) :
  (∀ c', (c' = handleNamespaceAdd c (NamespaceObj meta) ∨
          ∃ old, c' = handleNamespaceUpdate c old (NamespaceObj meta)) →
     GetNamespace c' (Meta_Name meta) =
       (if decide (Meta_Name meta ≠ "")
        then Some {| Namespace_Name := Meta_Name meta;
                     Namespace_NamespaceUID := Meta_UID meta;
                     Namespace_StartTime := Meta_CreationTimestamp meta;
                     Namespace_Attributes := extractNamespaceAttributes c meta |}
        else GetNamespace c "") ∧
     ∀ k, k ≠ Meta_Name meta → GetNamespace c' k = GetNamespace c k)
  ∧
  (∀ c', (c' = handleNodeAdd c (NodeObj meta) ∨
          ∃ old, c' = handleNodeUpdate c old (NodeObj meta)) →
     GetNode c' (Meta_Name meta) =
       (if decide (Meta_Name meta ≠ "")
        then Some {| Node_Name := Meta_Name meta;
                     Node_NodeUID := Meta_UID meta;
                     Node_Attributes := extractNodeAttributes c meta |}
        else GetNode c "") ∧
     ∀ k, k ≠ Meta_Name meta → GetNode c' k = GetNode c k)
  ∧
  (∀ c', (c' = handleDeploymentAdd c (DeploymentObj meta) ∨
          ∃ old, c' = handleDeploymentUpdate c old (DeploymentObj meta)) →
     GetDeployment c' (Meta_UID meta) =
       (if decide (Meta_UID meta ≠ "")
        then Some {| Deployment_Name := Meta_Name meta;
                     Deployment_UID := Meta_UID meta;
                     Deployment_Attributes := extractDeploymentAttributes c meta |}
        else GetDeployment c "") ∧
     ∀ k, k ≠ Meta_UID meta → GetDeployment c' k = GetDeployment c k)
  ∧
  (∀ c', (c' = handleStatefulSetAdd c (StatefulSetObj meta) ∨
          ∃ old, c' = handleStatefulSetUpdate c old (StatefulSetObj meta)) →
     GetStatefulSet c' (Meta_UID meta) =
       (if decide (Meta_UID meta ≠ "")
        then Some {| StatefulSet_Name := Meta_Name meta;
                     StatefulSet_UID := Meta_UID meta;
                     StatefulSet_Attributes := extractStatefulSetAttributes c meta |}
        else GetStatefulSet c "") ∧
     ∀ k, k ≠ Meta_UID meta → GetStatefulSet c' k = GetStatefulSet c k).
Proof.
  split_and!; intros c' [->|[old ->]];
    unfold GetNamespace, GetNode, GetDeployment, GetStatefulSet;
    unfold_handlers; simpl;
    (case_decide as Hk; simpl;
      [split; [by rewrite lookup_insert_eq|by intros k Hne; rewrite lookup_insert_ne]
      |split; [by rewrite Hk|done]]).
Qed.

(** A delete notification removes the entry under the name or UID of the
    object it carries, also when the object comes wrapped in a
    [DeletedFinalStateUnknown], and nothing else of that store. *)
Theorem store_delete_removes c (obj : Object) (meta : ObjectMeta) :
  storesKeyed c →
  (ignoreDeletedFinalStateUnknown obj = NamespaceObj meta →
   Namespaces (handleNamespaceDelete c obj) = delete (Meta_Name meta) (Namespaces c)) ∧
  (ignoreDeletedFinalStateUnknown obj = NodeObj meta →
   Nodes (handleNodeDelete c obj) = delete (Meta_Name meta) (Nodes c)) ∧
  (ignoreDeletedFinalStateUnknown obj = DeploymentObj meta →
   Deployments (handleDeploymentDelete c obj) = delete (Meta_UID meta) (Deployments c)) ∧
  (ignoreDeletedFinalStateUnknown obj = StatefulSetObj meta →
   StatefulSets (handleStatefulSetDelete c obj)
     = delete (Meta_UID meta) (StatefulSets c)) ∧
  (ignoreDeletedFinalStateUnknown obj = ReplicaSetObj meta →
   ReplicaSets (handleReplicaSetDelete c obj) = delete (Meta_UID meta) (ReplicaSets c)).
Proof.
  intros (Hns & Hno & Hde & Hss & Hrs).
  split_and!; intros Hobj; unfold_handlers; rewrite Hobj; simpl; [| | | |done].
  - destruct (Namespaces c !! Meta_Name meta) as [r|] eqn:Hr; simpl.
    + by rewrite (Hns _ _ Hr).
    + by rewrite delete_id.
  - destruct (Nodes c !! Meta_Name meta) as [r|] eqn:Hr; simpl.
    + by rewrite (Hno _ _ Hr).
    + by rewrite delete_id.
  - destruct (Deployments c !! Meta_UID meta) as [r|] eqn:Hr; simpl.
    + by rewrite (Hde _ _ Hr).
    + by rewrite delete_id.
  - destruct (StatefulSets c !! Meta_UID meta) as [r|] eqn:Hr; simpl.
    + by rewrite (Hss _ _ Hr).
    + by rewrite delete_id.
Qed.

(** In every state a new client reaches, and after every further event,
    each record of the namespace, node, deployment, stateful set and
    replica set stores sits under its own name or UID. *)
Theorem stores_keyed_along_runs rules associations exclude evs c :
  run (New rules associations exclude) evs = Some c →
  storesKeyed c ∧
  ∀ ev c', handle c ev = Some c' → storesKeyed c'.
Proof.
  intros Hrun.
  assert (storesKeyed c) as Hk.
  { eapply run_storesKeyed; [apply storesKeyed_New|done]. }
  split; [done|]. intros ev c'. by apply handle_storesKeyed.
Qed.

(** What a notification for another kind than pods changes: the table of
    its kind and its counter. *)
Lemma handleOther_frame c k n time_Now c' :
  k ≠ KPod → handle c (EvNotify k n time_Now) = Some c' →
  c' = with_telemetry
         match k with
         | KPod => c
         | KNamespace => with_Namespaces c (Namespaces c')
         | KNode => with_Nodes c (Nodes c')
         | KDeployment => with_Deployments c (Deployments c')
         | KStatefulSet => with_StatefulSets c (StatefulSets c')
         | KReplicaSet => with_ReplicaSets c (ReplicaSets c')
         end
         (<[counterOf k n :=
              (default 0 (telemetryBuilder c !! counterOf k n) + 1)%Z]>
            (telemetryBuilder c)).
Proof.
  intros Hk Hh. destruct k; [done|..];
    destruct n as [obj|oldObj obj|obj]; simpl in Hh;
    injection Hh as <-; unfold_handlers;
    try destruct (ignoreDeletedFinalStateUnknown obj) as [?|?|?|?|?|?|?|];
    try destruct obj as [?|?|?|?|?|?|?|];
    repeat match goal with
    | |- context [decide ?P] => destruct (decide P)
    | |- context [match ?m !! ?k with _ => _ end] => destruct (m !! k) eqn:?
    end; by destruct c.
Qed.

Lemma handleOther_tables c k n time_Now c' :
  k ≠ KPod → handle c (EvNotify k n time_Now) = Some c' →
  Pods c' = Pods c ∧ deleteQueue c' = deleteQueue c ∧
  Rules c' = Rules c ∧ Associations c' = Associations c ∧ Exclude c' = Exclude c ∧
  (k ≠ KNamespace → Namespaces c' = Namespaces c) ∧
  (k ≠ KNode → Nodes c' = Nodes c) ∧
  (k ≠ KDeployment → Deployments c' = Deployments c) ∧
  (k ≠ KStatefulSet → StatefulSets c' = StatefulSets c) ∧
  (k ≠ KReplicaSet → ReplicaSets c' = ReplicaSets c).
Proof.
  intros Hk Hh. rewrite (handleOther_frame _ _ _ _ _ Hk Hh).
  generalize (Namespaces c') (Nodes c') (Deployments c') (StatefulSets c')
    (ReplicaSets c'). intros.
  destruct k; [done|..]; destruct c; split_and!; try reflexivity; intros Hn;
    first [reflexivity | by destruct Hn].
Qed.

(** An event leaves the configuration alone and writes to the table of its
    own kind only: the pod table changes on pod notifications and rounds of
    the delete loop, the delete queue on pod deletions and rounds of the
    delete loop, each of the five stores on notifications of its kind. *)
Theorem event_touches_own_table c ev c' :
  handle c ev = Some c' →
  Rules c' = Rules c ∧ Associations c' = Associations c ∧ Exclude c' = Exclude c ∧
  ((∀ n time_Now, ev ≠ EvNotify KPod n time_Now) → (∀ now, ev ≠ EvDeleteLoop now) →
   Pods c' = Pods c) ∧
  ((∀ obj time_Now, ev ≠ EvNotify KPod (OnDelete obj) time_Now) →
   (∀ now, ev ≠ EvDeleteLoop now) → deleteQueue c' = deleteQueue c) ∧
  ((∀ n time_Now, ev ≠ EvNotify KNamespace n time_Now) → Namespaces c' = Namespaces c) ∧
  ((∀ n time_Now, ev ≠ EvNotify KNode n time_Now) → Nodes c' = Nodes c) ∧
  ((∀ n time_Now, ev ≠ EvNotify KDeployment n time_Now) →
   Deployments c' = Deployments c) ∧
  ((∀ n time_Now, ev ≠ EvNotify KStatefulSet n time_Now) →
   StatefulSets c' = StatefulSets c) ∧
  ((∀ n time_Now, ev ≠ EvNotify KReplicaSet n time_Now) →
   ReplicaSets c' = ReplicaSets c).
Proof.
  intros Hh.
  assert (Hq : (∀ obj time_Now, ev ≠ EvNotify KPod (OnDelete obj) time_Now) →
               (∀ now, ev ≠ EvDeleteLoop now) → deleteQueue c' = deleteQueue c).
  { intros. by eapply handle_deleteQueue. }
  destruct ev as [|k n time_Now|now].
  - destruct (Start_sameStores _ _ Hh) as (?&?&?&?&?&?&?&?).
    destruct (Start_spec _ _ Hh) as (?&?&_).
    split_and!; done.
  - destruct (decide (k = KPod)) as [->|Hk].
    + destruct (handlePod_sameStores _ _ _ _ Hh) as (?&?&?&?&?&?&?&?).
      split_and!; try done. intros Hn. by destruct (Hn n time_Now).
    + destruct (handleOther_tables _ _ _ _ _ Hk Hh) as (?&?&?&?&?&?&?&?&?&?).
      split_and!; try done; intros Hn;
        match goal with
        | Hs : ?k ≠ ?K → _ |- _ => apply Hs; intros ->; by destruct (Hn n time_Now)
        end.
  - simpl in Hh. simplify_eq.
    destruct (deleteLoop_sameStores defaultPodDeleteGracePeriod c now)
      as (?&?&?&?&?&?&?&?).
    split_and!; try done. intros _ Hn. by destruct (Hn now).
Qed.

(** A notification whose object is not of the type its handler expects is
    counted and dropped: the handler does not panic, no table, store or
    queue changes, and of the instruments the counter of the
    notification's kind and action goes up by one; a pod handler records
    the size of the pod table as well, as it does on every notification,
    and no other instrument changes. *)
Theorem unexpected_payload_dropped c k n time_Now :
  hasKind k (payload n) = false →
  ∃ c',
    handle c (EvNotify k n time_Now) = Some c' ∧
    sameCache c c' ∧
    let counted :=
      <[counterOf k n := (default 0 (telemetryBuilder c !! counterOf k n) + 1)%Z]>
        (telemetryBuilder c) in
    telemetryBuilder c' =
      if decide (k = KPod)
      then <["OtelsvcK8sPodTableSize" := Z.of_nat (size (Pods c))]> counted
      else counted.
Proof.
  intros Hkind.
  destruct k, n as [obj|oldObj obj|obj]; simpl in *;
    unfold handlePodAdd, handlePodUpdate, handlePodDelete; unfold_handlers;
    try destruct (ignoreDeletedFinalStateUnknown obj) as [?|?|?|?|?|?|?|];
    try destruct obj as [?|?|?|?|?|?|?|]; try discriminate; simpl;
    eexists; (split; [reflexivity|]);
    (split; [unfold sameCache; by destruct c|by destruct c]).
Qed.

(** ** Owner references *)

Lemma getOwnerUID_first kind refs :
  (∀ before ref after,
     refs = before ++ ref :: after →
     Forall (λ r, Ref_Kind r ≠ kind) before → Ref_Kind ref = kind →
     getOwnerUID kind refs = Ref_UID ref) ∧
  (Forall (λ r, Ref_Kind r ≠ kind) refs → getOwnerUID kind refs = "").
Proof.
  split.
  - intros before ref after -> Hb Hk.
    induction Hb as [|r before Hr Hb IH]; simpl.
    + by rewrite decide_True.
    + by rewrite decide_False.
  - intros Hall. induction Hall as [|r refs Hr Hall IH]; simpl; [done|].
    by rewrite decide_False.
Qed.

Lemma owningDeployment_first refs :
  (∀ before ref after,
     refs = before ++ ref :: after →
     Forall (λ r, ¬ isControllerDeployment r) before → isControllerDeployment ref →
     owningDeployment refs = mkDeployment (Ref_Name ref) (Ref_UID ref) ∅) ∧
  (Forall (λ r, ¬ isControllerDeployment r) refs →
   owningDeployment refs = mkDeployment "" "" ∅).
Proof.
  split.
  - intros before ref after -> Hb Hk.
    induction Hb as [|r before Hr Hb IH]; simpl.
    + by rewrite decide_True.
    + by rewrite decide_False.
  - intros Hall. induction Hall as [|r refs Hr Hall IH]; simpl; [done|].
    by rewrite decide_False.
Qed.

(** The first owner reference of the kind looked for decides:
    [getPodReplicaSetUID] and [getPodStatefulSetUID] return the UID of the
    first reference of their kind and the empty string when there is none;
    [addOrUpdateReplicaSet] records the first reference that is a
    controlling deployment, and the zero deployment when there is none. *)
Theorem owner_references_first_match (pod : api_Pod) (replicaset : ObjectMeta) :
  (∀ before ref after,
     Meta_OwnerReferences (Meta pod) = before ++ ref :: after →
     Forall (λ r, Ref_Kind r ≠ "ReplicaSet") before → Ref_Kind ref = "ReplicaSet" →
     getPodReplicaSetUID pod = Ref_UID ref) ∧
  (Forall (λ r, Ref_Kind r ≠ "ReplicaSet") (Meta_OwnerReferences (Meta pod)) →
   getPodReplicaSetUID pod = "") ∧
  (∀ before ref after,
     Meta_OwnerReferences (Meta pod) = before ++ ref :: after →
     Forall (λ r, Ref_Kind r ≠ "StatefulSet") before → Ref_Kind ref = "StatefulSet" →
     getPodStatefulSetUID pod = Ref_UID ref) ∧
  (Forall (λ r, Ref_Kind r ≠ "StatefulSet") (Meta_OwnerReferences (Meta pod)) →
   getPodStatefulSetUID pod = "") ∧
  (∀ c before ref after,
     Meta_UID replicaset ≠ "" →
     Meta_OwnerReferences replicaset = before ++ ref :: after →
     Forall (λ r, ¬ isControllerDeployment r) before → isControllerDeployment ref →
     getReplicaSet (addOrUpdateReplicaSet c replicaset) (Meta_UID replicaset) =
       Some {| ReplicaSet_Name := Meta_Name replicaset;
               ReplicaSet_Namespace := Meta_Namespace replicaset;
               ReplicaSet_UID := Meta_UID replicaset;
               ReplicaSet_Deployment := mkDeployment (Ref_Name ref) (Ref_UID ref) ∅ |}) ∧
  (∀ c,
     Meta_UID replicaset ≠ "" →
     Forall (λ r, ¬ isControllerDeployment r) (Meta_OwnerReferences replicaset) →
     getReplicaSet (addOrUpdateReplicaSet c replicaset) (Meta_UID replicaset) =
       Some {| ReplicaSet_Name := Meta_Name replicaset;
               ReplicaSet_Namespace := Meta_Namespace replicaset;
               ReplicaSet_UID := Meta_UID replicaset;
               ReplicaSet_Deployment := mkDeployment "" "" ∅ |}).
Proof.
  unfold getPodReplicaSetUID, getPodStatefulSetUID.
  split_and!;
    try apply (getOwnerUID_first "ReplicaSet");
    try apply (getOwnerUID_first "StatefulSet").
  - intros c before ref after Huid Hrefs Hb Href.
    unfold getReplicaSet, addOrUpdateReplicaSet. rewrite decide_True by done.
    simpl. rewrite lookup_insert_eq. do 2 f_equal.
    by apply (proj1 (owningDeployment_first _) before ref after).
  - intros c Huid Hall.
    unfold getReplicaSet, addOrUpdateReplicaSet. rewrite decide_True by done.
    simpl. rewrite lookup_insert_eq. do 2 f_equal.
    by apply (proj2 (owningDeployment_first _)).
Qed.

(** A pod record gets the UID of the deployment that owns the pod's replica
    set once that replica set has been added; the UID is empty while the
    replica set is unknown and again after the replica set has been
    deleted.  Adding the replica set does not touch the pod table, so
    records built earlier keep the UID they were built with. *)
Theorem pod_deployment_resolution c (replicaset : ObjectMeta) (pod : api_Pod) :
  Meta_UID replicaset ≠ "" →
  getPodReplicaSetUID pod = Meta_UID replicaset →
  let c' := handleReplicaSetAdd c (ReplicaSetObj replicaset) in
  Pod_DeploymentUID (podFromAPI c' pod) =
    Deployment_UID (owningDeployment (Meta_OwnerReferences replicaset)) ∧
  Pods c' = Pods c ∧
  (getReplicaSet c (Meta_UID replicaset) = None →
   Pod_DeploymentUID (podFromAPI c pod) = "") ∧
  Pod_DeploymentUID
    (podFromAPI (handleReplicaSetDelete c' (ReplicaSetObj replicaset)) pod) = "".
Proof.
  intros Huid Hpod c'. subst c'. unfold podFromAPI. simpl. rewrite Hpod.
  unfold getReplicaSet, handleReplicaSetAdd, handleReplicaSetDelete,
    addOrUpdateReplicaSet.
  rewrite decide_True by done. simpl. rewrite lookup_insert_eq. simpl.
  split_and!.
  - by case_decide.
  - done.
  - by intros ->.
  - by rewrite lookup_delete_eq.
Qed.

(** ** Ignored pods *)

Lemma shouldIgnorePod_true c pod :
  shouldIgnorePod c pod = true ↔
  (∃ v, Meta_Annotations (Meta pod) !! ignoreAnnotation = Some v ∧
        strings_ToLower (strings_TrimSpace v) = "true") ∨
  Exists (λ excludedPod : string → bool, excludedPod (Meta_Name (Meta pod)) = true)
         (Exclude_Pods (Exclude c)).
Proof.
  unfold shouldIgnorePod.
  assert (Hex : ∀ l : list (string → bool),
            existsb (λ e, e (Meta_Name (Meta pod))) l = true ↔
            Exists (λ e : string → bool, e (Meta_Name (Meta pod)) = true) l).
  { intros l. rewrite existsb_exists, Exists_exists.
    by setoid_rewrite list_elem_of_In. }
  destruct (Meta_Annotations (Meta pod) !! ignoreAnnotation) as [v|].
  - case_decide as Hv.
    + split; [|done]. intros _. left. eauto.
    + rewrite Hex. split; [by right|]. intros [(v' & [= <-] & ?)|?]; done.
  - rewrite Hex. split; [by right|]. intros [(v' & [=] & ?)|?]; done.
Qed.

(** The record of a pod that is to be ignored carries the ignore flag, no
    attributes and no containers; once stored, no query under any of its
    identifiers returns it (an identifier that holds a record of a later
    start time keeps that record). *)
Theorem ignored_pod_hidden c pod c' :
  shouldIgnorePod c pod = true →
  addOrUpdatePod c pod = Some c' →
  Pod_Ignore (podFromAPI c pod) = true ∧
  Pod_Attributes (podFromAPI c pod) = ∅ ∧
  Pod_Containers (podFromAPI c pod) = mkPodContainers ∅ ∅ ∧
  ∀ ids (id : PodIdentifier),
    getIdentifiersFromAssoc c (podFromAPI c pod) = Some ids → id ∈ ids →
    (Pods c' !! id = Some (podFromAPI c pod) ∧ (GetPod c' id).1 = None) ∨
    (∃ p, Pods c !! id = Some p ∧ Pods c' !! id = Some p ∧
          Time_Before (startOf pod) (Pod_StartTime p) = true).
Proof.
  intros Hign Hadd.
  assert (Pod_Ignore (podFromAPI c pod) = true) as Hi by (unfold podFromAPI; by rewrite Hign).
  split_and!; [done|unfold podFromAPI; by rewrite Hign..|].
  intros ids id Hids Hin.
  pose proof (addOrUpdatePod_lookup _ _ _ _ id Hadd Hids) as Hl.
  rewrite decide_True in Hl by done. unfold putResult in Hl.
  destruct (Pods c !! id) as [p|] eqn:Hp.
  - change (Pod_StartTime (podFromAPI c pod)) with (startOf pod) in Hl.
    destruct (Time_Before (startOf pod) (Pod_StartTime p)) eqn:Hb.
    + right. eauto.
    + left. split; [done|]. unfold GetPod. by rewrite Hl, Hi.
  - left. split; [done|]. unfold GetPod. by rewrite Hl, Hi.
Qed.

(** ** Rounds of the delete loop *)

Lemma scanCutoff_shift now g queue : ∀ i,
  scanCutoff now g i i queue = i + scanCutoff now g 0 0 queue.
Proof.
  induction queue as [|d queue IH]; intros i; simpl; [lia|].
  case_bool_decide; [lia|]. rewrite (IH (S i)), (IH 1). lia.
Qed.

Lemma scanCutoff_app now g l1 l2 :
  Forall (expired now g) l1 →
  scanCutoff now g 0 0 (l1 ++ l2) = length l1 + scanCutoff now g 0 0 l2.
Proof.
  induction 1 as [|d l1 Hd Hall IH]; simpl; [done|].
  unfold expired in Hd. rewrite bool_decide_eq_false_2 by lia.
  rewrite scanCutoff_shift, IH. lia.
Qed.

Lemma scanCutoff_take now g queue :
  Forall (expired now g) (take (scanCutoff now g 0 0 queue) queue).
Proof.
  destruct (scanCutoff_spec now g queue 0) as (k & -> & _ & Hall & _). done.
Qed.

Lemma WatchClient_eq (c c' : WatchClient) :
  informer c = informer c' → namespaceInformer c = namespaceInformer c' →
  nodeInformer c = nodeInformer c' → deploymentInformer c = deploymentInformer c' →
  statefulsetInformer c = statefulsetInformer c' →
  replicasetInformer c = replicasetInformer c' →
  deleteQueue c = deleteQueue c' → Pods c = Pods c' → sameStores c c' →
  telemetryBuilder c = telemetryBuilder c' →
  c = c'.
Proof.
  destruct c, c'. unfold sameStores. simpl.
  intros -> -> -> -> -> -> -> -> (-> & -> & -> & -> & -> & -> & -> & ->) ->. done.
Qed.

Lemma deleteLoop_fields g c now :
  let k := scanCutoff now g 0 0 (deleteQueue c) in
  let pods := foldl applyDelete (Pods c) (take k (deleteQueue c)) in
  deleteQueue (deleteLoop g c now) = drop k (deleteQueue c) ∧
  Pods (deleteLoop g c now) = pods ∧
  telemetryBuilder (deleteLoop g c now) =
    <["OtelsvcK8sPodTableSize" := Z.of_nat (size pods)]> (telemetryBuilder c) ∧
  informer (deleteLoop g c now) = informer c ∧
  namespaceInformer (deleteLoop g c now) = namespaceInformer c ∧
  nodeInformer (deleteLoop g c now) = nodeInformer c ∧
  deploymentInformer (deleteLoop g c now) = deploymentInformer c ∧
  statefulsetInformer (deleteLoop g c now) = statefulsetInformer c ∧
  replicasetInformer (deleteLoop g c now) = replicasetInformer c.
Proof. by destruct c. Qed.

(** Two rounds of the delete loop, the second one not earlier than the
    first, leave the pod table and the delete queue as the second round
    alone would. *)
Theorem deleteLoop_rounds_compose g c now now' :
  (now ≤ now')%Z →
  deleteLoop g (deleteLoop g c now) now' = deleteLoop g c now'.
Proof.
  intros Hle.
  destruct (deleteLoop_fields g c now) as (Hq1 & Hp1 & Ht1 & ? & ? & ? & ? & ? & ?).
  destruct (deleteLoop_fields g (deleteLoop g c now) now')
    as (Hq2 & Hp2 & Ht2 & ? & ? & ? & ? & ? & ?).
  destruct (deleteLoop_fields g c now') as (Hq3 & Hp3 & Ht3 & ? & ? & ? & ? & ? & ?).
  rewrite Hq1 in Hq2. rewrite Hq1, Hp1 in Hp2. rewrite Hq1, Hp1, Ht1 in Ht2.
  set (q := deleteQueue c) in *.
  set (k1 := scanCutoff now g 0 0 q) in *.
  set (k2 := scanCutoff now' g 0 0 (drop k1 q)) in *.
  assert (k1 ≤ length q) as Hk1.
  { pose proof (scanCutoff_spec now g q 0) as (k & Hk & Hlen & _). subst k1. lia. }
  assert (scanCutoff now' g 0 0 q = k1 + k2) as Hk.
  { rewrite <- (take_drop k1 q) at 1. rewrite scanCutoff_app.
    - rewrite length_take. fold k2. lia.
    - eapply Forall_impl; [apply scanCutoff_take|]. unfold expired. intros; lia. }
  rewrite Hk in Hq3, Hp3, Ht3.
  assert (take (k1 + k2) q = take k1 q ++ take k2 (drop k1 q)) as Htake.
  { rewrite <- (take_drop k1 q) at 1.
    rewrite take_app_add'; [done|]. rewrite length_take. lia. }
  rewrite Htake, foldl_app in Hp3, Ht3. rewrite <- drop_drop in Hq3.
  rewrite insert_insert_eq in Ht2.
  apply WatchClient_eq; try congruence.
  eapply sameStores_trans; [|apply deleteLoop_sameStores].
  pose proof (deleteLoop_sameStores g (deleteLoop g c now) now') as Hs2.
  pose proof (deleteLoop_sameStores g c now) as Hs1.
  unfold sameStores in *. naive_solver congruence.
Qed.

(** A round of the delete loop only removes: every entry of the pod table
    after the round was there before, the queue loses a front part, the
    configuration and the five stores stay; when the head of the queue is
    younger than the grace period, the round changes neither the table nor
    the queue. *)
Theorem deleteLoop_only_removes g c now :
  (∀ (identifier : PodIdentifier) p,
     Pods (deleteLoop g c now) !! identifier = Some p →
     Pods c !! identifier = Some p) ∧
  (∃ toDelete, deleteQueue c = toDelete ++ deleteQueue (deleteLoop g c now)) ∧
  sameStores c (deleteLoop g c now) ∧
  ((∀ d, head (deleteQueue c) = Some d → (now < Req_ts d + g)%Z) →
   Pods (deleteLoop g c now) = Pods c ∧
   deleteQueue (deleteLoop g c now) = deleteQueue c).
Proof.
  split_and!.
  - intros identifier p.
    destruct (deleteLoop_lookup g c now identifier) as (toDelete & _ & _ & ->).
    destruct (Pods c !! identifier) as [p'|]; [|done]. by case_decide.
  - destruct (deleteLoop_split g c now) as (toDelete & Hq & _). eauto.
  - apply deleteLoop_sameStores.
  - intros Hhead. unfold deleteLoop. simpl.
    destruct (deleteQueue c) as [|d queue]; [done|]. simpl.
    rewrite bool_decide_eq_true_2 by by apply Hhead. done.
Qed.

(** A table entry under an identifier the deleted pod does not have now
    (the pod's address has changed since the entry was written, say), and
    for which no request is queued yet, is not queued by the delete
    notification; a round of the delete loop that follows, at whatever
    time, leaves it in place. *)
Theorem stale_entry_outlives_pod c pod time_Now c' ids (identifier : PodIdentifier) :
  forgetPod c pod time_Now = Some c' →
  getIdentifiersFromAssoc c (podFromAPI c pod) = Some ids →
  identifier ∉ ids →
  (∀ d, d ∈ deleteQueue c → Req_id d ≠ identifier) →
  (∀ d, d ∈ deleteQueue c' → Req_id d ≠ identifier) ∧
  ∀ g now, Pods (deleteLoop g c' now) !! identifier = Pods c !! identifier.
Proof.
  intros Hf Hids Hnot Hq.
  apply forgetPod_spec in Hf as (ids' & Hids' & Hp & _ & Hq').
  assert (ids' = ids) as -> by congruence.
  assert (∀ d, d ∈ deleteQueue c' → Req_id d ≠ identifier) as Hnone.
  { intros d. rewrite Hq', elem_of_app. intros [Hd|Hd]; [by apply Hq|].
    apply newRequests_elem in Hd as (Hin & _). by intros <-. }
  split; [done|]. intros g now.
  destruct (deleteLoop_lookup g c' now identifier) as (toDelete & Hsplit & _ & ->).
  rewrite Hp. destruct (Pods c !! identifier) as [p|]; [|done].
  rewrite decide_False; [done|].
  intros (d & Hd & Hid & _)%Exists_exists. apply (Hnone d); [|done].
  rewrite Hsplit. apply elem_of_app. by left.
Qed.

(** When the clock never runs backwards, the delete queue is ordered by
    time in every state a new client reaches, and after a round of the
    delete loop every request left in the queue is younger than the grace
    period. *)
Theorem delete_queue_sorted_along_runs rules associations exclude evs t c :
  clockOrdered t evs →
  run (New rules associations exclude) evs = Some c →
  queueOrdered (deleteQueue c) ∧
  ∀ now, Forall (λ d, (now < Req_ts d + defaultPodDeleteGracePeriod)%Z)
           (deleteQueue (deleteLoop defaultPodDeleteGracePeriod c now)).
Proof.
  intros Hclock Hrun.
  assert (queueOrdered (deleteQueue c)) as Hord.
  { eapply (run_queueOrdered evs _ _ t); [| |done|done].
    - intros i j d e Hd. simpl in Hd. by rewrite lookup_nil in Hd.
    - intros d Hd. simpl in Hd. by apply elem_of_nil in Hd. }
  split; [done|]. intros now.
  destruct (deleteLoop_split defaultPodDeleteGracePeriod c now)
    as (toDelete & Hq & _ & Hhead & _).
  destruct (deleteQueue (deleteLoop defaultPodDeleteGracePeriod c now))
    as [|h rest] eqn:Hr; [done|].
  specialize (Hhead h eq_refl).
  apply Forall_forall. intros e [j Hj]%list_elem_of_lookup.
  assert (Req_ts h ≤ Req_ts e)%Z; [|lia].
  apply (Hord (length toDelete + 0) (length toDelete + j)); [| |lia].
  - rewrite Hq. by rewrite lookup_app_r, Nat.add_0_r, Nat.sub_diag by lia.
  - rewrite Hq. rewrite lookup_app_r by lia.
    by replace (length toDelete + j - length toDelete) with j by lia.
Qed.

(** ** Identifiers, source by source *)

Lemma scanSource_step pod i source st :
  let seen := bool_decide (retID4containerID st ≠ (-1)%Z) in
  let cid := if bool_decide (isContainerIDSource source)
             then Z.of_nat i else retID4containerID st in
  scanSource pod i source st =
    if sourceWrites pod seen source then
      r ← array_set (ret st) i (sourceAttribute pod source);
      Some (mkAssocScan r (skip st) cid)
    else
      Some (mkAssocScan (ret st) (skip st || sourceSkips pod seen source) cid).
Proof.
  intros seen cid. subst seen cid. destruct source as [from name].
  assert (Hcid : isContainerIDSource (mkAssociationSource from name) ↔
                 from = ResourceSource ∧ name = ContainerIDKey) by done.
  unfold scanSource, sourceWrites, sourceSkips, sourceAttribute. simpl.
  destruct from.
  - rewrite (bool_decide_eq_false_2 (isContainerIDSource _))
      by (rewrite Hcid; by intros [? _]).
    rewrite orb_false_r. by destruct st.
  - rewrite (bool_decide_eq_false_2 (isContainerIDSource _))
      by (rewrite Hcid; by intros [? _]).
    case_decide as Ha.
    + rewrite (bool_decide_eq_true_2 _ Ha). simpl. by rewrite orb_true_r.
    + rewrite (bool_decide_eq_false_2 _ Ha). simpl.
      destruct (Pod_HostNetwork pod); simpl; [by rewrite orb_true_r|done].
  - match goal with
    | |- context [let '(a, b) := ?e in _] => destruct e as [attr cid] eqn:Hr
    end.
    apply (resolve_resource_source pod i (mkAssociationSource ResourceSource name))
      in Hr as [-> Hr]. simpl in Hr.
    destruct Hr as [[-> Hn]|[-> Hc]].
    + rewrite (bool_decide_eq_false_2 (isContainerIDSource _))
        by (rewrite Hcid; by intros [_ ?]).
      rewrite (bool_decide_eq_true_2 _ Hn). simpl.
      case_decide as Hd.
      * destruct Hd as [Hattr Hd]. rewrite Hattr, Hd. simpl.
        by rewrite orb_true_r.
      * case_bool_decide as Hattr; simpl; [|done].
        case_bool_decide as Hd'; simpl; [done|].
        exfalso. apply Hd. by split.
    + rewrite (bool_decide_eq_true_2 (isContainerIDSource _)) by (by rewrite Hcid).
      rewrite (bool_decide_eq_false_2 (name ≠ _)) by (intros ?; done).
      simpl. rewrite decide_False by (intros [_ ?]; lia).
      unfold resourceAttribute. rewrite Hc. done.
Qed.

Lemma scanSource_None pod i source st :
  scanSource pod i source st = None ↔
  sourceWrites pod (bool_decide (retID4containerID st ≠ (-1)%Z)) source = true ∧
  length (ret st) ≤ i.
Proof.
  rewrite scanSource_step. simpl.
  destruct (sourceWrites pod _ source); [|naive_solver].
  unfold array_set. case_decide; simpl; [|split; [intros _; split; [done|lia]|done]].
  split; [done|]. intros [_ ?]. lia.
Qed.

Lemma containerIDSeenBefore_0 sources : containerIDSeenBefore sources 0 = false.
Proof.
  unfold containerIDSeenBefore. apply bool_decide_eq_false_2.
  rewrite take_0. by intros ?%Exists_nil.
Qed.

Lemma containerIDSeenBefore_cons s sources j :
  containerIDSeenBefore (s :: sources) (S j) =
  bool_decide (isContainerIDSource s) || containerIDSeenBefore sources j.
Proof.
  unfold containerIDSeenBefore. simpl.
  apply eq_true_iff_eq. rewrite orb_true_iff, !bool_decide_eq_true.
  by rewrite Exists_cons.
Qed.

Lemma scanSources_None pod sources : ∀ i st,
  scanSources pod i sources st = None ↔
  ∃ j s, sources !! j = Some s ∧ length (ret st) ≤ i + j ∧
         sourceWrites pod
           (bool_decide (retID4containerID st ≠ (-1)%Z)
            || containerIDSeenBefore sources j) s = true.
Proof.
  induction sources as [|s sources IH]; intros i st; simpl.
  - split; [done|]. by intros (j & s & ? & _).
  - destruct (scanSource pod i s st) as [st1|] eqn:Hs; simpl.
    + pose proof (scanSource_spec _ _ _ _ _ Hs) as (Hlen & _).
      pose proof (scanSource_skip _ _ _ _ _ Hs) as [_ Hseen].
      rewrite IH, Hlen, Hseen. split.
      * intros (j & s' & Hj & Hle & Hw). exists (S j), s'.
        split_and!; [done|lia|]. by rewrite containerIDSeenBefore_cons, orb_assoc.
      * intros ([|j] & s' & Hj & Hle & Hw).
        -- simpl in Hj. simplify_eq. exfalso.
           assert (scanSource pod i s' st = None); [|congruence].
           apply scanSource_None. split; [|lia].
           by rewrite containerIDSeenBefore_0, orb_false_r in Hw.
        -- exists j, s'. split_and!; [done|lia|].
           by rewrite containerIDSeenBefore_cons, orb_assoc in Hw.
    + split; [|done]. intros _. apply scanSource_None in Hs as [Hw Hle].
      exists 0, s. split_and!; [done|lia|].
      by rewrite containerIDSeenBefore_0, orb_false_r.
Qed.

Lemma identifiersOfAssoc_None pod assoc :
  identifiersOfAssoc pod assoc = None ↔
  scanSources pod 0 (Sources assoc) initialScan = None.
Proof.
  unfold identifiersOfAssoc.
  destruct (scanSources pod 0 (Sources assoc) initialScan) as [st|] eqn:Hs;
    simpl; [|done].
  split; [|done]. intros Hnone. exfalso.
  destruct (scanSources_spec _ _ _ _ _ Hs) as (Hl & _ & Hcid & _).
  destruct (skip st); [done|]. case_decide; [|done].
  destruct Hcid as [[Heq Hno]|(k & s & Hk & Hs' & Heq & Hlt)].
  - simpl in Heq. congruence.
  - rewrite Heq, Nat2Z.id, mapM_array_set in Hnone by lia. done.
Qed.

(** An association makes the identifier computation panic exactly when one
    of its sources at position [PodIdentifierMaxLength] or later assigns to
    the identifier array: a connection or resource source that does not
    make the association skip the pod.  One such association among the
    client's makes [getIdentifiersFromAssoc] panic. *)
Theorem association_panics_out_of_range pod assoc :
  (identifiersOfAssoc pod assoc = None ↔
   ∃ i source,
     Sources assoc !! i = Some source ∧ PodIdentifierMaxLength ≤ i ∧
     sourceWrites pod (containerIDSeenBefore (Sources assoc) i) source = true) ∧
  (∀ c, assoc ∈ Associations c → identifiersOfAssoc pod assoc = None →
        getIdentifiersFromAssoc c pod = None).
Proof.
  split.
  - rewrite identifiersOfAssoc_None, scanSources_None.
    rewrite length_initialScan. simpl.
    done.
  - intros c Hin Hnone. unfold getIdentifiersFromAssoc.
    destruct (mapM (identifiersOfAssoc pod) (Associations c)) as [ids|] eqn:Hm;
      [|done].
    exfalso. apply mapM_Some_1 in Hm.
    apply list_elem_of_lookup in Hin as [j Hj].
    destruct (Forall2_lookup_l _ _ _ _ _ Hm Hj) as (l & _ & Hl). congruence.
Qed.

Lemma scanSources_ret pod sources : ∀ i st st',
  scanSources pod i sources st = Some st' →
  skip st' = false →
  i + length sources ≤ length (ret st) →
  Forall (λ a, a = zeroAttribute) (drop i (ret st)) →
  ret st' =
    take i (ret st) ++ (sourceAttribute pod <$> sources) ++
    replicate (length (ret st) - i - length sources) zeroAttribute.
Proof.
  induction sources as [|s sources IH]; intros i st st' Hs Hskip Hlen Hzero;
    simpl in *.
  - simplify_eq. rewrite <- (take_drop i (ret st')) at 1. f_equal.
    rewrite Nat.sub_0_r. symmetry. apply replicate_as_Forall.
    split; [by rewrite length_drop|].
    eapply Forall_impl; [done|]. by intros a ->.
  - destruct (scanSource pod i s st) as [st1|] eqn:H1; [|done]. simpl in Hs.
    pose proof (scanSource_spec _ _ _ _ _ H1) as (Hlen1 & _).
    assert (skip st1 = false) as Hskip1.
    { destruct (skip st1) eqn:Hs1; [|done].
      destruct (scanSources_spec _ _ _ _ _ Hs) as (_ & Hmono & _).
      rewrite Hmono in Hskip by done. done. }
    assert (ret st1 = <[i := sourceAttribute pod s]> (ret st)) as Hret.
    { rewrite scanSource_step in H1. simpl in H1.
      destruct (sourceWrites pod _ s) eqn:Hw.
      - destruct (array_set (ret st) i (sourceAttribute pod s)) as [r|] eqn:Hr;
          [|done].
        apply array_set_Some in Hr as [-> _]. by simplify_eq/=.
      - simplify_eq/=. apply orb_false_iff in Hskip1 as [_ Hsk].
        unfold sourceWrites, sourceAttribute in *.
        destruct (Source_From s) eqn:Hfrom; [|by rewrite Hsk in Hw..].
        symmetry. apply list_insert_id.
        destruct (ret st !! i) as [a|] eqn:Ha.
        + f_equal. apply (proj1 (Forall_lookup _ _) Hzero 0 a).
          by rewrite lookup_drop, Nat.add_0_r.
        + apply lookup_ge_None in Ha. lia. }
    rewrite (IH (S i) st1 st' Hs Hskip).
    + rewrite Hlen1, Hret. rewrite (take_S_r _ _ (sourceAttribute pod s))
        by (apply list_lookup_insert_eq; lia).
      rewrite take_insert_ge by lia. rewrite <- app_assoc. simpl.
      by replace (length (ret st) - i - S (length sources))
        with (length (ret st) - S i - length sources) by lia.
    + lia.
    + rewrite Hret, drop_insert_lt by lia.
      replace (S i) with (i + 1) by lia. rewrite <- drop_drop.
      by apply Forall_drop.
Qed.

(** An association without a container-ID source and within the length of
    the identifier array yields no identifier when one of its sources finds
    the pod's attribute empty, and otherwise exactly one: the attributes of
    its sources in order, padded with zero attributes. *)
Theorem plain_rule_identifier pod assoc :
  ¬ Exists isContainerIDSource (Sources assoc) →
  length (Sources assoc) ≤ PodIdentifierMaxLength →
  identifiersOfAssoc pod assoc =
    Some (if ruleSkipped pod false (Sources assoc) then []
          else [(sourceAttribute pod <$> Sources assoc) ++
                replicate (PodIdentifierMaxLength - length (Sources assoc))
                  zeroAttribute]).
Proof.
  intros Hno Hlen.
  destruct (identifiersOfAssoc_total pod assoc Hlen) as [ids Hids].
  rewrite Hids. f_equal.
  apply identifiersOfAssoc_spec in Hids as (st & Hs & Hcases).
  rewrite <- (identifiersOfAssoc_skip _ _ _ Hs).
  destruct Hcases as [[-> ->]|[(Hsk & _ & ->)|(_ & k & s & Hk & Hc & _)]].
  - done.
  - rewrite Hsk. f_equal.
    rewrite (scanSources_ret _ _ _ _ _ Hs Hsk); rewrite ?length_initialScan.
    + simpl. do 2 f_equal. lia.
    + simpl. lia.
    + simpl. apply Forall_forall. by intros a [-> _]%elem_of_replicate.
  - exfalso. apply Hno, Exists_exists. exists s. split; [|done].
    by eapply list_elem_of_lookup_2.
Qed.

(** ** Telemetry *)

Lemma counterOf_not_gauge k n :
  counterOf k n ≠ "OtelsvcK8sPodTableSize" ∧ counterOf k n ≠ "OtelsvcK8sIPLookupMiss".
Proof. by destruct k, n. Qed.

Lemma handleOther_telemetry c k n time_Now c' :
  k ≠ KPod → handle c (EvNotify k n time_Now) = Some c' →
  telemetryBuilder c' =
    <[counterOf k n := (default 0 (telemetryBuilder c !! counterOf k n) + 1)%Z]>
      (telemetryBuilder c).
Proof.
  intros Hk Hh. rewrite (handleOther_frame _ _ _ _ _ Hk Hh) at 1. done.
Qed.




(** ** Start-up *)

(** [Start] panics exactly when the pod informer or the namespace informer
    is nil, or a deployment rule is on and the replica set informer is
    nil.  On a client that [New] has built it never does, and starts the
    informers of the kinds the rules ask for, those and no others, on empty
    tables. *)
Theorem Start_informers :
  (∀ c, Start c = None ↔
        informer c = None ∨ namespaceInformer c = None ∨
        (DeploymentName (Rules c) || DeploymentUID (Rules c) = true ∧
         replicasetInformer c = None)) ∧
  (∀ rules associations exclude,
     ∃ c, Start (New rules associations exclude) = Some c ∧
          (∀ k, informerOf c k = if watches rules k then Some (mkInformer true true)
                                 else None) ∧
          (∀ k n time_Now, enabled c (EvNotify k n time_Now) = watches rules k) ∧
          Pods c = ∅ ∧ deleteQueue c = [] ∧
          sameStores (New rules associations exclude) c).
Proof.
  split.
  - intros c.
    unfold Start.
    destruct (DeploymentName (Rules c) || DeploymentUID (Rules c));
      destruct (replicasetInformer c), (namespaceInformer c), (informer c);
      simpl; naive_solver.
  - intros rules associations exclude.
    unfold Start, New. simpl.
    destruct (DeploymentName rules || DeploymentUID rules) eqn:Hd; simpl;
      (eexists; split; [reflexivity|]);
      (split_and!; [| |done|done|done]);
      try (intros k n time_Now; unfold enabled);
      try (intros k); destruct k; simpl; rewrite ?Hd; try done;
      repeat match goal with
      | |- context [if ?b then _ else _] => destruct b; simpl
      end; done.
Qed.

Lemma GetPod_telemetry c (identifier : PodIdentifier) :
  telemetryBuilder (GetPod c identifier).2 =
  match Pods c !! identifier with
  | Some _ => telemetryBuilder c
  | None =>
      <["OtelsvcK8sIPLookupMiss" :=
          (default 0 (telemetryBuilder c !! "OtelsvcK8sIPLookupMiss") + 1)%Z]>
        (telemetryBuilder c)
  end.
Proof.
  unfold GetPod. destruct (Pods c !! identifier) as [p|]; [|done].
  by destruct (Pod_Ignore p).
Qed.

Lemma forgetIdentifier_telemetry pod time_Now ids name : ∀ st,
  name ≠ "OtelsvcK8sIPLookupMiss" →
  telemetryBuilder (foldl (forgetIdentifier pod time_Now) st ids).1 !! name
    = telemetryBuilder st.1 !! name.
Proof.
  induction ids as [|id ids IH]; intros st Hname; simpl; [done|].
  rewrite IH by done. unfold forgetIdentifier.
  pose proof (GetPod_telemetry st.1 id) as Ht.
  destruct (GetPod st.1 id) as [p c1]. simpl in Ht.
  assert (telemetryBuilder c1 !! name = telemetryBuilder st.1 !! name) as <-.
  { rewrite Ht. destruct (Pods st.1 !! id); [done|]. by rewrite lookup_insert_ne. }
  destruct p as [p|]; [|done]. by case_decide.
Qed.

Lemma forgetPod_telemetry c pod time_Now c' name :
  forgetPod c pod time_Now = Some c' → name ≠ "OtelsvcK8sIPLookupMiss" →
  telemetryBuilder c' !! name = telemetryBuilder c !! name.
Proof.
  unfold forgetPod. intros Hf Hname.
  destruct (getIdentifiersFromAssoc c (podFromAPI c pod)) as [ids|]; [|done].
  simpl in Hf. injection Hf as <-.
  by rewrite forgetIdentifier_telemetry.
Qed.

Lemma handlePod_shape c n time_Now c' :
  handle c (EvNotify KPod n time_Now) = Some c' →
  let c0 := telemetry_Add (counterOf KPod n) 1 c in
  ∃ c1, c' = recordPodTableSize c1 ∧
        (c1 = c0 ∨ (∃ pod, addOrUpdatePod c0 pod = Some c1) ∨
         (∃ pod, forgetPod c0 pod time_Now = Some c1)).
Proof.
  destruct n as [obj|oldObj obj|obj]; simpl;
    unfold handlePodAdd, handlePodUpdate, handlePodDelete; intros Hh;
    match type of Hh with
    | (?m ≫= _) = _ => destruct m as [c1|] eqn:Hm; simpl in Hh; [|done]
    end;
    injection Hh as <-; exists c1; (split; [done|]).
  - destruct obj; simplify_eq; eauto.
  - destruct obj; simplify_eq; eauto.
  - destruct (ignoreDeletedFinalStateUnknown obj); simplify_eq; eauto.
Qed.

Lemma handlePod_telemetry c n time_Now c' name :
  handle c (EvNotify KPod n time_Now) = Some c' →
  name ≠ "OtelsvcK8sPodTableSize" → name ≠ "OtelsvcK8sIPLookupMiss" →
  telemetryBuilder c' !! name =
    <[counterOf KPod n := (default 0 (telemetryBuilder c !! counterOf KPod n) + 1)%Z]>
      (telemetryBuilder c) !! name.
Proof.
  intros Hh Hg Hm.
  destruct (handlePod_shape _ _ _ _ Hh) as (c1 & -> & Hc1).
  unfold recordPodTableSize, telemetry_Record. simpl.
  rewrite lookup_insert_ne by done.
  destruct Hc1 as [->|[[pod Ha]|[pod Ha]]].
  - done.
  - by rewrite (addOrUpdatePod_frame _ _ _ Ha).
  - by rewrite (forgetPod_telemetry _ _ _ _ _ Ha).
Qed.

(** Every notification increments the counter of its kind and action by
    one; of the other instruments it can change the pod table size gauge
    and, through the lookups of a pod deletion, the lookup-miss counter
    only.  A pod query increments the lookup-miss counter exactly when the
    pod table has no entry under the identifier (a hidden, ignored entry is
    not counted as a miss). *)
Theorem telemetry_counters c :
  (∀ k n time_Now c',
     handle c (EvNotify k n time_Now) = Some c' →
     telemetryBuilder c' !! counterOf k n =
       Some (default 0 (telemetryBuilder c !! counterOf k n) + 1)%Z ∧
     ∀ name, name ≠ counterOf k n →
             name ≠ "OtelsvcK8sPodTableSize" → name ≠ "OtelsvcK8sIPLookupMiss" →
             telemetryBuilder c' !! name = telemetryBuilder c !! name)
  ∧
  (∀ identifier : PodIdentifier,
     telemetryBuilder (GetPod c identifier).2 =
     match Pods c !! identifier with
     | Some _ => telemetryBuilder c
     | None =>
         <["OtelsvcK8sIPLookupMiss" :=
             (default 0 (telemetryBuilder c !! "OtelsvcK8sIPLookupMiss") + 1)%Z]>
           (telemetryBuilder c)
     end).
Proof.
  split; [|apply GetPod_telemetry].
  intros k n time_Now c' Hh.
  destruct (counterOf_not_gauge k n) as [Hg Hm].
  assert (∀ name, name ≠ "OtelsvcK8sPodTableSize" → name ≠ "OtelsvcK8sIPLookupMiss" →
            telemetryBuilder c' !! name =
            <[counterOf k n := (default 0 (telemetryBuilder c !! counterOf k n) + 1)%Z]>
              (telemetryBuilder c) !! name) as Ht.
  { intros name Hng Hnm. destruct (decide (k = KPod)) as [->|Hk].
    - by apply (handlePod_telemetry _ _ time_Now).
    - by rewrite (handleOther_telemetry _ _ _ _ _ Hk Hh). }
  split.
  - by rewrite Ht, lookup_insert_eq.
  - intros name Hn Hng Hnm. by rewrite Ht, lookup_insert_ne.
Qed.

End CacheProperties.

Section TransformProperties.
Context `{Externals} `{OwnerMetadataRule}.

(** The transforms of the informers keep what identifies an object.
    Whatever the rules, the transformed pod has the name, namespace, UID,
    address, start time and host-network flag of the original, so it is
    stored under the same fallback identifiers.  The transformed replica
    set has everything the replica set handlers read: handling it gives the
    same client as handling the original.  Transforming twice is
    transforming once. *)
Theorem informer_transforms_keep_identity c (pod : api_Pod) (rules : ExtractionRules)
    (object : Object) :
  (let pod' := removeUnnecessaryPodData pod rules in
   Meta_Name (Meta pod') = Meta_Name (Meta pod) ∧
   Meta_Namespace (Meta pod') = Meta_Namespace (Meta pod) ∧
   Meta_UID (Meta pod') = Meta_UID (Meta pod) ∧
   Status_PodIP (Status pod') = Status_PodIP (Status pod) ∧
   Status_StartTime (Status pod') = Status_StartTime (Status pod) ∧
   Spec_HostNetwork (Spec pod') = Spec_HostNetwork (Spec pod) ∧
   removeUnnecessaryPodData pod' rules = pod' ∧
   fallbackIdentifiers (podFromAPI c pod') = fallbackIdentifiers (podFromAPI c pod)) ∧
  (handleReplicaSetAdd c (replicasetTransform object) = handleReplicaSetAdd c object ∧
   (∀ old, handleReplicaSetUpdate c old (replicasetTransform object)
           = handleReplicaSetUpdate c old object) ∧
   handleReplicaSetDelete c (replicasetTransform object)
     = handleReplicaSetDelete c object ∧
   replicasetTransform (replicasetTransform object) = replicasetTransform object).
Proof.
  split.
  - intros pod'. subst pod'. split_and!; try done.
    unfold removeUnnecessaryPodData. simpl.
    f_equal; [f_equal|f_equal|f_equal];
      try (by repeat match goal with |- context [if ?b then _ else _] => destruct b end);
      match goal with |- context [if ?b then _ else _] => destruct b end; try done;
      rewrite <- list_fmap_compose; apply list_fmap_ext; intros _ x _;
      unfold removeUnnecessaryContainerData, removeUnnecessaryContainerStatus; simpl;
      f_equal; by repeat match goal with |- context [if ?b then _ else _] => destruct b end.
  - destruct object; done.
Qed.

(** The transform of the pod informer drops the annotations when no
    annotation rule is configured; on a transformed pod the ignore
    annotation then has no effect, and only the exclusion by name is
    left. *)
Theorem ignore_annotation_needs_annotation_rule c (pod : api_Pod) :
  shouldIgnorePod c (removeUnnecessaryPodData pod (Rules c)) =
  if bool_decide (0 < length (Annotations (Rules c)))
  then shouldIgnorePod c pod
  else existsb (λ excludedPod : string → bool, excludedPod (Meta_Name (Meta pod)))
               (Exclude_Pods (Exclude c)).
Proof.
  unfold shouldIgnorePod, removeUnnecessaryPodData. simpl.
  case_bool_decide; [done|]. by rewrite lookup_empty.
Qed.

End TransformProperties.

Ltac owner_lookup rules :=
  unfold PodAttributes.ownerTags, PodAttributes.setIf;
  repeat (case_decide; try congruence);
  repeat match goal with
  | |- context [?f rules] =>
      match type of (f rules) with bool => destruct (f rules) end
  end;
  simpl;
  repeat match goal with
  | |- context [match ?m !! ?k with _ => _ end] => destruct (m !! k)
  | |- context [match cronJobRegex_FindStringSubmatch ?s with _ => _ end] =>
      destruct (cronJobRegex_FindStringSubmatch s) as [|? [|? [|? ?]]]
  | |- context [decide ?P] => destruct (decide P)
  end;
  simpl; repeat (rewrite lookup_insert_ne by done); rewrite ?lookup_insert_eq;
  try done.

Section PodAttributeProperties.
Context `{PodAttributeExternals}.
Import PodAttributes.

Lemma lookup_setIf b k v (tags : gmap string string) key :
  setIf b k v tags !! key =
  if b && bool_decide (k = key) then Some v else tags !! key.
Proof.
  unfold setIf. destruct b; simpl; [|done].
  case_bool_decide as Hk; [subst; by rewrite lookup_insert_eq|].
  by rewrite lookup_insert_ne.
Qed.

Lemma lookup_setIf_ne b k v (tags : gmap string string) key :
  k ≠ key → setIf b k v tags !! key = tags !! key.
Proof.
  intros Hk. rewrite lookup_setIf, (bool_decide_eq_false_2 _ Hk).
  by rewrite andb_false_r.
Qed.

Lemma lookup_copyLabel pod (tags : gmap string string) labelKey k key :
  copyLabel pod tags labelKey k !! key =
  match Meta_Labels (Meta pod) !! labelKey with
  | Some val => if bool_decide (k = key) then Some val else tags !! key
  | None => tags !! key
  end.
Proof.
  unfold copyLabel. destruct (Meta_Labels (Meta pod) !! labelKey); [|done].
  case_bool_decide as Hk; [subst; by rewrite lookup_insert_eq|].
  by rewrite lookup_insert_ne.
Qed.

Lemma foldl_metadata_keeps key metadata formatter rules : ∀ tags,
  (∀ r tags, r ∈ rules →
     extractFromPodMetadata r metadata tags formatter !! key = tags !! key) →
  foldl (λ tags r, extractFromPodMetadata r metadata tags formatter) tags rules !! key
    = tags !! key.
Proof.
  induction rules as [|r rules IH]; intros tags Hk; simpl; [done|].
  rewrite IH by (intros r' tags' Hin; apply Hk; by right).
  apply Hk. by left.
Qed.

Lemma ownerTags_service rules replicasets tags ref cur :
  ServiceName rules = true →
  tags !! ServiceNameKey = Some cur →
  ownerTags rules replicasets tags ref !! ServiceNameKey
    = Some (ownerServiceName replicasets cur ref).
Proof.
  intros Hs Hcur. unfold ownerTags, ownerServiceName. rewrite Hs.
  rewrite !orb_true_r.
  repeat case_decide.
  - assert (∀ t : gmap string string,
              (if DeploymentUID rules
               then match replicasets !! Ref_UID ref with
                    | Some replicaset =>
                        if decide (Deployment_Name (ReplicaSet_Deployment replicaset) ≠ "")
                        then <[K8SDeploymentUIDKey :=
                                 Deployment_UID (ReplicaSet_Deployment replicaset)]> t
                        else t
                    | None => t
                    end
               else t) !! ServiceNameKey = t !! ServiceNameKey) as ->.
    { intros t. destruct (DeploymentUID rules); [|done].
      destruct (replicasets !! Ref_UID ref); [|done].
      case_decide; [|done]. by rewrite lookup_insert_ne. }
    destruct (replicasets !! Ref_UID ref) as [rs|].
    + case_decide.
      * by rewrite lookup_setIf.
      * by rewrite lookup_setIf.
    + by rewrite lookup_setIf.
  - by rewrite lookup_setIf.
  - by rewrite lookup_setIf.
  - destruct (cronJobRegex_FindStringSubmatch (Ref_Name ref)) as [|w [|g [|? ?]]];
      by rewrite lookup_setIf.
  - done.
Qed.

Lemma foldl_ownerTags_service rules replicasets refs : ∀ tags cur,
  ServiceName rules = true →
  tags !! ServiceNameKey = Some cur →
  foldl (ownerTags rules replicasets) tags refs !! ServiceNameKey
    = Some (foldl (ownerServiceName replicasets) cur refs).
Proof.
  induction refs as [|ref refs IH]; intros tags cur Hs Hcur; simpl; [done|].
  apply IH; [done|]. by apply ownerTags_service.
Qed.

(** The service name of a pod, when the rule is on and none of the
    configured label and annotation rules writes the tag service.name for
    the pod (the label rules run after the owner references are read, the
    annotation rules last), the four tags named in kube.go being other
    tags: the label app.kubernetes.io/instance, else
    the label app.kubernetes.io/name, else the name the last owner
    reference of a known kind stands for (the deployment of a replica set,
    the cron job of a job, before the owner's own name), else the pod's
    name. *)
Theorem service_name_precedence rules namespaces replicasets (pod : api_Pod) :
  ServiceName rules = true →
  rulesKeep rules pod ServiceNameKey →
  tagHostName ≠ ServiceNameKey → tagStartTime ≠ ServiceNameKey →
  tagNodeName ≠ ServiceNameKey → tagClusterUID ≠ ServiceNameKey →
  extractPodAttributes rules namespaces replicasets pod !! ServiceNameKey =
  Some
    match Meta_Labels (Meta pod) !! "app.kubernetes.io/instance",
          Meta_Labels (Meta pod) !! "app.kubernetes.io/name" with
    | Some instance, _ => instance
    | None, Some name => name
    | None, None =>
        foldl (ownerServiceName replicasets) (Meta_Name (Meta pod))
              (Meta_OwnerReferences (Meta pod))
    end.
Proof.
  intros Hs [Hlab Hann] Hh Ht Hn Hc. unfold extractPodAttributes. rewrite Hs.
  rewrite !orb_true_r.
  rewrite foldl_metadata_keeps by exact Hann.
  assert (∀ t : gmap string string,
            (if ServiceVersion rules
             then copyLabel pod t "app.kubernetes.io/version" ServiceVersionKey
             else t) !! ServiceNameKey = t !! ServiceNameKey) as ->.
  { intros t. destruct (ServiceVersion rules); [|done].
    rewrite lookup_copyLabel. by destruct (Meta_Labels (Meta pod) !! _). }
  rewrite !lookup_copyLabel. simpl.
  destruct (Meta_Labels (Meta pod) !! "app.kubernetes.io/instance") as [i|]; [done|].
  destruct (Meta_Labels (Meta pod) !! "app.kubernetes.io/name") as [n|]; [done|].
  rewrite foldl_metadata_keeps by exact Hlab.
  assert (∀ t : gmap string string,
            (if ClusterUID rules
             then match namespaces !! "kube-system" with
                  | Some val => <[tagClusterUID := Namespace_NamespaceUID val]> t
                  | None => t
                  end
             else t) !! ServiceNameKey = t !! ServiceNameKey) as ->.
  { intros t. destruct (ClusterUID rules); [|done].
    destruct (namespaces !! "kube-system"); [|done]. by rewrite lookup_insert_ne. }
  rewrite lookup_setIf_ne by done.
  apply foldl_ownerTags_service; [done|].
  rewrite lookup_setIf_ne by done.
  assert (∀ t : gmap string string,
            (if StartTime rules
             then match Meta_CreationTimestamp (Meta pod) with
                  | Some ts =>
                      match Time_MarshalText ts with
                      | Some rfc3339ts => <[tagStartTime := rfc3339ts]> t
                      | None => t
                      end
                  | None => t
                  end
             else t) !! ServiceNameKey = t !! ServiceNameKey) as ->.
  { intros t. destruct (StartTime rules); [|done].
    destruct (Meta_CreationTimestamp (Meta pod)) as [ts|]; [|done].
    destruct (Time_MarshalText ts); [|done]. by rewrite lookup_insert_ne. }
  rewrite !lookup_setIf_ne by done.
  by rewrite lookup_insert_eq.
Qed.

(** *** Cron job names *)

Lemma splitLastHyphen_None s :
  allChars (λ a, negb (isHyphen a)) s = true → splitLastHyphen s = None.
Proof.
  induction s as [|a s IH]; simpl; [done|].
  intros [Ha Hs]%andb_true_iff. rewrite (IH Hs).
  by apply negb_true_iff in Ha as ->.
Qed.

Lemma isDigit_not_hyphen s :
  allChars isDigit s = true → allChars (λ a, negb (isHyphen a)) s = true.
Proof.
  induction s as [|a s IH]; simpl; [done|].
  intros [Ha Hs]%andb_true_iff. rewrite (IH Hs), andb_true_r.
  unfold isDigit, isHyphen in *.
  apply andb_true_iff in Ha as [Hlo Hhi].
  apply Nat.leb_le in Hlo. apply negb_true_iff, Nat.eqb_neq. lia.
Qed.

Lemma splitLastHyphen_app before after :
  allChars (λ a, negb (isHyphen a)) after = true →
  splitLastHyphen (before +:+ ("-" +:+ after)) = Some (before, after).
Proof.
  intros Hafter. induction before as [|a before IH].
  - change (splitLastHyphen ("" +:+ ("-" +:+ after))) with
      (match splitLastHyphen after with
       | Some (b, a) => Some (String (Ascii.ascii_of_nat 45) b, a)
       | None => Some ("", after)
       end).
    by rewrite (splitLastHyphen_None _ Hafter).
  - change (splitLastHyphen (String a before +:+ ("-" +:+ after))) with
      (match splitLastHyphen (before +:+ ("-" +:+ after)) with
       | Some (b, a') => Some (String a b, a')
       | None => if isHyphen a then Some ("", before +:+ ("-" +:+ after)) else None
       end).
    by rewrite IH.
Qed.

Lemma splitLastHyphen_Some s before after :
  splitLastHyphen s = Some (before, after) →
  s = before +:+ ("-" +:+ after) ∧ allChars (λ a, negb (isHyphen a)) after = true.
Proof.
  revert before. induction s as [|a s IH]; intros before; simpl; [done|].
  destruct (splitLastHyphen s) as [[b' a']|] eqn:Hs.
  - intros [= <- <-]. destruct (IH b' eq_refl) as [-> Hall]. done.
  - destruct (isHyphen a) eqn:Ha; [|done]. intros [= <- <-].
    split.
    + change ("" +:+ ("-" +:+ s)) with (String (Ascii.ascii_of_nat 45) s).
      f_equal. unfold isHyphen in Ha. apply Nat.eqb_eq in Ha.
      by rewrite <- (Ascii.ascii_nat_embedding a), Ha.
    + clear IH Ha. induction s as [|x s IHs]; simpl in *; [done|].
      destruct (splitLastHyphen s) as [[? ?]|]; [done|].
      destruct (isHyphen x); [done|]. simpl. by apply IHs.
Qed.

Lemma cronJobRegex_match before digits :
  digits ≠ "" → allChars isDigit digits = true →
  allChars (λ a, negb (isNewline a)) before = true →
  cronJobRegex_FindStringSubmatch (before +:+ ("-" +:+ digits))
    = [before +:+ ("-" +:+ digits); before].
Proof.
  intros Hne Hd Hb. unfold cronJobRegex_FindStringSubmatch.
  rewrite splitLastHyphen_app by by apply isDigit_not_hyphen.
  by rewrite (bool_decide_eq_false_2 _ Hne), Hd, Hb.
Qed.

Lemma cronJobRegex_result s :
  cronJobRegex_FindStringSubmatch s = [] ∨
  ∃ before digits,
    cronJobRegex_FindStringSubmatch s = [s; before] ∧
    s = before +:+ ("-" +:+ digits) ∧ digits ≠ "" ∧
    allChars isDigit digits = true ∧
    allChars (λ a, negb (isNewline a)) before = true.
Proof.
  unfold cronJobRegex_FindStringSubmatch.
  destruct (splitLastHyphen s) as [[before after]|] eqn:Hs; [|by left].
  destruct (negb (bool_decide (after = "")) && allChars isDigit after
            && allChars (λ a, negb (isNewline a)) before) eqn:Hc; [|by left].
  right. apply andb_true_iff in Hc as [[Hne Hd]%andb_true_iff Hb].
  apply negb_true_iff, bool_decide_eq_false in Hne.
  apply splitLastHyphen_Some in Hs as [Heq _].
  exists before, after. done.
Qed.

Lemma setIf_congr b k v (t1 t2 : gmap string string) key :
  t1 !! key = t2 !! key → setIf b k v t1 !! key = setIf b k v t2 !! key.
Proof. intros Ht. by rewrite !lookup_setIf, Ht. Qed.

Lemma insert_congr k v (t1 t2 : gmap string string) key :
  t1 !! key = t2 !! key → <[k := v]> t1 !! key = <[k := v]> t2 !! key.
Proof. intros Ht. by rewrite !lookup_insert, Ht. Qed.

Lemma ownerTags_congr rules replicasets t1 t2 ref key :
  t1 !! key = t2 !! key →
  ownerTags rules replicasets t1 ref !! key = ownerTags rules replicasets t2 ref !! key.
Proof.
  intros Ht. unfold ownerTags.
  repeat first
    [ done
    | apply setIf_congr
    | apply insert_congr
    | case_decide
    | match goal with
      | |- context [if ?b then _ else _] => destruct b
      | |- context [match ?m !! ?k with _ => _ end] => destruct (m !! k)
      | |- context [match cronJobRegex_FindStringSubmatch ?s with _ => _ end] =>
          destruct (cronJobRegex_FindStringSubmatch s) as [|? [|? [|? ?]]]
      end ].
Qed.

Lemma foldl_ownerTags_congr rules replicasets refs key : ∀ t1 t2,
  t1 !! key = t2 !! key →
  foldl (ownerTags rules replicasets) t1 refs !! key
    = foldl (ownerTags rules replicasets) t2 refs !! key.
Proof.
  induction refs as [|ref refs IH]; intros t1 t2 Ht; simpl; [done|].
  by apply IH, ownerTags_congr.
Qed.

Lemma extractPodAttributes_ownerKey rules namespaces replicasets (pod : api_Pod) key :
  ownerKey rules pod key →
  key ≠ K8SPodNameKey → key ≠ ServiceNameKey → key ≠ K8sIPLabelName →
  key ≠ K8SNamespaceNameKey → key ≠ K8SPodUIDKey → key ≠ ServiceVersionKey →
  extractPodAttributes rules namespaces replicasets pod !! key =
  if readsOwnerReferences rules
  then foldl (ownerTags rules replicasets) ∅ (Meta_OwnerReferences (Meta pod)) !! key
  else None.
Proof.
  intros ([Hlab Hann] & Hh & Ht & Hn & Hc) H1 H2 H3 H4 H5 H6.
  unfold extractPodAttributes.
  rewrite foldl_metadata_keeps by exact Hann.
  assert (∀ t : gmap string string,
            (if ServiceVersion rules
             then copyLabel pod t "app.kubernetes.io/version" ServiceVersionKey
             else t) !! key = t !! key) as ->.
  { intros t. destruct (ServiceVersion rules); [|done].
    rewrite lookup_copyLabel. destruct (Meta_Labels (Meta pod) !! _); [|done].
    by rewrite bool_decide_eq_false_2. }
  assert (∀ t : gmap string string,
            (if ServiceName rules
             then copyLabel pod
                    (copyLabel pod t "app.kubernetes.io/name" ServiceNameKey)
                    "app.kubernetes.io/instance" ServiceNameKey
             else t) !! key = t !! key) as ->.
  { intros t. destruct (ServiceName rules); [|done].
    rewrite !lookup_copyLabel.
    repeat (destruct (Meta_Labels (Meta pod) !! _));
      by rewrite ?bool_decide_eq_false_2. }
  rewrite foldl_metadata_keeps by exact Hlab.
  assert (∀ t : gmap string string,
            (if ClusterUID rules
             then match namespaces !! "kube-system" with
                  | Some val => <[tagClusterUID := Namespace_NamespaceUID val]> t
                  | None => t
                  end
             else t) !! key = t !! key) as ->.
  { intros t. destruct (ClusterUID rules); [|done].
    destruct (namespaces !! "kube-system"); [|done]. by rewrite lookup_insert_ne. }
  rewrite lookup_setIf_ne by done.
  fold (readsOwnerReferences rules).
  assert (∀ t : gmap string string,
            (if StartTime rules
             then match Meta_CreationTimestamp (Meta pod) with
                  | Some ts =>
                      match Time_MarshalText ts with
                      | Some rfc3339ts => <[tagStartTime := rfc3339ts]> t
                      | None => t
                      end
                  | None => t
                  end
             else t) !! key = t !! key) as Hst.
  { intros t. destruct (StartTime rules); [|done].
    destruct (Meta_CreationTimestamp (Meta pod)) as [ts|]; [|done].
    destruct (Time_MarshalText ts); [|done]. by rewrite lookup_insert_ne. }
  destruct (readsOwnerReferences rules).
  - apply foldl_ownerTags_congr.
    by rewrite lookup_setIf_ne, Hst, !lookup_setIf_ne by done.
  - by rewrite lookup_setIf_ne, Hst, !lookup_setIf_ne by done.
Qed.

Lemma ownerTags_deploymentName rules replicasets (t : gmap string string) ref :
  ownerTags rules replicasets t ref !! K8SDeploymentNameKey =
  if decide (Ref_Kind ref = "ReplicaSet") then
    if DeploymentName rules then
      match replicasets !! Ref_UID ref with
      | Some replicaset =>
          if decide (Deployment_Name (ReplicaSet_Deployment replicaset) ≠ "")
          then Some (Deployment_Name (ReplicaSet_Deployment replicaset))
          else t !! K8SDeploymentNameKey
      | None => t !! K8SDeploymentNameKey
      end
    else t !! K8SDeploymentNameKey
  else t !! K8SDeploymentNameKey.
Proof. owner_lookup rules. Qed.

Lemma ownerTags_deploymentUID rules replicasets (t : gmap string string) ref :
  ownerTags rules replicasets t ref !! K8SDeploymentUIDKey =
  if decide (Ref_Kind ref = "ReplicaSet") then
    if DeploymentUID rules then
      match replicasets !! Ref_UID ref with
      | Some replicaset =>
          if decide (Deployment_Name (ReplicaSet_Deployment replicaset) ≠ "")
          then Some (Deployment_UID (ReplicaSet_Deployment replicaset))
          else t !! K8SDeploymentUIDKey
      | None => t !! K8SDeploymentUIDKey
      end
    else t !! K8SDeploymentUIDKey
  else t !! K8SDeploymentUIDKey.
Proof. owner_lookup rules. Qed.

Lemma ownerTags_cronJobName rules replicasets (t : gmap string string) ref :
  ownerTags rules replicasets t ref !! K8SCronJobNameKey =
  if decide (Ref_Kind ref = "Job") then
    if CronJobName rules then
      match cronJobRegex_FindStringSubmatch (Ref_Name ref) with
      | [_; name] => Some name
      | _ => t !! K8SCronJobNameKey
      end
    else t !! K8SCronJobNameKey
  else t !! K8SCronJobNameKey.
Proof. owner_lookup rules. Qed.

Lemma foldl_ownerTags_deploymentName rules replicasets refs name : ∀ t,
  foldl (ownerTags rules replicasets) t refs !! K8SDeploymentNameKey = Some name →
  t !! K8SDeploymentNameKey = Some name ∨
  (DeploymentName rules = true ∧
   ∃ ref replicaset,
     ref ∈ refs ∧ Ref_Kind ref = "ReplicaSet" ∧
     replicasets !! Ref_UID ref = Some replicaset ∧
     Deployment_Name (ReplicaSet_Deployment replicaset) = name ∧ name ≠ "").
Proof.
  induction refs as [|ref refs IH]; intros t; simpl; [by left|].
  intros [Ht|(Hr & ref' & rs & Hin & ?)]%IH.
  - rewrite ownerTags_deploymentName in Ht.
    repeat case_match; simplify_eq; eauto.
    right. split; [done|]. eexists ref, _. split_and!; [left|done..].
  - right. split; [done|]. exists ref', rs. split; [by right|done].
Qed.

Lemma foldl_ownerTags_deploymentUID rules replicasets refs uid : ∀ t,
  foldl (ownerTags rules replicasets) t refs !! K8SDeploymentUIDKey = Some uid →
  t !! K8SDeploymentUIDKey = Some uid ∨
  (DeploymentUID rules = true ∧
   ∃ ref replicaset,
     ref ∈ refs ∧ Ref_Kind ref = "ReplicaSet" ∧
     replicasets !! Ref_UID ref = Some replicaset ∧
     Deployment_UID (ReplicaSet_Deployment replicaset) = uid ∧
     Deployment_Name (ReplicaSet_Deployment replicaset) ≠ "").
Proof.
  induction refs as [|ref refs IH]; intros t; simpl; [by left|].
  intros [Ht|(Hr & ref' & rs & Hin & ?)]%IH.
  - rewrite ownerTags_deploymentUID in Ht.
    repeat case_match; simplify_eq; eauto.
    right. split; [done|]. eexists ref, _. split_and!; [left|done..].
  - right. split; [done|]. exists ref', rs. split; [by right|done].
Qed.

Lemma readsOwnerReferences_true rules :
  DeploymentName rules = true ∨ DeploymentUID rules = true ∨
  CronJobName rules = true → readsOwnerReferences rules = true.
Proof.
  unfold readsOwnerReferences. intros [-> | [-> | ->]];
    by rewrite ?orb_true_r.
Qed.

(** When none of the configured label and annotation rules writes the tags
    k8s.deployment.name and k8s.deployment.uid for the pod, and the four
    tags named in kube.go are other tags, the deployment name and UID of a
    pod come from the replica set store alone: either tag is present only
    if its rule is on and an owner reference of kind ReplicaSet names a
    stored replica set whose deployment has a name, and it then holds that
    deployment's name or UID; for a pod with that single owner the tags are
    present exactly under their rules. *)
Theorem deployment_attributes_need_replicaset
    rules namespaces replicasets (pod : api_Pod) :
  ownerKey rules pod K8SDeploymentNameKey → ownerKey rules pod K8SDeploymentUIDKey →
  let tags := extractPodAttributes rules namespaces replicasets pod in
  (∀ name, tags !! K8SDeploymentNameKey = Some name →
     DeploymentName rules = true ∧
     ∃ ref replicaset,
       ref ∈ Meta_OwnerReferences (Meta pod) ∧ Ref_Kind ref = "ReplicaSet" ∧
       replicasets !! Ref_UID ref = Some replicaset ∧
       Deployment_Name (ReplicaSet_Deployment replicaset) = name ∧ name ≠ "") ∧
  (∀ uid, tags !! K8SDeploymentUIDKey = Some uid →
     DeploymentUID rules = true ∧
     ∃ ref replicaset,
       ref ∈ Meta_OwnerReferences (Meta pod) ∧ Ref_Kind ref = "ReplicaSet" ∧
       replicasets !! Ref_UID ref = Some replicaset ∧
       Deployment_UID (ReplicaSet_Deployment replicaset) = uid ∧
       Deployment_Name (ReplicaSet_Deployment replicaset) ≠ "") ∧
  (∀ ref replicaset,
     Meta_OwnerReferences (Meta pod) = [ref] → Ref_Kind ref = "ReplicaSet" →
     replicasets !! Ref_UID ref = Some replicaset →
     Deployment_Name (ReplicaSet_Deployment replicaset) ≠ "" →
     tags !! K8SDeploymentNameKey =
       (if DeploymentName rules
        then Some (Deployment_Name (ReplicaSet_Deployment replicaset)) else None) ∧
     tags !! K8SDeploymentUIDKey =
       (if DeploymentUID rules
        then Some (Deployment_UID (ReplicaSet_Deployment replicaset)) else None)).
Proof.
  intros Hkn Hku tags. subst tags.
  rewrite !extractPodAttributes_ownerKey by done.
  split_and!.
  - intros name Hl. destruct (readsOwnerReferences rules); [|done].
    by apply foldl_ownerTags_deploymentName in Hl as [Hl|Hl].
  - intros uid Hl. destruct (readsOwnerReferences rules); [|done].
    by apply foldl_ownerTags_deploymentUID in Hl as [Hl|Hl].
  - intros ref rs -> Hkind Hrs Hname. simpl.
    rewrite ownerTags_deploymentName, ownerTags_deploymentUID.
    rewrite !decide_True, Hrs, !decide_True by done.
    destruct (DeploymentName rules) eqn:Hdn, (DeploymentUID rules) eqn:Hdu;
      rewrite ?readsOwnerReferences_true by auto; simpl;
      repeat case_match; done.
Qed.

(** For a pod owned by a job, when the rule is on, none of the configured
    label and annotation rules writes the tag k8s.cronjob.name for the pod
    and the four tags named in kube.go are other tags: the cron job name is
    the job's name without its last hyphen and the digits after it; the tag
    is set for every job name of this form and for no other. *)
Theorem cronjob_name_from_job_name rules namespaces replicasets (pod : api_Pod) ref :
  CronJobName rules = true → ownerKey rules pod K8SCronJobNameKey →
  Meta_OwnerReferences (Meta pod) = [ref] → Ref_Kind ref = "Job" →
  let tags := extractPodAttributes rules namespaces replicasets pod in
  (∀ before digits,
     Ref_Name ref = before +:+ ("-" +:+ digits) →
     digits ≠ "" → allChars isDigit digits = true →
     allChars (λ a, negb (isNewline a)) before = true →
     tags !! K8SCronJobNameKey = Some before) ∧
  (∀ name, tags !! K8SCronJobNameKey = Some name →
     ∃ digits, Ref_Name ref = name +:+ ("-" +:+ digits) ∧ digits ≠ "" ∧
               allChars isDigit digits = true).
Proof.
  intros Hrule Hkey Hrefs Hkind tags. subst tags.
  rewrite extractPodAttributes_ownerKey by done.
  rewrite readsOwnerReferences_true by auto. rewrite Hrefs. simpl.
  rewrite ownerTags_cronJobName, decide_True, Hrule by done.
  split.
  - intros before digits -> Hne Hd Hb. by rewrite cronJobRegex_match.
  - intros name.
    destruct (cronJobRegex_result (Ref_Name ref))
      as [->|(before & digits & -> & Heq & Hne & Hd & _)]; [done|].
    intros [= <-]. eauto.
Qed.

Lemma ownerTags_other rules replicasets (t : gmap string string) ref key :
  key ∉ otherTags → ownerTags rules replicasets t ref !! key = t !! key.
Proof.
  unfold otherTags. rewrite !not_elem_of_cons. intros Hk. destruct_and!.
  unfold ownerTags, setIf.
  repeat (case_decide; try congruence);
  repeat match goal with
  | |- context [?f rules] =>
      match type of (f rules) with bool => destruct (f rules) end
  end;
  simpl;
  repeat match goal with
  | |- context [match ?m !! ?k with _ => _ end] => destruct (m !! k)
  | |- context [match cronJobRegex_FindStringSubmatch ?s with _ => _ end] =>
      destruct (cronJobRegex_FindStringSubmatch s) as [|? [|? [|? ?]]]
  | |- context [decide ?P] => destruct (decide P)
  end;
  simpl; repeat (rewrite lookup_insert_ne by done); done.
Qed.

Lemma foldl_ownerTags_other rules replicasets refs key : ∀ t : gmap string string,
  key ∉ otherTags → foldl (ownerTags rules replicasets) t refs !! key = t !! key.
Proof.
  induction refs as [|ref refs IH]; intros t Hk; simpl; [done|].
  by rewrite IH, ownerTags_other.
Qed.

Lemma cluster_uid_from_kube_system rules namespaces replicasets (pod : api_Pod) :
  ClusterUID rules = true →
  rulesKeep rules pod tagClusterUID → tagClusterUID ∉ otherTags →
  extractPodAttributes rules namespaces replicasets pod !! tagClusterUID =
    Namespace_NamespaceUID <$> namespaces !! "kube-system".
Proof.
  intros Hrule [Hlab Hann] Hfresh.
  pose proof Hfresh as Hk. unfold otherTags in Hk.
  rewrite !not_elem_of_cons in Hk. destruct_and!.
  unfold extractPodAttributes. rewrite Hrule.
  rewrite foldl_metadata_keeps by exact Hann.
  assert (∀ t : gmap string string,
            (if ServiceVersion rules
             then copyLabel pod t "app.kubernetes.io/version" ServiceVersionKey
             else t) !! tagClusterUID = t !! tagClusterUID) as ->.
  { intros t. destruct (ServiceVersion rules); [|done].
    rewrite lookup_copyLabel. destruct (Meta_Labels (Meta pod) !! _); [|done].
    rewrite bool_decide_eq_false_2; [done|]. by intros ?. }
  assert (∀ t : gmap string string,
            (if ServiceName rules
             then copyLabel pod
                    (copyLabel pod t "app.kubernetes.io/name" ServiceNameKey)
                    "app.kubernetes.io/instance" ServiceNameKey
             else t) !! tagClusterUID = t !! tagClusterUID) as ->.
  { intros t. destruct (ServiceName rules); [|done].
    rewrite !lookup_copyLabel.
    repeat (destruct (Meta_Labels (Meta pod) !! _));
      rewrite ?bool_decide_eq_false_2; try done; by intros ?. }
  rewrite foldl_metadata_keeps by exact Hlab.
  destruct (namespaces !! "kube-system") as [ns|] eqn:Hns; simpl.
  { by rewrite lookup_insert_eq. }
  rewrite lookup_setIf_ne by (by intros ?).
  assert (∀ t : gmap string string,
            t !! tagClusterUID = None →
            (if ReplicaSetID rules || ReplicaSetName rules ||
                DaemonSetUID rules || DaemonSetName rules ||
                JobUID rules || JobName rules ||
                StatefulSetUID rules || StatefulSetName rules ||
                DeploymentName rules || DeploymentUID rules ||
                CronJobName rules || ServiceName rules
             then foldl (ownerTags rules replicasets) t (Meta_OwnerReferences (Meta pod))
             else t) !! tagClusterUID = None) as Hown.
  { intros t Ht. case_match; [|done]. by rewrite foldl_ownerTags_other. }
  apply Hown.
  rewrite lookup_setIf_ne by (by intros ?).
  assert (∀ t : gmap string string,
            (if StartTime rules
             then match Meta_CreationTimestamp (Meta pod) with
                  | Some ts =>
                      match Time_MarshalText ts with
                      | Some rfc3339ts => <[tagStartTime := rfc3339ts]> t
                      | None => t
                      end
                  | None => t
                  end
             else t) !! tagClusterUID = t !! tagClusterUID) as ->.
  { intros t. destruct (StartTime rules); [|done].
    destruct (Meta_CreationTimestamp (Meta pod)) as [ts|]; [|done].
    destruct (Time_MarshalText ts); [|done]. rewrite lookup_insert_ne; [done|].
    by intros ?. }
  rewrite !lookup_setIf_ne by (by intros ?). done.
Qed.

End PodAttributeProperties.

Section PodAttributesOfTheCache.
Context `{Externals} `{PodAttributeExternals} `{OwnerMetadataRule}.
Import PodAttributes.

Lemma cluster_uid_after_namespace_events c (namespace : ObjectMeta) (pod : api_Pod) :
  ClusterUID (Rules c) = true →
  rulesKeep (Rules c) pod tagClusterUID → tagClusterUID ∉ otherTags →
  storesKeyed c →
  Meta_Name namespace = "kube-system" →
  let clusterUID c :=
    extractPodAttributes (Rules c) (Namespaces c) (ReplicaSets c) pod !! tagClusterUID in
  clusterUID (handleNamespaceAdd c (NamespaceObj namespace)) = Some (Meta_UID namespace) ∧
  clusterUID (handleNamespaceDelete c (NamespaceObj namespace)) = None ∧
  clusterUID (handleNamespaceDelete c (DeletedFinalStateUnknown (NamespaceObj namespace)))
    = None.
Proof.
  intros Hrule Hkeeps Hfresh Hkeyed Hname clusterUID. subst clusterUID. simpl.
  assert (∀ obj, ignoreDeletedFinalStateUnknown obj = NamespaceObj namespace →
            Namespaces (handleNamespaceDelete c obj) !! "kube-system" = None) as Hdel.
  { intros obj Hobj. destruct Hkeyed as (Hns & _).
    unfold handleNamespaceDelete. rewrite Hobj, Hname. simpl.
    destruct (Namespaces c !! "kube-system") as [r|] eqn:Hr; simpl; [|done].
    by rewrite (Hns _ _ Hr), lookup_delete_eq. }
  assert (∀ c', Rules c' = Rules c →
            extractPodAttributes (Rules c') (Namespaces c') (ReplicaSets c') pod
              !! tagClusterUID
            = Namespace_NamespaceUID <$> Namespaces c' !! "kube-system") as Huid.
  { intros c' Hc'. apply cluster_uid_from_kube_system; by rewrite ?Hc'. }
  split_and!.
  - rewrite Huid by (unfold_handlers; by case_decide).
    unfold handleNamespaceAdd, addOrUpdateNamespace.
    rewrite decide_True by by rewrite Hname. simpl.
    by rewrite Hname, lookup_insert_eq.
  - rewrite Huid by (unfold_handlers; simpl; by case_match).
    by rewrite Hdel.
  - rewrite Huid by (unfold_handlers; simpl; by case_match).
    by rewrite Hdel.
Qed.

(** The attributes extracted from a pod the informer has transformed are
    those extracted from the original pod, provided the rules that read
    the owner references are among those for which the transform keeps
    them. *)
Theorem pod_transform_keeps_attributes rules namespaces replicasets (pod : api_Pod) :
  (readsOwnerReferences rules = true → IncludesOwnerMetadata rules = true) →
  extractPodAttributes rules namespaces replicasets (removeUnnecessaryPodData pod rules)
    = extractPodAttributes rules namespaces replicasets pod.
Proof.
  intros Hown. unfold extractPodAttributes, removeUnnecessaryPodData, copyLabel. simpl.
  fold (readsOwnerReferences rules).
  destruct (readsOwnerReferences rules) eqn:Hr;
    [rewrite (Hown eq_refl)|];
    destruct (StartTime rules), (PodHostName rules), (Rules_Node rules),
      (ServiceName rules), (ServiceVersion rules),
      (Labels rules) as [|l ls], (Annotations rules) as [|a ans];
    simpl; reflexivity.
Qed.

End PodAttributesOfTheCache.

Section ContainerProperties.
Context `{ImageExternals}.
Import Containers.

(** *** The runtime prefix of a container ID *)

Lemma append_nil_r (s : string) : s +:+ "" = s.
Proof. induction s as [|a s IH]; [done|]. unfold String.append in *. simpl. by rewrite IH. Qed.

Lemma append_snoc (cur : string) a s :
  (cur +:+ String a "") +:+ s = cur +:+ String a s.
Proof.
  induction cur as [|b cur IH]; [done|].
  unfold String.append in *. simpl. by rewrite IH.
Qed.

Lemma splitFrom_no_separator sep s : ∀ cur,
  strings_Contains s sep = false → splitFrom sep 0 cur s = [cur +:+ s].
Proof.
  induction s as [|a s IH]; intros cur; simpl.
  - intros _. by rewrite append_nil_r.
  - intros [Hp Hs]%orb_false_iff. rewrite Hp, IH by done. by rewrite append_snoc.
Qed.

Lemma prefix_not_colon a s :
  isColon a = false → strings_HasPrefix (String a s) "://" = false.
Proof.
  intros Ha. cbn [strings_HasPrefix].
  destruct (Ascii.eqb_spec (Ascii.Ascii false true false true true true false false) a)
    as [<-|]; [|done].
  by vm_compute in Ha.
Qed.

Lemma splitFrom_runtime_prefix runtime id : ∀ cur,
  allChars (λ a, negb (isColon a)) runtime = true →
  strings_Contains id "://" = false →
  ∃ first, splitFrom "://" 0 cur (runtime +:+ ("://" +:+ id)) = [first; id].
Proof.
  induction runtime as [|a runtime IH]; intros cur Hr Hid.
  - exists cur.
    change (splitFrom "://" 0 cur ("" +:+ ("://" +:+ id)))
      with (cur :: splitFrom "://" 0 "" id).
    by rewrite splitFrom_no_separator.
  - simpl in Hr. apply andb_true_iff in Hr as [Ha Hr].
    apply negb_true_iff in Ha.
    change (String a runtime +:+ ("://" +:+ id))
      with (String a (runtime +:+ ("://" +:+ id))).
    cbn [splitFrom]. rewrite prefix_not_colon by done.
    by apply IH.
Qed.

(** *** The two tables *)

Lemma foldl_addSpec_tableByID rules specs : ∀ t,
  tableByID (foldl (addSpec rules) t specs) = tableByID t.
Proof. induction specs as [|spec specs IH]; intros t; simpl; [done|]. by rewrite IH. Qed.

Lemma addStatus_tables rules pod t apiStatus :
  ∃ container,
    tableByID (addStatus rules pod t apiStatus) =
      <[withoutRuntimePrefix (Status_ContainerID apiStatus) := container]>
        (tableByID t) ∧
    tableByName (addStatus rules pod t apiStatus) !! Status_Container_Name apiStatus
      = Some container ∧
    (∀ name p, tableByName t !! name = Some p →
               tableByName (addStatus rules pod t apiStatus) !! name = Some p).
Proof.
  unfold addStatus.
  destruct (tableByName t !! Status_Container_Name apiStatus) as [p|] eqn:Hp; simpl.
  - exists p. done.
  - exists (length (cells t)). split_and!; [done|by rewrite lookup_insert_eq|].
    intros name p Hn. rewrite lookup_insert_ne; [done|]. by intros <-; congruence.
Qed.

(** Every identifier of the table came with a status, and points where the
    name of that status points. *)
Lemma foldl_addStatus_tables rules pod statuses : ∀ t id container,
  tableByID (foldl (addStatus rules pod) t statuses) !! id = Some container →
  (tableByID t !! id = Some container ∧
   ∀ name p, tableByName t !! name = Some p →
             tableByName (foldl (addStatus rules pod) t statuses) !! name = Some p) ∨
  ∃ apiStatus,
    apiStatus ∈ statuses ∧
    withoutRuntimePrefix (Status_ContainerID apiStatus) = id ∧
    tableByName (foldl (addStatus rules pod) t statuses)
      !! Status_Container_Name apiStatus = Some container.
Proof.
  induction statuses as [|st statuses IH]; intros t id container; simpl.
  - intros Hid. by left.
  - intros Hid. destruct (addStatus_tables rules pod t st) as (p & Hbyid & Hname & Hmono).
    destruct (IH _ _ _ Hid) as [[Hold Hkeep]|(st' & Hin & Hst & Hn)].
    + rewrite Hbyid, lookup_insert in Hold. case_decide as Hcase.
      * right. exists st. simplify_eq. split_and!; [left|done|by apply Hkeep].
      * left. split; [done|]. intros name q Hq. by apply Hkeep, Hmono.
    + right. exists st'. split_and!; [by right|done|done].
Qed.

Lemma foldl_addStatus_tableByID rules pod statuses : ∀ t id,
  is_Some (tableByID (foldl (addStatus rules pod) t statuses) !! id) ↔
  is_Some (tableByID t !! id) ∨
  ∃ apiStatus, apiStatus ∈ statuses ∧
               withoutRuntimePrefix (Status_ContainerID apiStatus) = id.
Proof.
  induction statuses as [|st statuses IH]; intros t id; simpl.
  - split; [by left|]. intros [?|(st & Hin & _)]; [done|]. by apply elem_of_nil in Hin.
  - rewrite IH. destruct (addStatus_tables rules pod t st) as (p & -> & _).
    rewrite lookup_insert. split.
    + intros [Hs|(st' & Hin & Hst)].
      * case_decide; [right; exists st; split; [left|done]|by left].
      * right. exists st'. split; [by right|done].
    + intros [Hs|(st' & [->|Hin]%elem_of_cons & Hst)].
      * left. by case_decide.
      * left. by rewrite decide_True.
      * right. eauto.
Qed.

Lemma tableByID_containerTableOf rules pod :
  ∀ id,
    is_Some (tableByID (containerTableOf rules pod) !! id) ↔
    ∃ apiStatus,
      apiStatus ∈ Status_ContainerStatuses (Status pod)
                  ++ Status_InitContainerStatuses (Status pod) ∧
      withoutRuntimePrefix (Status_ContainerID apiStatus) = id.
Proof.
  intros id. unfold containerTableOf. rewrite foldl_addStatus_tableByID.
  assert (tableByID
            (if ContainerImageName rules || ContainerImageTag rules ||
                ServiceVersion rules || ServiceInstanceID rules
             then foldl (addSpec rules) (mkContainerTable [] ∅ ∅)
                    (Spec_Containers (Spec pod) ++ Spec_InitContainers (Spec pod))
             else mkContainerTable [] ∅ ∅) = ∅) as ->.
  { case_match; [|done]. by rewrite foldl_addSpec_tableByID. }
  rewrite lookup_empty. split; [|by right]. intros [[? [=]]|?]; done.
Qed.

Lemma ByID_extractPodContainersAttributes rules pod id :
  is_Some (ByID (extractPodContainersAttributes rules pod) !! id) ↔
  needContainerAttributes rules = true ∧
  ∃ apiStatus,
    apiStatus ∈ Status_ContainerStatuses (Status pod)
                ++ Status_InitContainerStatuses (Status pod) ∧
    withoutRuntimePrefix (Status_ContainerID apiStatus) = id.
Proof.
  unfold extractPodContainersAttributes.
  destruct (needContainerAttributes rules); simpl.
  - rewrite lookup_fmap, fmap_is_Some, tableByID_containerTableOf. naive_solver.
  - rewrite lookup_empty. split; [by intros [? [=]]|by intros [[=] _]].
Qed.

(** A container ID is stored without its runtime prefix: an ID without
    "://" is kept as it is, and of runtime "://" ID, for a runtime without
    colon and an ID without "://", the part after the separator is kept.
    The table by ID has an entry exactly for the IDs, so stripped, of the
    container statuses and init container statuses of the pod, and none
    when no container rule is on. *)
Theorem container_id_without_runtime_prefix :
  (∀ id, strings_Contains id "://" = false → withoutRuntimePrefix id = id) ∧
  (∀ runtime id,
     allChars (λ a, negb (isColon a)) runtime = true →
     strings_Contains id "://" = false →
     withoutRuntimePrefix (runtime +:+ ("://" +:+ id)) = id) ∧
  (∀ rules pod id,
     is_Some (ByID (extractPodContainersAttributes rules pod) !! id) ↔
     needContainerAttributes rules = true ∧
     ∃ apiStatus,
       apiStatus ∈ Status_ContainerStatuses (Status pod)
                   ++ Status_InitContainerStatuses (Status pod) ∧
       withoutRuntimePrefix (Status_ContainerID apiStatus) = id).
Proof.
  split_and!.
  - intros id Hid. unfold withoutRuntimePrefix, strings_Split.
    by rewrite splitFrom_no_separator.
  - intros runtime id Hr Hid. unfold withoutRuntimePrefix, strings_Split.
    by destruct (splitFrom_runtime_prefix runtime id "" Hr Hid) as [first ->].
  - apply ByID_extractPodContainersAttributes.
Qed.

(** The two container tables hold the same records: a container found
    under an ID is the container found under the name of a status with
    that ID, with everything written to it through either table. *)
Theorem container_tables_share_records rules pod id container :
  ByID (extractPodContainersAttributes rules pod) !! id = Some container →
  ∃ apiStatus,
    apiStatus ∈ Status_ContainerStatuses (Status pod)
                ++ Status_InitContainerStatuses (Status pod) ∧
    withoutRuntimePrefix (Status_ContainerID apiStatus) = id ∧
    ByName (extractPodContainersAttributes rules pod)
      !! Status_Container_Name apiStatus = Some container.
Proof.
  unfold extractPodContainersAttributes.
  destruct (needContainerAttributes rules); simpl; [|done].
  rewrite lookup_fmap. intros Hid.
  apply fmap_Some in Hid as (p & Hp & ->).
  unfold containerTableOf in Hp.
  apply foldl_addStatus_tables in Hp as [[Hold _]|(st & Hin & Hst & Hn)].
  - exfalso. revert Hold. case_match; [|done].
    by rewrite foldl_addSpec_tableByID.
  - exists st. split_and!; [done|done|].
    rewrite lookup_fmap. unfold containerTableOf. by rewrite Hn.
Qed.













Lemma append_not_empty (s s' : string) : s' ≠ "" → s +:+ s' ≠ "".
Proof. destruct s; [done|]. by unfold String.append. Qed.

Lemma parseServiceVersionFromImage_Version image serviceVersion :
  parseServiceVersionFromImage image = Version serviceVersion →
  serviceVersion ≠ "" ∧
  ∃ ref,
    reference_Parse image = Some ref ∧ Reference_Named ref = true ∧
    let tag := default "" (Reference_Tag ref) in
    let digest := default "" (Reference_Digest ref) in
    serviceVersion =
      if decide (digest = "") then tag
      else if decide (tag = "") then digest
      else tag +:+ "@" +:+ digest.
Proof.
  unfold parseServiceVersionFromImage.
  destruct (reference_Parse image) as [ref|]; [|done].
  destruct (Reference_Named ref) eqn:Hnamed; [|done].
  simpl.
  set (tag := default "" (Reference_Tag ref)).
  set (digest := default "" (Reference_Digest ref)).
  destruct (decide (digest = "")) as [Hd|Hd], (decide (tag = "")) as [Ht|Ht].
  - by rewrite decide_False, decide_False by naive_solver.
  - rewrite decide_False, decide_True by naive_solver.
    intros [= <-]. split; [done|]. exists ref. by rewrite decide_True.
  - rewrite decide_True, decide_False by naive_solver.
    intros [= <-]. split; [done|]. exists ref.
    by rewrite decide_False, decide_True.
  - rewrite decide_True, decide_True by done.
    intros [= <-]. split; [by apply append_not_empty, append_not_empty|]. exists ref.
    by rewrite decide_False, decide_False.
Qed.

(** A container gets a service version only under the rule, and only from
    an image that both parsers accept; the version is never empty: it is
    the tag, the digest, or tag "@" digest when the reference has both.
    [errCannotRetrieveImage] is returned exactly for a parsed reference
    that is not named or has neither tag nor digest. *)
Theorem service_version_of_image rules spec :
  let image := Spec_Container_Image spec in
  (Container_ServiceVersion (containerOfSpec rules spec) ≠ "" →
   ServiceVersion rules = true ∧ is_Some (dcommon_ParseImageName image) ∧
   parseServiceVersionFromImage image
     = Version (Container_ServiceVersion (containerOfSpec rules spec))) ∧
  (∀ serviceVersion,
     parseServiceVersionFromImage image = Version serviceVersion →
     serviceVersion ≠ "" ∧
     (ServiceVersion rules = true → is_Some (dcommon_ParseImageName image) →
      Container_ServiceVersion (containerOfSpec rules spec) = serviceVersion) ∧
     ∃ ref,
       reference_Parse image = Some ref ∧ Reference_Named ref = true ∧
       let tag := default "" (Reference_Tag ref) in
       let digest := default "" (Reference_Digest ref) in
       serviceVersion =
         if decide (digest = "") then tag
         else if decide (tag = "") then digest
         else tag +:+ "@" +:+ digest) ∧
  (parseServiceVersionFromImage image = errCannotRetrieveImage ↔
   ∃ ref,
     reference_Parse image = Some ref ∧
     (Reference_Named ref = false ∨
      default "" (Reference_Tag ref) = "" ∧ default "" (Reference_Digest ref) = "")).
Proof.
  intros image. split_and!.
  - unfold containerOfSpec. fold image.
    destruct (dcommon_ParseImageName image) as [imageRef|]; simpl; [|done].
    destruct (ServiceVersion rules); [|done].
    by destruct (parseServiceVersionFromImage image).
  - intros serviceVersion Hv.
    destruct (parseServiceVersionFromImage_Version _ _ Hv) as [Hne Href].
    split_and!; [done| |done].
    intros Hrule [imageRef Hparse]. unfold containerOfSpec. fold image.
    by rewrite Hparse, Hrule, Hv.
  - unfold parseServiceVersionFromImage.
    destruct (reference_Parse image) as [ref|]; [|naive_solver].
    destruct (Reference_Named ref) eqn:Hnamed.
    + set (tag := default "" (Reference_Tag ref)).
      set (digest := default "" (Reference_Digest ref)).
      split.
      * repeat case_decide; try done. intros _. exists ref.
        split; [done|]. right.
        destruct (decide (tag = "")), (decide (digest = "")); naive_solver.
      * intros (ref' & [= <-] & [?|[Ht Hd]]); [congruence|].
        fold tag in Ht. fold digest in Hd.
        by rewrite decide_False, decide_False by naive_solver.
    + split; [|done]. intros _. exists ref. by split; [|left].
Qed.

End ContainerProperties.

(** ** The client on its own extraction functions *)

Section ClientWithExtraction.
Context `{OtherExternals} `{PodAttributeExternals} `{ImageExternals}.
#[local] Existing Instance withExtraction.

Lemma shouldIgnorePod_Exclude c c' (pod : api_Pod) :
  Exclude c' = Exclude c → shouldIgnorePod c' pod = shouldIgnorePod c pod.
Proof. unfold shouldIgnorePod. by intros ->. Qed.

Lemma Pod_Attributes_podFromAPI c (pod : api_Pod) :
  shouldIgnorePod c pod = false →
  Pod_Attributes (podFromAPI c pod) =
  PodAttributes.extractPodAttributes (Rules c) (Namespaces c) (ReplicaSets c) pod.
Proof. unfold podFromAPI. simpl. by intros ->. Qed.

(** When the rule is on, none of the configured label and annotation rules
    writes the cluster UID tag for the pod, and that tag is none of the
    other tags [extractPodAttributes] writes: the cluster UID in the
    record of a pod that is not ignored is the UID of the namespace
    kube-system in the namespace store.  A record built after that
    namespace has been added carries it, a record built after the
    namespace has been deleted does not. *)
Theorem pod_record_cluster_uid c (namespace : ObjectMeta) (pod : api_Pod) :
  ClusterUID (Rules c) = true →
  rulesKeep (Rules c) pod tagClusterUID → tagClusterUID ∉ otherTags →
  storesKeyed c →
  Meta_Name namespace = "kube-system" →
  shouldIgnorePod c pod = false →
  let clusterUID c := Pod_Attributes (podFromAPI c pod) !! tagClusterUID in
  clusterUID (handleNamespaceAdd c (NamespaceObj namespace)) = Some (Meta_UID namespace) ∧
  clusterUID (handleNamespaceDelete c (NamespaceObj namespace)) = None ∧
  clusterUID (handleNamespaceDelete c (DeletedFinalStateUnknown (NamespaceObj namespace)))
    = None.
Proof.
  intros Hrule Hkeeps Hfresh Hkeyed Hname Hignore clusterUID. subst clusterUID.
  cbv beta.
  destruct (cluster_uid_after_namespace_events c namespace pod
              Hrule Hkeeps Hfresh Hkeyed Hname) as (Hadd & Hdel & Hdel').
  assert (∀ c', Exclude c' = Exclude c → shouldIgnorePod c' pod = false) as Hsame.
  { intros c' Hc'. by rewrite (shouldIgnorePod_Exclude c c'). }
  rewrite !Pod_Attributes_podFromAPI;
    [done|apply Hsame; unfold_handlers; simpl; repeat case_match; done..].
Qed.

Lemma insert_replicate_head (a b : PodIdentifierAttribute) n :
  <[0 := a]> (<[0 := b]> (replicate n zeroAttribute)) = 
  match n with 0 => [] | S n' => a :: replicate n' zeroAttribute end.
Proof. by destruct n. Qed.

(** With the association [resource attribute container.id], a pod is
    identified by the container IDs of its container statuses and init
    container statuses, each without its runtime prefix: the association
    yields one identifier for each of these IDs and no other, and none at
    all when no container rule is on. *)
Theorem pod_identified_by_container_ids c (pod : api_Pod) assoc :
  Sources assoc = [mkAssociationSource ResourceSource ContainerIDKey] →
  0 < PodIdentifierMaxLength →
  shouldIgnorePod c pod = false →
  ∃ ids,
    identifiersOfAssoc (podFromAPI c pod) assoc = Some ids ∧
    ∀ identifier,
      identifier ∈ ids ↔
      needContainerAttributes (Rules c) = true ∧
      ∃ apiStatus,
        apiStatus ∈ Status_ContainerStatuses (Status pod)
                    ++ Status_InitContainerStatuses (Status pod) ∧
        identifier =
          PodIdentifier_lit
            (PodIdentifierAttributeFromResourceAttribute ContainerIDKey
               (withoutRuntimePrefix (Status_ContainerID apiStatus))).
Proof.
  intros Hsources Hpos Hignore.
  unfold identifiersOfAssoc. rewrite Hsources.
  assert (scanSources (podFromAPI c pod) 0
            [mkAssociationSource ResourceSource ContainerIDKey] initialScan
          = Some (mkAssocScan
                    (<[0 := PodIdentifierAttributeFromSource
                              (mkAssociationSource ResourceSource ContainerIDKey) ""]>
                       (ret initialScan))
                    false 0%Z)) as ->.
  { unfold scanSources, scanSource. simpl.
    rewrite array_set_in_range by (rewrite length_replicate; exact Hpos). done. }
  simpl.
  rewrite mapM_array_set by (rewrite length_insert, length_replicate; exact Hpos).
  eexists. split; [reflexivity|].
  intros identifier. rewrite list_elem_of_fmap.
  change (Z.to_nat 0) with 0.
  setoid_rewrite insert_replicate_head.
  setoid_rewrite containerIDs_elem.
  assert (Pod_Containers (podFromAPI c pod) =
          if needContainerAttributes (Rules c)
          then Containers.extractPodContainersAttributes (Rules c) pod
          else mkPodContainers ∅ ∅) as ->.
  { unfold podFromAPI. simpl. by rewrite Hignore. }
  unfold PodIdentifier_lit, PodIdentifierAttributeFromResourceAttribute.
  change kube_PodIdentifierMaxLength with PodIdentifierMaxLength.
  destruct PodIdentifierMaxLength as [|n]; [lia|]. simpl. rewrite Nat.sub_0_r.
  destruct (needContainerAttributes (Rules c)) eqn:Hneed.
  - setoid_rewrite ByID_extractPodContainersAttributes. rewrite Hneed. split.
    + intros (cID & -> & _ & st & Hin & <-). eauto.
    + intros (_ & st & Hin & ->). eauto 10.
  - split.
    + intros (cID & _ & Hsome). simpl in Hsome. rewrite lookup_empty in Hsome.
      by destruct Hsome.
    + by intros [[=] _].
Qed.

End ClientWithExtraction.

Section SelectorProperties.
Context `{SelectorExternals}.

Lemma foldlE_accepted {A B C E} (f : C → A → C + E) (g : A → B + E)
    (step : C → B → C) :
  (∀ acc a, f acc a = match g a with inl r => inl (step acc r) | inr e => inr e end) →
  ∀ l acc,
    match foldlE f acc l with
    | inl res => ∃ rs, accepted g l rs ∧ res = foldl step acc rs
    | inr err => firstRejected g l err
    end.
Proof.
  intros Hf. induction l as [|a l IH]; intros acc; simpl.
  - by exists [].
  - rewrite Hf. destruct (g a) as [r|e] eqn:Hg.
    + specialize (IH (step acc r)).
      destruct (foldlE f (step acc r) l) as [res|err].
      * destruct IH as (rs & Hrs & ->). exists (r :: rs). split.
        -- unfold accepted in *. by rewrite !fmap_cons, Hg, Hrs.
        -- done.
      * destruct IH as (before & b & after & rs & -> & Hrs & Hb).
        exists (a :: before), b, after, (r :: rs). split_and!; [done| |done].
        unfold accepted in *. by rewrite !fmap_cons, Hg, Hrs.
    + exists [], a, l, []. done.
Qed.

Lemma accepted_not_rejected {A B E} (g : A → B + E) l rs err :
  accepted g l rs → firstRejected g l err → False.
Proof.
  unfold accepted. intros Hacc (before & a & after & rs' & -> & _ & Ha).
  rewrite fmap_app in Hacc. simpl in Hacc. rewrite Ha in Hacc.
  assert (Hl : (inl <$> rs : list (B + E)) !! length before = Some (inr err)).
  { rewrite <- Hacc. rewrite lookup_app_r by (by rewrite length_fmap).
    by rewrite length_fmap, Nat.sub_diag. }
  rewrite list_lookup_fmap in Hl. by destruct (rs !! _).
Qed.

Lemma accepted_inj {A B E} (g : A → B + E) l rs rs' :
  accepted g l rs → accepted g l rs' → rs = rs'.
Proof.
  unfold accepted. intros -> Heq.
  by apply (inj (fmap inl)) in Heq.
Qed.

Lemma firstRejected_inj {A B E} (g : A → B + E) l err err' :
  firstRejected g l err → firstRejected g l err' → err = err'.
Proof.
  intros (b1 & a1 & t1 & rs1 & -> & Hr1 & Ha1) (b2 & a2 & t2 & rs2 & Heq & Hr2 & Ha2).
  destruct (decide (length b1 = length b2)) as [Hlen|Hlen].
  - apply app_inj_1 in Heq as [_ Heq]; [|done].
    injection Heq as -> _. rewrite Ha1 in Ha2. by injection Ha2.
  - exfalso. destruct (decide (length b1 < length b2)).
    + assert (b2 !! length b1 = Some a1) as Hl.
      { rewrite <- (lookup_app_l b2 (a2 :: t2)) by lia.
        rewrite <- Heq. by rewrite list_lookup_middle. }
      assert ((g <$> b2) !! length b1 = Some (inr err)) as Hg
        by (by rewrite list_lookup_fmap, Hl; simpl; rewrite Ha1).
      rewrite Hr2, list_lookup_fmap in Hg. by destruct (rs2 !! _).
    + assert (b1 !! length b2 = Some a2) as Hl.
      { rewrite <- (lookup_app_l b1 (a1 :: t1)) by lia.
        rewrite Heq. by rewrite list_lookup_middle. }
      assert ((g <$> b1) !! length b2 = Some (inr err')) as Hg
        by (by rewrite list_lookup_fmap, Hl; simpl; rewrite Ha2).
      rewrite Hr1, list_lookup_fmap in Hg. by destruct (rs1 !! _).
Qed.

Lemma foldl_snoc {A} (rs : list A) : ∀ acc,
  foldl (λ acc r, acc ++ [r]) acc rs = acc ++ rs.
Proof.
  induction rs as [|r rs IH]; intros acc; simpl; [by rewrite app_nil_r|].
  by rewrite IH, <- app_assoc.
Qed.

Lemma addLabelFilter_step acc f :
  addLabelFilter acc f =
  match labelRequirement f with inl r => inl (labels_Add acc r) | inr e => inr e end.
Proof.
  unfold addLabelFilter, labelRequirement.
  case_decide; [done|]. by destruct (labels_NewRequirement _ _ _).
Qed.

Lemma addFieldFilter_step acc f :
  addFieldFilter acc f =
  match fieldTerm f with
  | inl r => inl ((λ acc r, acc ++ [r]) acc r)
  | inr e => inr e
  end.
Proof.
  unfold addFieldFilter, fieldTerm. by repeat case_decide.
Qed.

Lemma filter_operators :
  ∀ f l,
    ((∃ term, fieldTerm f = inl term) ↔
     FieldFilter_Op f = "=" ∨ FieldFilter_Op f = "!=") ∧
    ((∃ r, labelRequirement l = inl r) →
     LabelFilter_Op l ≠ "in" ∧ LabelFilter_Op l ≠ "notin").
Proof.
  intros f l. unfold fieldTerm, labelRequirement. split.
  - repeat case_decide; split; try naive_solver; eauto.
  - case_decide; [by intros [? ?]|naive_solver].
Qed.

(** [selectorsFromFilters] succeeds exactly when every label filter and
    every field filter is accepted.  The label selector it then returns is
    [labels.Everything()] to which the requirement of each label filter
    has been added with [Add], filter after filter (where a requirement
    ends up in the selector is the library's matter); the field selector
    is the conjunction of one term per field filter, in order, followed by
    the term for the node when a node is given.  Otherwise the error is
    that of the first rejected label filter, or, when all label filters
    pass, of the first rejected field filter.  Field filters are accepted
    for the operators "=" and "!=" only, label filters never for "in" and
    "notin". *)
Theorem selectors_from_filters filters :
  (∀ labelSelector selectors,
     selectorsFromFilters filters = inl (labelSelector, selectors) ↔
     (∃ requirements,
        accepted labelRequirement (Filters_Labels filters) requirements ∧
        labelSelector = foldl labels_Add labels_Everything requirements) ∧
     ∃ terms,
       accepted fieldTerm (Filters_Fields filters) terms ∧
       selectors =
         terms ++ (if decide (Filters_Node filters = "") then []
                   else [OneTermEqualSelector podNodeField (Filters_Node filters)])) ∧
  (∀ err,
     selectorsFromFilters filters = inr err ↔
     firstRejected labelRequirement (Filters_Labels filters) err ∨
     (∃ requirements,
        accepted labelRequirement (Filters_Labels filters) requirements) ∧
     firstRejected fieldTerm (Filters_Fields filters) err) ∧
  (∀ f l,
     ((∃ term, fieldTerm f = inl term) ↔
      FieldFilter_Op f = "=" ∨ FieldFilter_Op f = "!=") ∧
     ((∃ r, labelRequirement l = inl r) →
      LabelFilter_Op l ≠ "in" ∧ LabelFilter_Op l ≠ "notin")).
Proof.
  pose proof (foldlE_accepted addLabelFilter labelRequirement labels_Add
                addLabelFilter_step (Filters_Labels filters) labels_Everything) as HL.
  pose proof (foldlE_accepted addFieldFilter fieldTerm (λ acc r, acc ++ [r])
                addFieldFilter_step (Filters_Fields filters) []) as HF.
  assert (match foldlE addFieldFilter [] (Filters_Fields filters) with
          | inl res => ∃ rs, accepted fieldTerm (Filters_Fields filters) rs ∧ res = [] ++ rs
          | inr err => firstRejected fieldTerm (Filters_Fields filters) err
          end) as HF'.
  { destruct (foldlE addFieldFilter [] _); [|done].
    destruct HF as (rs & Hrs & ->). exists rs. by rewrite foldl_snoc. }
  clear HF. rename HF' into HF.
  unfold selectorsFromFilters.
  destruct (foldlE addLabelFilter labels_Everything _) as [ls|el].
  - destruct HL as (rs & Hrs & ->). simpl in *.
    destruct (foldlE addFieldFilter [] _) as [fs|ef].
    + destruct HF as (ts & Hts & ->). simpl in *. split_and!.
      * intros labelSelector selectors. split.
        -- intros [= <- <-]. split; [by exists rs|]. exists ts. split; [done|].
           by repeat case_decide; rewrite ?app_nil_r.
        -- intros ((rs' & Hacc & ->) & terms & Hterms & ->).
           rewrite (accepted_inj _ _ _ _ Hacc Hrs), (accepted_inj _ _ _ _ Hterms Hts).
           by repeat case_decide; rewrite ?app_nil_r.
      * intros err. split; [done|].
        intros [Hrej|[_ Hrej]]; exfalso; eauto using accepted_not_rejected.
      * apply filter_operators.
    + split_and!.
      * intros labelSelector selectors. split; [done|].
        intros (_ & terms & Hterms & _). exfalso. eauto using accepted_not_rejected.
      * intros err. split.
        -- intros [= <-]. right. eauto.
        -- intros [Hrej|[_ Hrej]].
           ++ exfalso. eauto using accepted_not_rejected.
           ++ f_equal. eauto using firstRejected_inj.
      * apply filter_operators.
  - split_and!.
    + intros labelSelector selectors. split; [done|].
      intros ((rs & Hacc & _) & _). exfalso. eauto using accepted_not_rejected.
    + intros err. split.
      * intros [= <-]. by left.
      * intros [Hrej|[[ls Hacc] _]].
        -- f_equal. eauto using firstRejected_inj.
        -- exfalso. eauto using accepted_not_rejected.
    + apply filter_operators.
Qed.

End SelectorProperties.

(** * The properties at the example objects *)

Section Examples.
#[local] Existing Instance exampleExternals.

Ltac computed := vm_compute; reflexivity.

Ltac returns := apply (bool_decide_unpack _); vm_compute; exact I.

Ltac in_list H :=
  apply list_elem_of_In in H; cbn [In] in H;
  repeat (destruct H as [<-|H]); [..|destruct H].

Lemma stateAfter_run evs :
  is_Some (run plainClient evs) → run plainClient evs = Some (stateAfter evs).
Proof. unfold stateAfter. by intros [c ->]. Qed.

Lemma annotatedStateAfter_run evs :
  is_Some (run annotationClient evs) →
  run annotationClient evs = Some (annotatedStateAfter evs).
Proof. unfold annotatedStateAfter. by intros [c ->]. Qed.

(** ** Counterexamples *)


(** C3, counterexample.  "web-0" is deleted at 10s, created again under the
    same name and address, and deleted again at 12s.  The round of the
    delete loop at 15.5s applies the first request and removes the entry
    the second request is for, 1.5s before the second request's grace
    period of 5s is over; until that round [GetPod] found the pod. *)
Lemma grace_period_counterexample :
  let now := (15 * time_Second + 500000000)%Z in
  let identifier := connectionIdentifier "10.0.0.5" in
  let d := mkDeleteRequest identifier "web-0" (12 * time_Second) in
  run plainClient recreatedPodRun = Some recreatedPodState ∧
  deleteQueue recreatedPodState !! 4 = Some d ∧
  (now < Req_ts d + defaultPodDeleteGracePeriod)%Z ∧
  (GetPod recreatedPodState identifier).1 = Some (podFromAPI plainClient web0_again) ∧
  Pods (deleteLoop defaultPodDeleteGracePeriod recreatedPodState now) !! identifier
    = None ∧
  (GetPod (deleteLoop defaultPodDeleteGracePeriod recreatedPodState now) identifier).1
    = None.
Proof.
  split_and!; [apply stateAfter_run; returns|computed..].
Qed.

(** C4, counterexample.  For pod "web-1" under the rule
    [resource attribute k8s.pod.uid] three fallback identifiers are
    appended, not two, and the result has four entries, one of which, the
    resource-attribute identifier [k8s.pod.ip], is none of the rule
    identifier, the pod-UID fallback and the connection fallback. *)
Lemma fallback_identifiers_counterexample :
  let pod := podFromAPI exampleClient web1 in
  let claimed := [podUIDIdentifier "u1"; podUIDIdentifier "u1";
                  connectionIdentifier "10.0.0.5"] in
  mapM (identifiersOfAssoc pod) (Associations exampleClient)
    = Some [[podUIDIdentifier "u1"]] ∧
  length (fallbackIdentifiers pod) = 3 ∧
  ∃ ids, getIdentifiersFromAssoc exampleClient pod = Some ids ∧
         length ids = 4 ∧
         ¬ (∀ identifier, identifier ∈ ids → identifier ∈ claimed).
Proof.
  split_and!; [computed|computed|].
  exists [podUIDIdentifier "u1"; podUIDIdentifier "u1";
          connectionIdentifier "10.0.0.5"; podIPIdentifier "10.0.0.5"].
  split_and!; [computed|reflexivity|].
  intros Hall.
  assert (podIPIdentifier "10.0.0.5"
          ∉ [podUIDIdentifier "u1"; podUIDIdentifier "u1";
             connectionIdentifier "10.0.0.5"]) as Hnot.
  { apply (proj1 (bool_decide_eq_false _)). computed. }
  apply Hnot, Hall. do 3 right. left.
Qed.

(** C6, counterexample.  The rule [connection, resource attribute
    container.id] contains a container-ID source, the host-network pod has
    two container IDs, and the rule yields no identifier at all. *)
Lemma containerID_rule_counterexample :
  Exists isContainerIDSource (Sources connectionContainerRule) ∧
  size (ByID (Pod_Containers hostNetworkPod)) = 2 ∧
  identifiersOfAssoc hostNetworkPod connectionContainerRule = Some [].
Proof.
  split_and!; [|computed|computed].
  right. left. by split.
Qed.

(** C10, counterexample.  On a client with a rule for pod annotations,
    whose informer delivers pods with their annotations, "web-0" is deleted
    at 10s and created again, with the same address and the ignore
    annotation, before the grace period is over: the table then holds an
    ignore-flagged record under the address, and the round of the delete
    loop at 16s removes it.  Both pods are as the informer of that client
    delivers them, whatever the owner metadata rule answers. *)
Lemma ignored_entry_counterexample :
  let now := (16 * time_Second)%Z in
  let identifier := connectionIdentifier "10.0.0.5" in
  (∀ O : OwnerMetadataRule,
     removeUnnecessaryPodData (startedPod (Some 0%Z)) annotationRules
       = startedPod (Some 0%Z) ∧
     removeUnnecessaryPodData ignoredPod annotationRules = ignoredPod) ∧
  run annotationClient annotatedPodRun = Some (annotatedStateAfter annotatedPodRun) ∧
  Pods (annotatedStateAfter annotatedPodRun) !! identifier
    = Some (podFromAPI annotationClient ignoredPod) ∧
  Pod_Ignore (podFromAPI annotationClient ignoredPod) = true ∧
  run annotationClient (annotatedPodRun ++ [EvDeleteLoop now])
    = Some (annotatedStateAfter (annotatedPodRun ++ [EvDeleteLoop now])) ∧
  Pods (annotatedStateAfter (annotatedPodRun ++ [EvDeleteLoop now])) !! identifier = None.
Proof.
  split_and!;
    [intros O; unfold removeUnnecessaryPodData; simpl;
       by destruct (IncludesOwnerMetadata annotationRules)
    |apply annotatedStateAfter_run; returns|computed|computed
    |apply annotatedStateAfter_run; returns|computed].
Qed.

(** ** Instances of the theorems *)


Lemma deleteLoop_name_guard_witness :
  run plainClient reassignedRun = Some reassignedState ∧
  Pods (deleteLoop defaultPodDeleteGracePeriod reassignedState (16 * time_Second))
    !! connectionIdentifier "10.0.0.5"
  = Some (podFromAPI plainClient api0).
Proof.
  split; [apply stateAfter_run; returns|].
  destruct deleteLoop_name_guard as [_ Hloop].
  destruct (Hloop defaultPodDeleteGracePeriod reassignedState (16 * time_Second)%Z
              (connectionIdentifier "10.0.0.5") (podFromAPI plainClient api0))
    as (_ & _ & Hstays).
  - computed.
  - apply Hstays. intros d Hd _.
    vm_compute in Hd. in_list Hd; vm_compute; discriminate.
Defined.

Lemma deleteLoop_grace_period_witness :
  let identifier := connectionIdentifier "10.0.0.5" in
  run plainClient deletedPodRun = Some deletedPodState ∧
  Pods (deleteLoop defaultPodDeleteGracePeriod deletedPodState (14 * time_Second))
    !! identifier = Some (podFromAPI plainClient web0) ∧
  Pods (deleteLoop defaultPodDeleteGracePeriod deletedPodState (15 * time_Second))
    !! identifier = None.
Proof.
  intros identifier. split; [apply stateAfter_run; returns|]. split.
  - destruct (deleteLoop_grace_period defaultPodDeleteGracePeriod deletedPodState
                (14 * time_Second)%Z) as (_ & Hstays & _).
    apply (Hstays identifier (podFromAPI plainClient web0)).
    + computed.
    + intros d Hd _. vm_compute in Hd. in_list Hd; computed.
  - destruct (deleteLoop_grace_period defaultPodDeleteGracePeriod deletedPodState
                (15 * time_Second)%Z) as (_ & _ & Hdue).
    destruct Hdue as [_ Hdue].
    + apply (queueOrdered_same_time (10 * time_Second)%Z).
      apply Forall_forall. intros d Hd. vm_compute in Hd. in_list Hd; computed.
    + apply (Hdue (mkDeleteRequest identifier "web-0" (10 * time_Second))
                  (podFromAPI plainClient web0)).
      * apply (bool_decide_unpack _). vm_compute. exact I.
      * unfold expired. vm_compute. discriminate.
      * computed.
      * reflexivity.
Defined.

Lemma fallback_identifiers_appended_witness :
  0 < PodIdentifierMaxLength ∧
  getIdentifiersFromAssoc exampleClient (podFromAPI exampleClient web1) =
  Some [podUIDIdentifier "u1"; podUIDIdentifier "u1";
        connectionIdentifier "10.0.0.5"; podIPIdentifier "10.0.0.5"].
Proof.
  assert (0 < PodIdentifierMaxLength) as Hpos by (simpl; lia).
  split; [exact Hpos|].
  destruct fallback_identifiers_appended as (_ & _ & Hexample & _).
  exact (proj1 (proj2 (Hexample Hpos))).
Defined.

Lemma hostNetwork_no_connection_identifier_witness :
  let c := New noRules [connectionContainerRule] (mkExcludes []) in
  Pod_HostNetwork hostNetworkPod = true ∧
  getIdentifiersFromAssoc c hostNetworkPod = Some [podUIDIdentifier "u9"] ∧
  ¬ connectionBased (podUIDIdentifier "u9").
Proof.
  intros c.
  assert (getIdentifiersFromAssoc c hostNetworkPod = Some [podUIDIdentifier "u9"])
    as Hids by computed.
  split_and!; [reflexivity|exact Hids|].
  destruct (hostNetwork_no_connection_identifier c hostNetworkPod eq_refl)
    as (_ & Hnone & _).
  apply (proj1 (Hnone [podUIDIdentifier "u9"] Hids)).
  left.
Defined.

Lemma containerID_rule_identifiers_witness :
  ∃ ids, identifiersOfAssoc podNetworkPod connectionContainerRule = Some ids ∧
         length ids = 2 ∧ NoDup ids.
Proof.
  assert (is_Some (identifiersOfAssoc podNetworkPod connectionContainerRule))
    as [ids Hi] by returns.
  exists ids. split; [done|].
  assert (Exists isContainerIDSource (Sources connectionContainerRule)) as Hex.
  { right. left. by split. }
  destruct (proj2 (containerID_rule_identifiers podNetworkPod connectionContainerRule Hex)
              ids Hi)
    as (st & k & s & Hs & _ & _ & _ & Hcases).
  change (ruleSkipped podNetworkPod false (Sources connectionContainerRule))
    with false in Hcases.
  destruct Hcases as (_ & Hlen & Hnodup & _). split; [|done].
  rewrite Hlen. computed.
Defined.

Lemma GetPod_hides_ignored_witness :
  let identifier := connectionIdentifier "10.0.0.5" in
  Pods ignoredPodState !! identifier = Some (podFromAPI plainClient web0_ignored) ∧
  (GetPod ignoredPodState identifier).1 = None ∧
  (GetPod addedPodState identifier).1 = Some (podFromAPI plainClient web0).
Proof.
  intros identifier.
  assert (Pods ignoredPodState !! identifier
          = Some (podFromAPI plainClient web0_ignored)) as Hl by computed.
  split_and!; [exact Hl| |].
  - destruct (GetPod_hides_ignored ignoredPodState identifier) as (_ & Hign & _).
    apply (Hign _ Hl). computed.
  - destruct (GetPod_hides_ignored addedPodState identifier) as (Hvis & _ & _).
    apply Hvis. split; computed.
Defined.

Lemma forgetPod_only_enqueues_witness :
  ∃ c', forgetPod addedPodState web0 (clockAt (10 * time_Second)) = Some c' ∧
        Pods c' = Pods addedPodState ∧
        length (deleteQueue c') = 3.
Proof.
  assert (is_Some (forgetPod addedPodState web0 (clockAt (10 * time_Second))))
    as [c' Hf] by returns.
  exists c'. split; [done|].
  destruct forgetPod_only_enqueues as (Hforget & _ & _).
  destruct (Hforget _ _ _ _ Hf) as (Hpods & ids & reqs & Hids & Hq & Hreqs & _).
  split; [exact Hpods|].
  rewrite Hq, Hreqs. vm_compute in Hids. injection Hids as <-.
  computed.
Defined.

Lemma no_deployment_rule_no_replicaset_watch_witness :
  DeploymentName noRules = false ∧ DeploymentUID noRules = false ∧
  ∃ c, run plainClient ownedPodRun = Some c ∧
       replicasetInformer c = None ∧
       Pod_DeploymentUID (podFromAPI c ownedPod) = "".
Proof.
  split_and!; [reflexivity|reflexivity|].
  assert (is_Some (run plainClient ownedPodRun)) as [c Hrun] by returns.
  exists c. split; [done|].
  destruct (no_deployment_rule_no_replicaset_watch noRules [] (mkExcludes [])
              eq_refl eq_refl) as [_ Hreach].
  destruct (Hreach ownedPodRun c Hrun) as (Hinf & _ & _ & Huid).
  split; [exact Hinf|apply Huid].
Defined.

Lemma ignored_entry_not_queued_witness :
  let identifier := connectionIdentifier "10.0.0.5" in
  let c := annotatedStateAfter ignoredPodAddedRun in
  run annotationClient ignoredPodAddedRun = Some c ∧
  ∃ c', forgetPod c ignoredPod (clockAt (12 * time_Second)) = Some c' ∧
        deleteQueue c' = [] ∧
        Pods (deleteLoop defaultPodDeleteGracePeriod c' (20 * time_Second)) !! identifier
        = Some (podFromAPI annotationClient ignoredPod).
Proof.
  intros identifier c.
  split; [apply annotatedStateAfter_run; returns|].
  assert (is_Some (forgetPod c ignoredPod (clockAt (12 * time_Second))))
    as [c' Hf] by returns.
  exists c'. split; [done|].
  destruct (proj2 (ignored_entry_not_queued _ _ _) _ Hf) as [Hentry Hqueue].
  split.
  - rewrite (Hqueue [podUIDIdentifier "u2"; connectionIdentifier "10.0.0.5";
                     podIPIdentifier "10.0.0.5"]).
    + computed.
    + computed.
    + intros id' p Hin Hp. in_list Hin; vm_compute in Hp; injection Hp as <-;
        reflexivity.
  - apply (Hentry identifier (podFromAPI annotationClient ignoredPod)).
    + computed.
    + computed.
    + intros d Hd. vm_compute in Hd. inversion Hd.
Defined.

End Examples.

(** * More properties at the example objects *)

Section MoreExamples.
#[local] Existing Instance exampleExternals.
#[local] Existing Instance exampleOwnerMetadataRule.
#[local] Existing Instance examplePodAttributeExternals.
#[local] Existing Instance exampleImageExternals.
#[local] Existing Instance exampleSelectorExternals.

Ltac computed := vm_compute; reflexivity.

Ltac returns := apply (bool_decide_unpack _); vm_compute; exact I.

Ltac in_list H :=
  apply list_elem_of_In in H; cbn [In] in H;
  repeat (destruct H as [<-|H]); [..|destruct H].

Lemma store_add_then_get_witness :
  GetNamespace (handleNamespaceAdd plainClient (NamespaceObj kubeSystem)) "kube-system"
  = Some {| Namespace_Name := "kube-system";
            Namespace_NamespaceUID := "ns-1";
            Namespace_StartTime := None;
            Namespace_Attributes := extractNamespaceAttributes plainClient kubeSystem |}.
Proof.
  destruct (store_add_then_get plainClient kubeSystem) as (Hnamespace & _).
  exact (proj1 (Hnamespace _ (or_introl eq_refl))).
Defined.

Lemma store_delete_removes_witness :
  let c := handleNamespaceAdd plainClient (NamespaceObj kubeSystem) in
  storesKeyed c ∧
  GetNamespace
    (handleNamespaceDelete c (DeletedFinalStateUnknown (NamespaceObj kubeSystem)))
    "kube-system" = None.
Proof.
  intros c.
  assert (storesKeyed c) as Hkeyed.
  { apply (handle_storesKeyed plainClient
             (EvNotify KNamespace (OnAdd (NamespaceObj kubeSystem)) (clockAt 0)));
      [apply storesKeyed_New|reflexivity]. }
  split; [exact Hkeyed|].
  destruct (store_delete_removes c (DeletedFinalStateUnknown (NamespaceObj kubeSystem))
              kubeSystem Hkeyed) as (Hnamespace & _).
  unfold GetNamespace. rewrite (Hnamespace eq_refl). apply lookup_delete_eq.
Defined.

Lemma stores_keyed_along_runs_witness :
  ∃ c, run plainClient
         [EvStart; EvNotify KNamespace (OnAdd (NamespaceObj kubeSystem)) (clockAt 0)]
       = Some c ∧
       storesKeyed c.
Proof.
  assert (is_Some (run plainClient
            [EvStart; EvNotify KNamespace (OnAdd (NamespaceObj kubeSystem)) (clockAt 0)]))
    as [c Hrun] by returns.
  exists c. split; [exact Hrun|].
  exact (proj1 (stores_keyed_along_runs noRules [] (mkExcludes []) _ c Hrun)).
Defined.

Lemma event_touches_own_table_witness :
  ∃ c', handle plainClient (EvNotify KNode (OnAdd (NodeObj nodeA)) (clockAt 0)) = Some c' ∧
        Pods c' = Pods plainClient ∧ Namespaces c' = Namespaces plainClient.
Proof.
  eexists. split; [reflexivity|].
  destruct (event_touches_own_table plainClient
              (EvNotify KNode (OnAdd (NodeObj nodeA)) (clockAt 0)) _ eq_refl)
    as (_ & _ & _ & Hpods & _ & Hnamespaces & _).
  split; [apply Hpods|apply Hnamespaces]; intros; discriminate.
Defined.

Lemma unexpected_payload_dropped_witness :
  hasKind KPod (payload (OnAdd (NamespaceObj kubeSystem))) = false ∧
  ∃ c', handle plainClient (EvNotify KPod (OnAdd (NamespaceObj kubeSystem)) (clockAt 0))
        = Some c' ∧
        sameCache plainClient c' ∧
        telemetryBuilder c' !! "OtelsvcK8sPodAdded" = Some 1%Z ∧
        telemetryBuilder c' !! "OtelsvcK8sPodTableSize" = Some 0%Z.
Proof.
  split; [reflexivity|].
  destruct (unexpected_payload_dropped plainClient KPod
              (OnAdd (NamespaceObj kubeSystem)) (clockAt 0) eq_refl)
    as (c' & Hhandle & Hsame & Hcounted).
  exists c'. split_and!; [exact Hhandle|exact Hsame|..]; rewrite Hcounted; computed.
Defined.

Lemma owner_references_first_match_witness :
  getPodReplicaSetUID ownedPod = "rs-1" ∧ getPodStatefulSetUID ownedPod = "".
Proof.
  destruct (owner_references_first_match ownedPod webReplicaSet)
    as (Hfirst & _ & _ & Hnone & _).
  split.
  - apply (Hfirst [] (mkOwnerReference "ReplicaSet" "web-7c9f" "rs-1" (Some true)) []);
      [reflexivity|constructor|reflexivity].
  - apply Hnone. repeat constructor. discriminate.
Defined.

Lemma pod_deployment_resolution_witness :
  Pod_DeploymentUID
    (podFromAPI (handleReplicaSetAdd plainClient (ReplicaSetObj webReplicaSet)) ownedPod)
  = "dep-1" ∧
  Pod_DeploymentUID (podFromAPI plainClient ownedPod) = "".
Proof.
  assert (Meta_UID webReplicaSet ≠ "") as Huid by discriminate.
  destruct (pod_deployment_resolution plainClient webReplicaSet ownedPod Huid eq_refl)
    as (Hadded & _ & Hunknown & _).
  split; [exact Hadded|apply Hunknown; reflexivity].
Defined.

Lemma ignored_pod_hidden_witness :
  shouldIgnorePod plainClient web0_ignored = true ∧
  ∃ c', addOrUpdatePod plainClient web0_ignored = Some c' ∧
        (GetPod c' (connectionIdentifier "10.0.0.5")).1 = None.
Proof.
  assert (shouldIgnorePod plainClient web0_ignored = true) as Hignore by computed.
  split; [exact Hignore|].
  assert (is_Some (addOrUpdatePod plainClient web0_ignored)) as [c' Hadd] by returns.
  exists c'. split; [exact Hadd|].
  destruct (ignored_pod_hidden plainClient web0_ignored c' Hignore Hadd)
    as (_ & _ & _ & Hhidden).
  destruct (Hhidden [podUIDIdentifier "u2"; connectionIdentifier "10.0.0.5";
                     podIPIdentifier "10.0.0.5"]
              (connectionIdentifier "10.0.0.5"))
    as [[_ Hget]|(p & Hp & _)].
  - computed.
  - right. left.
  - exact Hget.
  - vm_compute in Hp. discriminate.
Defined.

Lemma deleteLoop_rounds_compose_witness :
  (14 * time_Second ≤ 16 * time_Second)%Z ∧
  deleteLoop defaultPodDeleteGracePeriod
    (deleteLoop defaultPodDeleteGracePeriod deletedPodState (14 * time_Second))
    (16 * time_Second)
  = deleteLoop defaultPodDeleteGracePeriod deletedPodState (16 * time_Second).
Proof.
  assert (14 * time_Second ≤ 16 * time_Second)%Z as Hle by (vm_compute; discriminate).
  split; [exact Hle|]. by apply deleteLoop_rounds_compose.
Defined.

Lemma deleteLoop_only_removes_witness :
  Pods (deleteLoop defaultPodDeleteGracePeriod deletedPodState (12 * time_Second))
    = Pods deletedPodState ∧
  deleteQueue (deleteLoop defaultPodDeleteGracePeriod deletedPodState (12 * time_Second))
    = deleteQueue deletedPodState.
Proof.
  destruct (deleteLoop_only_removes defaultPodDeleteGracePeriod deletedPodState
              (12 * time_Second)%Z) as (_ & _ & _ & Hyoung).
  apply Hyoung. intros d Hd. vm_compute in Hd. simplify_eq. computed.
Defined.

Lemma stale_entry_outlives_pod_witness :
  ∃ c', forgetPod addedPodState web0_moved (clockAt (10 * time_Second)) = Some c' ∧
        Pods (deleteLoop defaultPodDeleteGracePeriod c' (30 * time_Second))
          !! connectionIdentifier "10.0.0.5"
        = Some (podFromAPI plainClient web0).
Proof.
  assert (is_Some (forgetPod addedPodState web0_moved (clockAt (10 * time_Second))))
    as [c' Hforget] by returns.
  exists c'. split; [exact Hforget|].
  destruct (stale_entry_outlives_pod addedPodState web0_moved _ c'
              [podUIDIdentifier "u1"; connectionIdentifier "10.0.0.6";
               podIPIdentifier "10.0.0.6"]
              (connectionIdentifier "10.0.0.5") Hforget) as [_ Hstays].
  - computed.
  - returns.
  - intros d Hd. vm_compute in Hd. inversion Hd.
  - rewrite Hstays. computed.
Defined.

Lemma delete_queue_sorted_along_runs_witness :
  clockOrdered 0 deletedPodRun ∧
  run plainClient deletedPodRun = Some deletedPodState ∧
  queueOrdered (deleteQueue deletedPodState).
Proof.
  assert (clockOrdered 0 deletedPodRun) as Hclock.
  { simpl. split; [intros j k _; reflexivity|].
    exists 0%Z. split; [intros j; split; reflexivity|].
    split; [intros j k _; reflexivity|].
    exists (10 * time_Second)%Z. split; [|exact I].
    intros j. unfold clockAt. split; vm_compute; discriminate. }
  assert (run plainClient deletedPodRun = Some deletedPodState) as Hrun
    by (apply stateAfter_run; returns).
  split_and!; [exact Hclock|exact Hrun|].
  exact (proj1 (delete_queue_sorted_along_runs noRules [] (mkExcludes []) _ _ _
                  Hclock Hrun)).
Defined.

Lemma association_panics_out_of_range_witness :
  identifiersOfAssoc podNetworkPod longRule = None ∧
  getIdentifiersFromAssoc (New noRules [longRule] (mkExcludes [])) podNetworkPod = None.
Proof.
  destruct (association_panics_out_of_range podNetworkPod longRule) as [Hpanic Hclient].
  assert (identifiersOfAssoc podNetworkPod longRule = None) as Hnone.
  { apply Hpanic. exists 4, (mkAssociationSource ResourceSource K8SPodUIDKey).
    split_and!; [reflexivity|simpl; lia|computed]. }
  split; [exact Hnone|].
  apply Hclient; [left|exact Hnone].
Defined.

Lemma plain_rule_identifier_witness :
  identifiersOfAssoc podNetworkPod podUIDRule =
  Some [[PodIdentifierAttributeFromResourceAttribute K8SPodUIDKey "u1";
         zeroAttribute; zeroAttribute; zeroAttribute]].
Proof.
  rewrite plain_rule_identifier.
  - reflexivity.
  - returns.
  - simpl. lia.
Defined.


Lemma Start_informers_witness :
  ∃ c, Start plainClient = Some c ∧
       informerOf c KPod = Some (mkInformer true true) ∧
       informerOf c KReplicaSet = None.
Proof.
  destruct Start_informers as [_ Hnew].
  destruct (Hnew noRules [] (mkExcludes [])) as (c & Hstart & Hinformers & _).
  exists c. split; [exact Hstart|].
  split; [exact (Hinformers KPod)|exact (Hinformers KReplicaSet)].
Defined.

Lemma telemetry_counters_witness :
  ∃ c', handle plainClient (EvNotify KNode (OnAdd (NodeObj nodeA)) (clockAt 0)) = Some c' ∧
        telemetryBuilder c' !! "OtelsvcK8sNodeAdded" = Some 1%Z ∧
        telemetryBuilder c' !! "OtelsvcK8sPodAdded" = None.
Proof.
  eexists. split; [reflexivity|].
  destruct (telemetry_counters plainClient) as [Hcount _].
  destruct (Hcount KNode (OnAdd (NodeObj nodeA)) (clockAt 0) _ eq_refl)
    as [Hown Hother].
  split; [exact Hown|].
  rewrite (Hother "OtelsvcK8sPodAdded"); [reflexivity|discriminate..].
Defined.

Lemma pod_transform_keeps_attributes_witness :
  PodAttributes.extractPodAttributes metadataRules ∅ webReplicaSets
    (removeUnnecessaryPodData ownedPod metadataRules)
  = PodAttributes.extractPodAttributes metadataRules ∅ webReplicaSets ownedPod.
Proof.
  apply pod_transform_keeps_attributes. intros Hreads. exact Hreads.
Defined.

Lemma container_id_without_runtime_prefix_witness :
  withoutRuntimePrefix "containerd://abc123" = "abc123" ∧
  is_Some (ByID (Containers.extractPodContainersAttributes metadataRules containerPod)
             !! "abc123").
Proof.
  destruct container_id_without_runtime_prefix as (_ & Hprefix & Htable).
  assert (withoutRuntimePrefix "containerd://abc123" = "abc123") as Hid.
  { apply (Hprefix "containerd" "abc123"); reflexivity. }
  split; [exact Hid|].
  apply Htable. split; [reflexivity|].
  exists (mkApiContainerStatus "app" "containerd://abc123" 0 "").
  split; [left|exact Hid].
Defined.

Lemma container_tables_share_records_witness :
  ∃ container,
    ByID (Containers.extractPodContainersAttributes metadataRules containerPod)
      !! "abc123" = Some container ∧
    ByName (Containers.extractPodContainersAttributes metadataRules containerPod)
      !! "app" = Some container.
Proof.
  assert (is_Some (ByID (Containers.extractPodContainersAttributes metadataRules
                           containerPod) !! "abc123")) as [container Hid] by returns.
  exists container. split; [exact Hid|].
  destruct (container_tables_share_records _ _ _ _ Hid) as (apiStatus & Hin & _ & Hname).
  vm_compute in Hin. in_list Hin. exact Hname.
Defined.


Lemma service_version_of_image_witness :
  let spec := mkApiContainer "app" "nginx:1.27" in
  Containers.parseServiceVersionFromImage (Spec_Container_Image spec) = Version "1.27" ∧
  Container_ServiceVersion (Containers.containerOfSpec metadataRules spec) = "1.27".
Proof.
  intros spec.
  assert (Containers.parseServiceVersionFromImage (Spec_Container_Image spec)
          = Version "1.27") as Hversion by reflexivity.
  split; [exact Hversion|].
  destruct (service_version_of_image metadataRules spec) as (_ & Hparsed & _).
  destruct (Hparsed "1.27" Hversion) as (_ & Hcontainer & _).
  apply Hcontainer; [reflexivity|by eexists].
Defined.

Lemma selectors_from_filters_witness :
  selectorsFromFilters exampleFilters =
  inl ([("app", "!=", ["web"]); ("zone", "=", ["z1"])],
       [OneTermNotEqualSelector "status.phase" "Pending";
        OneTermEqualSelector "spec.nodeName" "node-a"]) ∧
  ∃ err,
    selectorsFromFilters
      {| Filters_Node := ""; Filters_Namespace := "";
         Filters_Fields := [mkFieldFilter "status.phase" "Pending" "=="];
         Filters_Labels := [] |} = inr err.
Proof.
  split.
  - destruct (selectors_from_filters exampleFilters) as (Haccepted & _ & _).
    apply Haccepted. split.
    + exists [("zone", "=", ["z1"]); ("app", "!=", ["web"])]. split; reflexivity.
    + exists [OneTermNotEqualSelector "status.phase" "Pending"]. split; reflexivity.
  - exists (FieldOperatorNotSupported "==").
    destruct (selectors_from_filters
                {| Filters_Node := ""; Filters_Namespace := "";
                   Filters_Fields := [mkFieldFilter "status.phase" "Pending" "=="];
                   Filters_Labels := [] |}) as (_ & Hrejected & _).
    apply Hrejected. right. split; [by exists []|].
    exists [], (mkFieldFilter "status.phase" "Pending" "=="), [], [].
    split_and!; reflexivity.
Defined.

End MoreExamples.

Section ExtractionExamples.
#[local] Existing Instance exampleOtherExternals.
#[local] Existing Instance examplePodAttributeExternals.
#[local] Existing Instance exampleImageExternals.
#[local] Existing Instance withExtraction.

Lemma pod_identified_by_container_ids_witness :
  let c := New metadataRules [containerIDRule] (mkExcludes []) in
  ∃ ids,
    identifiersOfAssoc (podFromAPI c containerPod) containerIDRule = Some ids ∧
    PodIdentifier_lit (PodIdentifierAttributeFromResourceAttribute ContainerIDKey "abc123")
      ∈ ids.
Proof.
  intros c.
  assert (0 < PodIdentifierMaxLength) as Hpos by (simpl; lia).
  destruct (pod_identified_by_container_ids c containerPod containerIDRule
              eq_refl Hpos eq_refl) as (ids & Hids & Hmembers).
  exists ids. split; [exact Hids|].
  apply Hmembers. split; [reflexivity|].
  exists (mkApiContainerStatus "app" "containerd://abc123" 0 "").
  split; [left|reflexivity].
Defined.

End ExtractionExamples.

(** ** With label and annotation rules

    The attributes of pods that carry the label "app" and the annotation
    "team", under rules for both and an [extractFromPodMetadata] that
    copies them. *)

Section RuleExamples.
#[local] Existing Instance copyingPodAttributeExternals.

Ltac computed := vm_compute; reflexivity.

Ltac in_list H :=
  apply list_elem_of_In in H; cbn [In] in H;
  repeat (destruct H as [<-|H]); [..|destruct H].

Lemma copyEntry_keeps r metadata tags formatter key :
  formatted formatter (Rule_Selector r) ≠ key →
  copyEntry r metadata tags formatter !! key = tags !! key.
Proof.
  intros Hkey. unfold copyEntry.
  destruct (metadata !! Rule_Selector r); [by apply lookup_insert_ne|done].
Qed.

Ltac keeps :=
  let Hin := fresh in
  split; intros ? ? Hin; in_list Hin;
  apply copyEntry_keeps; vm_compute; discriminate.

Lemma service_name_precedence_witness :
  let tags := PodAttributes.extractPodAttributes labelledRules ∅ webReplicaSets
                labelledOwnedPod in
  tags !! ServiceNameKey = Some "web" ∧
  tags !! "k8s.pod.labels.app" = Some "shop" ∧
  tags !! "k8s.pod.annotations.team" = Some "core" ∧
  PodAttributes.extractPodAttributes labelledRules ∅ ∅ labelledJobPod
    !! ServiceNameKey = Some "backup".
Proof.
  intros tags.
  assert (rulesKeep labelledRules labelledOwnedPod ServiceNameKey) as Howned by keeps.
  assert (rulesKeep labelledRules labelledJobPod ServiceNameKey) as Hjob by keeps.
  split_and!; [|computed|computed|].
  - unfold tags.
    rewrite (service_name_precedence labelledRules ∅ webReplicaSets labelledOwnedPod);
      [computed|reflexivity|exact Howned|discriminate..].
  - rewrite (service_name_precedence labelledRules ∅ ∅ labelledJobPod);
      [computed|reflexivity|exact Hjob|discriminate..].
Defined.

Lemma deployment_attributes_need_replicaset_witness :
  let tags := PodAttributes.extractPodAttributes labelledRules ∅ webReplicaSets
                labelledOwnedPod in
  tags !! K8SDeploymentNameKey = Some "web" ∧
  tags !! K8SDeploymentUIDKey = Some "dep-1" ∧
  PodAttributes.extractPodAttributes labelledRules ∅ ∅ labelledOwnedPod
    !! K8SDeploymentNameKey = None.
Proof.
  intros tags.
  assert (ownerKey labelledRules labelledOwnedPod K8SDeploymentNameKey) as Hname
    by (split_and!; [keeps|discriminate..]).
  assert (ownerKey labelledRules labelledOwnedPod K8SDeploymentUIDKey) as Huid
    by (split_and!; [keeps|discriminate..]).
  destruct (deployment_attributes_need_replicaset labelledRules ∅ webReplicaSets
              labelledOwnedPod Hname Huid) as (_ & _ & Hsingle).
  destruct (Hsingle (mkOwnerReference "ReplicaSet" "web-7c9f" "rs-1" (Some true))
              (mkReplicaSet "web-7c9f" "default" "rs-1" (mkDeployment "web" "dep-1" ∅)))
    as [Htag1 Htag2]; [reflexivity|reflexivity|computed|discriminate|].
  split_and!; [exact Htag1|exact Htag2|].
  destruct (deployment_attributes_need_replicaset labelledRules ∅ ∅
              labelledOwnedPod Hname Huid) as (Honly & _ & _).
  destruct (PodAttributes.extractPodAttributes labelledRules ∅ ∅ labelledOwnedPod
              !! K8SDeploymentNameKey) as [name|] eqn:Htag; [|reflexivity].
  destruct (Honly name eq_refl) as (_ & ref & replicaset & _ & _ & Hstored & _).
  vm_compute in Hstored. discriminate.
Defined.

Lemma cronjob_name_from_job_name_witness :
  PodAttributes.extractPodAttributes labelledRules ∅ ∅ labelledJobPod !! K8SCronJobNameKey
  = Some "backup".
Proof.
  assert (ownerKey labelledRules labelledJobPod K8SCronJobNameKey) as Hkey
    by (split_and!; [keeps|discriminate..]).
  destruct (cronjob_name_from_job_name labelledRules ∅ ∅ labelledJobPod jobReference
              eq_refl Hkey eq_refl eq_refl) as [Hname _].
  apply (Hname "backup" "28012345"); [reflexivity|discriminate|reflexivity|reflexivity].
Defined.

End RuleExamples.

Section RuleExtractionExamples.
#[local] Existing Instance exampleOtherExternals.
#[local] Existing Instance copyingPodAttributeExternals.
#[local] Existing Instance exampleImageExternals.
#[local] Existing Instance withExtraction.

Ltac computed := vm_compute; reflexivity.

Ltac in_list H :=
  apply list_elem_of_In in H; cbn [In] in H;
  repeat (destruct H as [<-|H]); [..|destruct H].

Lemma pod_record_cluster_uid_witness :
  let attribute c key := Pod_Attributes (podFromAPI c labelledOwnedPod) !! key in
  attribute (handleNamespaceAdd labelledClient (NamespaceObj kubeSystem)) tagClusterUID
    = Some "ns-1" ∧
  attribute (handleNamespaceDelete labelledClient (NamespaceObj kubeSystem)) tagClusterUID
    = None ∧
  attribute labelledClient "k8s.pod.labels.app" = Some "shop".
Proof.
  intros attribute.
  assert (rulesKeep (Rules labelledClient) labelledOwnedPod tagClusterUID) as Hkeeps.
  { split; intros r tags Hin; in_list Hin;
      apply copyEntry_keeps; vm_compute; discriminate. }
  assert (tagClusterUID ∉ otherTags) as Hfresh
    by (apply (bool_decide_unpack _); vm_compute; exact I).
  assert (shouldIgnorePod labelledClient labelledOwnedPod = false) as Hignore
    by computed.
  destruct (pod_record_cluster_uid labelledClient kubeSystem labelledOwnedPod
              eq_refl Hkeeps Hfresh (storesKeyed_New _ _ _) eq_refl Hignore)
    as (Hadded & Hdeleted & _).
  split_and!; [exact Hadded|exact Hdeleted|computed].
Defined.

End RuleExtractionExamples.
